(** * digitalsim: a combinational logic simulator

    Shallow embedding of [EE24B021_A4/digitalsim.py] and the properties of
    its parser, dependency resolver, gate evaluator and simulation loop.

    Conventions of the model.
    - A Python [str] is a [string] whose characters are code points below
      256; the character classes used by [str.strip], [str.split],
      [str.splitlines] and the regular expression classes are written out
      for that range.  Integers are unbounded, as in the language.
    - Python exceptions are values of [exn]; a computation that may raise
      returns a [result].  Loops whose trip count is not structural take a
      fuel argument; running out of fuel is the separate outcome
      [OutOfFuel], and the lemmas below show it is never reached.
    - A [dict] iterated in insertion order is an association list with
      unique keys; a [dict] used only for lookup and assignment is a
      [gmap]; a [set] is a [gset]. *)

From stdpp Require Import gmap strings list fin_maps.
From Stdlib Require Import ZArith Ascii.

Set Warnings "-clear-no-such-hyp".

(** ** Exceptions and results *)

Inductive exn : Type :=
| ValueError (msg : string)
| TypeError (msg : string)
| KeyError (key : string)
| IndexError
| StopIteration.

Inductive result (A : Type) : Type :=
| Ok (a : A)
| Raise (e : exn)
| OutOfFuel.
Arguments Ok {A} a.
Arguments Raise {A} e.
Arguments OutOfFuel {A}.

Global Instance result_bind : MBind result := λ A B k r,
  match r with
  | Ok a => k a
  | Raise e => Raise e
  | OutOfFuel => OutOfFuel
  end.

(** [for x in xs: body] with an accumulator, stopping at the first raise. *)
Fixpoint for_each {A S} (body : S → A → result S) (xs : list A) (s : S)
  : result S :=
  match xs with
  | [] => Ok s
  | x :: xs' => s' ← body s x; for_each body xs' s'
  end.

(** [[f(x) for x in xs]] where [f] may raise. *)
Fixpoint map_result {A B} (f : A → result B) (xs : list A) : result (list B) :=
  match xs with
  | [] => Ok []
  | x :: xs' => y ← f x; ys ← map_result f xs'; Ok (y :: ys)
  end.

(** [l[i]] on a list. *)
Definition index {A} (l : list A) (i : nat) : result A :=
  match l !! i with
  | Some x => Ok x
  | None => Raise IndexError
  end.

(** [d[k]] on a dict. *)
Definition getitem {V} (d : gmap string V) (k : string) : result V :=
  match d !! k with
  | Some v => Ok v
  | None => Raise (KeyError k)
  end.

(** ** Section 3 of the source: gate evaluation *)

Definition eval_gate (typ : string) (args : list string) : result string :=
  if String.eqb typ "NOT" then
    a0 ← index args 0;
    Ok (if String.eqb a0 "1" then "0" else "1")
  else if String.eqb typ "AND" then
    a0 ← index args 0;
    if String.eqb a0 "1" then
      a1 ← index args 1;
      Ok (if String.eqb a1 "1" then "1" else "0")
    else Ok "0"
  else if String.eqb typ "OR" then
    a0 ← index args 0;
    if String.eqb a0 "1" then Ok "1"
    else
      a1 ← index args 1;
      Ok (if String.eqb a1 "1" then "1" else "0")
  else if String.eqb typ "XOR" then
    a0 ← index args 0;
    a1 ← index args 1;
    Ok (if negb (String.eqb a0 a1) then "1" else "0")
  else
    Raise (ValueError ("Unknown gate type: " +:+ typ)).

(** The textual encoding of a boolean signal value. *)
Definition bit (b : bool) : string := if b then "1" else "0".

(** ** Strings *)

(** [str.isspace] on one character; also the class [\s] of the regular
    expression engine. *)
Definition isspace (c : ascii) : bool :=
  let n := N_of_ascii c in
  ((9 <=? n) && (n <=? 13) || (28 <=? n) && (n <=? 31)
   || (n =? 32) || (n =? 133) || (n =? 160))%N.

(** The line boundaries of [str.splitlines]: LF, VT, FF, CR, FS, GS, RS
    and NEL. *)
Definition is_linebreak (c : ascii) : bool :=
  let n := N_of_ascii c in
  ((10 <=? n) && (n <=? 13) || (28 <=? n) && (n <=? 30) || (n =? 133))%N.

Definition is_upper (c : ascii) : bool :=
  let n := N_of_ascii c in ((65 <=? n) && (n <=? 90))%N.
Definition is_lower (c : ascii) : bool :=
  let n := N_of_ascii c in ((97 <=? n) && (n <=? 122))%N.
Definition is_digit (c : ascii) : bool :=
  let n := N_of_ascii c in ((48 <=? n) && (n <=? 57))%N.

Definition CR : ascii := "013"%char.
Definition LF : ascii := "010"%char.

(** [s.splitlines()]; [after_cr] is set right after a CR, so that the LF of
    a CR LF pair does not start another line. *)
Fixpoint splitlines_go (after_cr : bool) (s : string) : list string :=
  match s with
  | "" => []
  | String c s' =>
    if after_cr && bool_decide (c = LF) then splitlines_go false s'
    else if is_linebreak c then "" :: splitlines_go (bool_decide (c = CR)) s'
    else match splitlines_go false s' with
         | [] => [String c ""]
         | l :: ls => String c l :: ls
         end
  end.
Definition splitlines : string → list string := splitlines_go false.

Fixpoint lstrip (s : string) : string :=
  match s with
  | "" => ""
  | String c s' => if isspace c then lstrip s' else s
  end.

Fixpoint rstrip (s : string) : string :=
  match s with
  | "" => ""
  | String c s' =>
    match rstrip s' with
    | "" => if isspace c then "" else String c ""
    | r => String c r
    end
  end.

(** [s.strip()] *)
Definition strip (s : string) : string := lstrip (rstrip s).

Definition cons_nonempty (t : string) (ts : list string) : list string :=
  if bool_decide (t = "") then ts else t :: ts.

(** The word starting at the first character (empty when that character is
    white space) and the words after it. *)
Fixpoint split_go (s : string) : string * list string :=
  match s with
  | "" => ("", [])
  | String c s' =>
    let '(t, ts) := split_go s' in
    if isspace c then ("", cons_nonempty t ts) else (String c t, ts)
  end.

(** [s.split()]: the maximal runs of characters that are not white space. *)
Definition split (s : string) : list string :=
  let '(t, ts) := split_go s in cons_nonempty t ts.

(** [s.split(sep)] for a one-character separator. *)
Fixpoint split_on (sep : ascii) (s : string) : list string :=
  match s with
  | "" => [""]
  | String c s' =>
    if bool_decide (c = sep) then "" :: split_on sep s'
    else match split_on sep s' with
         | [] => [String c ""]
         | t :: ts => String c t :: ts
         end
  end.

(** [s.split(sep, 1)]: cut at the first separator only. *)
Fixpoint split_once (sep : ascii) (s : string) : list string :=
  match s with
  | "" => [""]
  | String c s' =>
    if bool_decide (c = sep) then [""; s']
    else match split_once sep s' with
         | [] => [String c ""]
         | t :: ts => String c t :: ts
         end
  end.

(** [s.startswith(p)] *)
Definition startswith (s p : string) : bool := String.prefix p s.

Definition digit_value (c : ascii) : option Z :=
  if is_digit c then Some (Z.of_N (N_of_ascii c) - 48)%Z else None.

Definition quote : ascii := "034"%char.
Definition apostrophe : ascii := "039"%char.
Definition backslash : ascii := "092"%char.
Definition TAB : ascii := "009"%char.

(** One digit of the lower-case hexadecimal notation. *)
Definition hex_digit (n : N) : ascii :=
  if (n <? 10)%N then ascii_of_N (48 + n) else ascii_of_N (87 + n).

(** [str.isprintable] on one character. *)
Definition isprintable (c : ascii) : bool :=
  let n := N_of_ascii c in
  ((32 <=? n) && (n <=? 126) || (161 <=? n) && negb (n =? 173))%N.

(** Some character of [s] is [c]. *)
Fixpoint contains (c : ascii) (s : string) : bool :=
  match s with
  | "" => false
  | String a s' => bool_decide (a = c) || contains c s'
  end.

(** What [repr] writes for one character of a text quoted with [q]. *)
Definition repr_char (q c : ascii) : string :=
  let n := N_of_ascii c in
  if bool_decide (c = q) || bool_decide (c = backslash) then
    String backslash (String c "")
  else if bool_decide (c = TAB) then String backslash "t"
  else if bool_decide (c = LF) then String backslash "n"
  else if bool_decide (c = CR) then String backslash "r"
  else if isprintable c then String c ""
  else
    String backslash
      (String "x" (String (hex_digit (n / 16))
                          (String (hex_digit (n mod 16)) ""))).

Fixpoint repr_chars (q : ascii) (s : string) : string :=
  match s with
  | "" => ""
  | String c s' => repr_char q c +:+ repr_chars q s'
  end.

(** [repr(s)]: between apostrophes, or between quotes when the text has an
    apostrophe and no quote. *)
Definition repr (s : string) : string :=
  let q :=
    if contains apostrophe s && negb (contains quote s) then quote
    else apostrophe in
  String q (repr_chars q s +:+ String q "").

(** The decimal notation of a number. *)
Fixpoint decimal_go (fuel : nat) (n : N) (acc : string) : string :=
  let acc' := String (ascii_of_N (48 + n mod 10)) acc in
  match fuel with
  | 0 => acc'
  | S fuel' =>
    if (n / 10 =? 0)%N then acc' else decimal_go fuel' (n / 10)%N acc'
  end.
Definition decimal (n : N) : string := decimal_go (N.to_nat (N.size n)) n "".

(** White space for [int]: the white space of C, and NEL and NBSP, which
    the conversion of the text to ASCII turns into blanks.  FS, GS, RS and
    US are white space for [str.strip] and not here. *)
Definition int_space (c : ascii) : bool :=
  let n := N_of_ascii c in
  ((9 <=? n) && (n <=? 13) || (n =? 32) || (n =? 133) || (n =? 160))%N.

Fixpoint skip_int_space (s : string) : string :=
  match s with
  | "" => ""
  | String c s' => if int_space c then skip_int_space s' else s
  end.

(** The scan over the digits and underscores at the start of [s]: the value
    and the number of the digits and the text after them, or nothing when
    two underscores follow each other or an underscore comes last. *)
Fixpoint int_scan (s : string) (acc : Z) (digits : N) (prev_underscore : bool)
    : option (Z * N * string) :=
  match s with
  | "" => if prev_underscore then None else Some (acc, digits, "")
  | String c s' =>
    match digit_value c with
    | Some d => int_scan s' (10 * acc + d)%Z (digits + 1)%N false
    | None =>
      if bool_decide (c = "_"%char) then
        if prev_underscore then None else int_scan s' acc digits true
      else if prev_underscore then None else Some (acc, digits, s)
    end
  end.

(** The two errors of [int]; the first shows at most 200 characters of the
    [repr] of the text. *)
Definition int_invalid (s : string) : exn :=
  ValueError ("invalid literal for int() with base 10: "
              +:+ String.substring 0 200 (repr s)).
Definition int_too_long (digits : N) : exn :=
  ValueError ("Exceeds the limit (4300 digits) for integer string "
              +:+ "conversion: value has " +:+ decimal digits
              +:+ " digits; use sys.set_int_max_str_digits() to increase "
              +:+ "the limit").

(** [int(s)] in base 10, as CPython 3.11 converts a text: white space
    around, a sign, and digits with single underscores between them.  More
    than 4300 digits are refused (the default of
    [sys.set_int_max_str_digits]), and this before what follows the digits
    is looked at. *)
Definition py_int (s : string) : result Z :=
  let signed := skip_int_space s in
  let '(negative, body) :=
    match signed with
    | String "-" b => (true, b)
    | String "+" b => (false, b)
    | _ => (false, signed)
    end in
  if startswith body "_" then Raise (int_invalid s)
  else
    match int_scan body 0 0 false with
    | None => Raise (int_invalid s)
    | Some (z, digits, rest) =>
      if (4300 <? digits)%N then Raise (int_too_long digits)
      else if (digits =? 0)%N then Raise (int_invalid s)
      else if bool_decide (skip_int_space rest = "") then
        Ok (if negative then (- z)%Z else z)
      else Raise (int_invalid s)
    end.

(** ** The regular expression of a gate line

    A matcher takes the text still to be matched and a continuation for
    what follows it in the pattern.  It offers the continuation its
    possible matches in the engine's order (longest first for the greedy
    repetitions, left to right for an alternation) and returns the first
    success, which is how the backtracking engine of [re] decides both
    whether a line matches and what its groups capture. *)

Section regex.
Context {R : Type}.

(** One character of the class [p]. *)
Definition re_class (p : ascii → bool) (s : string)
    (k : ascii → string → option R) : option R :=
  match s with
  | String c s' => if p c then k c s' else None
  | "" => None
  end.

(** [[p]*], greedy; the continuation receives the matched text. *)
Fixpoint re_star (p : ascii → bool) (s : string)
    (k : string → string → option R) : option R :=
  match s with
  | String c s' =>
    if p c then
      match re_star p s' (λ m r, k (String c m) r) with
      | Some x => Some x
      | None => k "" s
      end
    else k "" s
  | "" => k "" ""
  end.

(** [[p]+], greedy. *)
Definition re_plus (p : ascii → bool) (s : string)
    (k : string → string → option R) : option R :=
  re_class p s (λ c s', re_star p s' (λ m r, k (String c m) r)).

(** A literal. *)
Fixpoint re_lit (l : string) (s : string) (k : string → option R)
    : option R :=
  match l, s with
  | "", _ => k s
  | String a l', String c s' =>
    if bool_decide (a = c) then re_lit l' s' k else None
  | String _ _, "" => None
  end.

(** An alternation of literals; the continuation receives the one taken. *)
Fixpoint re_alt (ls : list string) (s : string)
    (k : string → string → option R) : option R :=
  match ls with
  | [] => None
  | l :: ls' =>
    match re_lit l s (k l) with
    | Some x => Some x
    | None => re_alt ls' s k
    end
  end.

(** [$]: the end of the text, or the position before a final line feed. *)
Definition re_end (s : string) (k : option R) : option R :=
  if bool_decide (s = "") || bool_decide (s = String LF "") then k
  else None.
End regex.

(** [[A-Za-z_]], [[A-Za-z0-9_]] and [[A-Za-z0-9_,\s]]. *)
Definition ident_start (c : ascii) : bool :=
  is_upper c || is_lower c || bool_decide (c = "_"%char).
Definition ident_char (c : ascii) : bool :=
  is_upper c || is_lower c || is_digit c || bool_decide (c = "_"%char).
Definition args_char (c : ascii) : bool :=
  is_upper c || is_lower c || is_digit c || bool_decide (c = "_"%char)
  || bool_decide (c = ","%char) || isspace c.

(** [gate_re.match(line)] with the groups [out], [type] and [args].  The
    pattern of the source, its tokens set apart by blanks, is
<<
    ^ (?P<out> [A-Za-z_] [A-Za-z0-9_]* ) \s* = \s*
      (?P<type> AND | OR | XOR | NOT ) \s* \( \s*
      (?P<args> [A-Za-z0-9_,\s]+ ) \s* \) \s* $
>> *)
Definition gate_re (line : string) : option (string * string * string) :=
  re_class ident_start line (λ c s1,
  re_star ident_char s1 (λ m s2,
  re_star isspace s2 (λ _ s3,
  re_lit "=" s3 (λ s4,
  re_star isspace s4 (λ _ s5,
  re_alt ["AND"; "OR"; "XOR"; "NOT"] s5 (λ typ s6,
  re_star isspace s6 (λ _ s7,
  re_lit "(" s7 (λ s8,
  re_star isspace s8 (λ _ s9,
  re_plus args_char s9 (λ args s10,
  re_star isspace s10 (λ _ s11,
  re_lit ")" s11 (λ s12,
  re_star isspace s12 (λ _ s13,
  re_end s13 (Some (String c m, typ, args))))))))))))))).

(** ** Section 1 of the source: the parser *)

Record gate : Type := Gate {
  gate_name : string;
  gate_type : string;
  gate_inputs : list string
}.

(** A stimulus event: the time and one value per primary input. *)
Definition stimulus : Type := Z * list string.

(** The tuple returned by [parse_netlist]: inputs, outputs, gates, stimuli. *)
Definition netlist : Type :=
  list string * list string * list gate * list stimulus.

(** [expect(prefix, idx)].  The cursor [idx] of the source is represented
    by the lines from [idx] on. *)
Definition expect (prefix : string) (rest : list string)
    : result (list string) :=
  match rest with
  | ln :: _ =>
    if startswith ln prefix then Ok rest
    else Raise (ValueError ("Expected '" +:+ prefix +:+ "' section"))
  | [] => Raise (ValueError ("Expected '" +:+ prefix +:+ "' section"))
  end.

(** [lines[i].split(":", 1)[1].strip().split()] *)
Definition names_after_colon (rest : list string) : result (list string) :=
  ln ← index rest 0;
  field ← index (split_once ":" ln) 1;
  Ok (split (strip field)).

(** The body of the [while] loop over the GATES section; [rest] is
    [lines[i:]].  Returns the gates and the lines left. *)
Fixpoint parse_gates (rest : list string) (defined : gset string)
    (gates : list gate) : result (list gate * list string) :=
  match rest with
  | [] => Ok (gates, [])
  | ln :: rest' =>
    if startswith ln "STIMULUS:" then Ok (gates, rest)
    else
      match gate_re ln with
      | None => Raise (ValueError ("Invalid gate line: '" +:+ ln +:+ "'"))
      | Some (out, typ, args_text) =>
        let args := strip <$> split_on "," args_text in
        if bool_decide (typ = "NOT") && negb (length args =? 1) then
          Raise (TypeError ("Gate " +:+ out +:+ " of type NOT must have 1 input"))
        else if bool_decide (typ ∈ ["AND"; "OR"; "XOR"])
                && negb (length args =? 2) then
          Raise (TypeError
            ("Gate " +:+ out +:+ " of type " +:+ typ +:+ " must have 2 inputs"))
        else if bool_decide (out ∈ defined) then
          Raise (ValueError ("Gate " +:+ out +:+ " defined more than once"))
        else
          parse_gates rest' ({[out]} ∪ defined) (gates ++ [Gate out typ args])
      end
  end.

(** The body of the [while] loop over the STIMULUS section. *)
Fixpoint parse_stimuli (rest : list string) (inputs : list string)
    (last_time : Z) (stimuli : list stimulus) : result (list stimulus) :=
  match rest with
  | [] => Ok stimuli
  | ln :: rest' =>
    let parts := split ln in
    if negb (length parts =? length inputs + 1) then
      Raise (ValueError ("Invalid stimulus line: " +:+ ln))
    else
      p0 ← index parts 0;
      t ← py_int p0;
      if (t <=? last_time)%Z then
        Raise (ValueError "Stimulus times must be strictly increasing")
      else
        let vals := drop 1 parts in
        if existsb (λ v, negb (bool_decide (v ∈ ["0"; "1"]))) vals then
          Raise (ValueError ("Stimulus values must be 0 or 1: " +:+ ln))
        else parse_stimuli rest' inputs t (stimuli ++ [(t, vals)])
  end.

(** The lines the parser works on: stripped, without the empty ones and the
    comments. *)
Definition clean_lines (text : string) : list string :=
  filter (λ ln, ln ≠ "" ∧ startswith ln "#" = false)
         (strip <$> splitlines text).

(** The sections INPUTS, OUTPUTS and GATES, up to and including the header
    of the STIMULUS section; returns what they declare and the lines of the
    STIMULUS section. *)
Definition parse_sections (lines : list string)
    : result (list string * list string * list gate * list string) :=
  r ← expect "INPUTS:" lines;
  inputs ← names_after_colon r;
  if bool_decide (inputs = []) then
    Raise (ValueError "INPUTS section cannot be empty")
  else
  r ← expect "OUTPUTS:" (drop 1 r);
  outputs ← names_after_colon r;
  if bool_decide (outputs = []) then
    Raise (ValueError "OUTPUTS section cannot be empty")
  else
  r ← expect "GATES:" (drop 1 r);
  '(gates, r) ← parse_gates (drop 1 r) (list_to_set inputs) [];
  if bool_decide (gates = []) then
    Raise (ValueError "GATES section cannot be empty")
  else
  r ← expect "STIMULUS:" r;
  Ok (inputs, outputs, gates, drop 1 r).

Definition parse_netlist (text : string) : result netlist :=
  '(inputs, outputs, gates, r) ← parse_sections (clean_lines text);
  stimuli ← parse_stimuli r inputs (-1) [];
  Ok (inputs, outputs, gates, stimuli).

(** ** Section 2 of the source: the dependency resolver *)

(** [d[k] = v] on a dict kept in insertion order: a key already present
    keeps its place. *)
Fixpoint dict_set {V} (k : string) (v : V) (d : list (string * V))
    : list (string * V) :=
  match d with
  | [] => [(k, v)]
  | (k', v') :: d' =>
    if bool_decide (k' = k) then (k, v) :: d' else (k', v') :: dict_set k v d'
  end.

(** [ready.pop()]: the last element and the list without it. *)
Fixpoint pop {A} (l : list A) : option (list A * A) :=
  match l with
  | [] => None
  | x :: l' =>
    match pop l' with
    | None => Some ([], x)
    | Some (r, y) => Some (x :: r, y)
    end
  end.

(** The [for h in deps] loop run after [node] was emitted: [node] is
    removed from every dependency set that has it, and a gate whose set
    becomes empty is appended to [ready]. *)
Fixpoint release (node : string) (deps : list (string * gset string))
    (ready : list string) : list (string * gset string) * list string :=
  match deps with
  | [] => ([], ready)
  | (h, s) :: deps' =>
    if bool_decide (node ∈ s) then
      let s' := s ∖ {[node]} in
      let ready' := if bool_decide (s' = ∅) then ready ++ [h] else ready in
      let '(d, r) := release node deps' ready' in ((h, s') :: d, r)
    else
      let '(d, r) := release node deps' ready in ((h, s) :: d, r)
  end.

(** The [while ready] loop.  Every pass pops one gate and shrinks the
    dependency sets by at least as much as it adds to [ready], so the
    number of passes is bounded by the fuel [topo_sort] gives. *)
Fixpoint topo_loop (fuel : nat) (type_lookup : gmap string string)
    (deps : list (string * gset string)) (ready : list string)
    (order : list (string * string)) : result (list (string * string)) :=
  match pop ready with
  | None => Ok order
  | Some (ready', node) =>
    match fuel with
    | O => OutOfFuel
    | S fuel' =>
      typ ← getitem type_lookup node;
      let '(deps', ready'') := release node deps ready' in
      topo_loop fuel' type_lookup deps' ready'' (order ++ [(node, typ)])
    end
  end.

(** [{g["name"]: val(g) for g in gates}], added to the dict [d]. *)
Definition build {V} (val : gate → V) (d : list (string * V))
    (gates : list gate) : list (string * V) :=
  foldl (λ d g, dict_set (gate_name g) (val g) d) d gates.

(** The dependency sets as first built, and once restricted to gate names. *)
Definition initial_deps (gates : list gate) : list (string * gset string) :=
  build (λ g, list_to_set (gate_inputs g)) [] gates.

Definition gate_deps (gates : list gate) : list (string * gset string) :=
  let gate_names : gset string := list_to_set (gate_name <$> gates) in
  prod_map id (filter (λ d, d ∈ gate_names)) <$> initial_deps gates.

Definition deps_size (deps : list (string * gset string)) : nat :=
  sum_list (size ∘ snd <$> deps).

(** [{g["name"]: g["type"] for g in gates}], used for lookup only. *)
Definition type_lookup (gates : list gate) : gmap string string :=
  foldl (λ m g, <[gate_name g := gate_type g]> m) ∅ gates.

Definition topo_sort (gates : list gate) (inputs : list string)
    : result (list (string * string)) :=
  let deps := gate_deps gates in
  let type_lookup := type_lookup gates in
  let ready := (filter (λ gs, gs.2 = ∅) deps).*1 in
  order ← topo_loop (length ready + 2 * deps_size deps) type_lookup deps ready [];
  if negb (length order =? length gates) then
    Raise (ValueError "Cyclic or unresolved gate dependencies detected")
  else Ok order.

(** ** Section 4 of the source: the simulation *)

(** [next(g for g in gates if g["name"] == gname)] *)
Definition find_gate (gates : list gate) (gname : string) : result gate :=
  match list_find (λ g, gate_name g = gname) gates with
  | Some (_, g) => Ok g
  | None => Raise StopIteration
  end.

(** One pass of the loop over [order]. *)
Definition eval_step (gates : list gate) (signals : gmap string string)
    (entry : string * string) : result (gmap string string) :=
  let '(gname, gtype) := entry in
  g ← find_gate gates gname;
  arg_vals ← map_result (getitem signals) (gate_inputs g);
  v ← eval_gate gtype arg_vals;
  Ok (<[gname := v]> signals).

(** [waves[name] += signals[name]] *)
Definition record (signals : gmap string string)
    (waves : gmap string string) (name : string)
    : result (gmap string string) :=
  w ← getitem waves name;
  v ← getitem signals name;
  Ok (<[name := w +:+ v]> waves).

(** The first step of [simulate_event]: the primary inputs are bound. *)
Definition bind_inputs (signals : gmap string string)
    (inputs values : list string) : gmap string string :=
  foldl (λ sg nv, <[nv.1 := nv.2]> sg) signals (zip inputs values).

(** The body of the loop over the stimulus events; the state is the pair of
    [signals] and [waves], both of which live across the events. *)
Definition simulate_event (inputs outputs : list string) (gates : list gate)
    (order : list (string * string))
    (st : gmap string string * gmap string string) (ev : stimulus)
    : result (gmap string string * gmap string string) :=
  let '(signals, waves) := st in
  let '(t, values) := ev in
  let signals := bind_inputs signals inputs values in
  signals ← for_each (eval_step gates) order signals;
  waves ← for_each (record signals) inputs waves;
  waves ← for_each (record signals) outputs waves;
  Ok (signals, waves).

(** The initial value of [waves] in [simulate]. *)
Definition empty_waves (names : list string) : gmap string string :=
  foldl (λ w s, <[s := ""]> w) ∅ names.

(** [simulate] from the line after the call of [topo_sort] on. *)
Definition simulate_with (order : list (string * string)) (nl : netlist)
    : result (gmap string string) :=
  let '(inputs, outputs, gates, stimuli) := nl in
  let waves := empty_waves (inputs ++ outputs) in
  st ← for_each (simulate_event inputs outputs gates order) stimuli (∅, waves);
  Ok st.2.

Definition simulate (nl : netlist) : result (gmap string string) :=
  let '(inputs, outputs, gates, stimuli) := nl in
  order ← topo_sort gates inputs;
  simulate_with order nl.

(** [main] without the file system: parse, then simulate. *)
Definition run (text : string) : result (gmap string string) :=
  parsed ← parse_netlist text;
  simulate parsed.

(** ** Documents of the examples *)

(** The lines of a document, each ended by a line feed. *)
Definition unlines (ls : list string) : string :=
  foldr (λ l acc, l +:+ String LF acc) "" ls.

Definition and_document : string :=
  unlines ["INPUTS: A B"; "OUTPUTS: C"; "GATES:"; "C = AND(A, B)";
           "STIMULUS:"; "0 0 0"; "1 1 0"; "2 1 1"].

(** An output that is declared nowhere. *)
Definition undefined_output_document : string :=
  unlines ["INPUTS: A"; "OUTPUTS: Y Q"; "GATES:"; "Y = NOT(A)";
           "STIMULUS:"; "5 1"].

(** A gate argument that is declared nowhere, with one event and with none. *)
Definition undefined_argument_document : string :=
  unlines ["INPUTS: A"; "OUTPUTS: C"; "GATES:"; "C = AND(A, X)";
           "STIMULUS:"; "0 1"].
Definition undefined_argument_idle_document : string :=
  unlines ["INPUTS: A"; "OUTPUTS: C"; "GATES:"; "C = AND(A, X)";
           "STIMULUS:"].

(** A primary input that is also listed as an output. *)
Definition repeated_name_document : string :=
  unlines ["INPUTS: A"; "OUTPUTS: A Y"; "GATES:"; "Y = NOT(A)";
           "STIMULUS:"; "0 1"].

(** A gate argument that starts with a digit, and a first event at a
    negative time. *)
Definition digit_argument_document : string :=
  unlines ["INPUTS: A B"; "OUTPUTS: C"; "GATES:"; "C = AND(1A, B)";
           "STIMULUS:"].
Definition negative_time_document : string :=
  unlines ["INPUTS: A B"; "OUTPUTS: C"; "GATES:"; "C = AND(A, B)";
           "STIMULUS:"; "-1 0 0"; "0 1 1"].

(** ** Vocabulary of the properties *)

(** Every character of [s] is in the class [p]. *)
Fixpoint str_all (p : ascii → bool) (s : string) : bool :=
  match s with
  | "" => true
  | String c s' => p c && str_all p s'
  end.

(** An identifier: letters, digits and underscores, not starting with a
    digit. *)
Definition is_identifier (s : string) : bool :=
  match s with
  | "" => false
  | String c m => ident_start c && str_all ident_char m
  end.

(** The text of a line between its first opening parenthesis and the next
    closing one (or the end of the line). *)
Definition paren_text (ln : string) : option string :=
  rest ← split_once "(" ln !! 1;
  split_once ")" rest !! 0.

(** Gate [h] depends on gate [d]: a gate named [h] has [d] among its
    arguments and [d] is the output name of a gate. *)
Definition depends_on (gates : list gate) (h d : string) : Prop :=
  ∃ g, g ∈ gates ∧ gate_name g = h ∧ d ∈ gate_inputs g
       ∧ d ∈ gate_name <$> gates.

(** The gate-to-gate dependency graph has a cycle, or has none. *)
Definition cyclic (gates : list gate) : Prop :=
  ∃ h, tc (depends_on gates) h h.
Definition acyclic (gates : list gate) : Prop :=
  ∀ h, ¬ tc (depends_on gates) h h.

(** The entry of a gate in an evaluation order. *)
Definition entry_of (g : gate) : string * string :=
  (gate_name g, gate_type g).

(** An evaluation order lists every gate once, and every gate after the
    gates it depends on. *)
Definition topological (gates : list gate) (order : list (string * string))
    : Prop :=
  order ≡ₚ entry_of <$> gates ∧
  ∀ i h d, order.*1 !! i = Some h → depends_on gates h d →
    ∃ j, j < i ∧ order.*1 !! j = Some d.

(** A gate has one of the four kinds, with the arity of its kind. *)
Definition well_formed_gate (g : gate) : Prop :=
  (gate_type g = "NOT" ∧ length (gate_inputs g) = 1)
  ∨ (gate_type g ∈ ["AND"; "OR"; "XOR"] ∧ length (gate_inputs g) = 2).

(** The gates are declared once each, are well formed, and take as
    arguments only primary inputs and gate outputs. *)
Record gates_ok (inputs : list string) (gates : list gate) : Prop := {
  gates_distinct : NoDup (gate_name <$> gates);
  gates_kinds : Forall well_formed_gate gates;
  gates_args : ∀ g a, g ∈ gates → a ∈ gate_inputs g →
    a ∈ inputs ∨ a ∈ gate_name <$> gates
}.

(** Every event has one value per primary input. *)
Definition stimuli_ok (inputs : list string) (stimuli : list stimulus) : Prop :=
  Forall (λ ev : stimulus, length ev.2 = length inputs) stimuli.

(** In [signals] the gate [g] has the value its evaluation gives on the
    values of its arguments. *)
Definition gate_holds (signals : gmap string string) (g : gate) : Prop :=
  ∃ vals v,
    map_result (getitem signals) (gate_inputs g) = Ok vals
    ∧ eval_gate (gate_type g) vals = Ok v
    ∧ signals !! gate_name g = Some v.

(** [signals] is what evaluating the entries [done] turns [start] into:
    the other names are untouched and the gates of [done] hold. *)
Definition solved (gates : list gate) (start : gmap string string)
    (done : list (string * string)) (signals : gmap string string) : Prop :=
  (∀ x, x ∉ done.*1 → signals !! x = start !! x)
  ∧ (∀ g, g ∈ gates → gate_name g ∈ done.*1 → gate_holds signals g).

(** The number of times [x] is listed in [names]. *)
Definition occurrences (x : string) (names : list string) : nat :=
  length (filter (λ y, y = x) names).

(** A signal value is the text of a bit. *)
Definition is_bit (v : string) : Prop := v = "0" ∨ v = "1".

(** Every value of every event is the text of a bit. *)
Definition stimuli_binary (stimuli : list stimulus) : Prop :=
  Forall (λ ev : stimulus, Forall is_bit ev.2) stimuli.

(** Every output names a primary input or a gate. *)
Definition outputs_ok (inputs outputs : list string) (gates : list gate)
    : Prop :=
  ∀ o, o ∈ outputs → o ∈ inputs ∨ o ∈ gate_name <$> gates.

(** The length of the trace of [x] in [waves], when it has one. *)
Definition trace_length (waves : gmap string string) (x : string)
    : option nat :=
  String.length <$> waves !! x.

(** The gates that [release] makes ready. *)
Definition released (node : string) (deps : list (string * gset string))
    : list string :=
  (filter (λ hs, node ∈ hs.2 ∧ hs.2 ∖ {[node]} = ∅) deps).*1.


(** What holds whenever the condition of the [while] loop is tested, for
    the dependency sets [D] the loop started from. *)
Record loop_inv (D : list (string * gset string))
    (type_lookup : gmap string string)
    (deps : list (string * gset string)) (ready : list string)
    (order : list (string * string)) : Prop := {
  inv_deps : deps = prod_map id (λ s, s ∖ list_to_set order.*1) <$> D;
  inv_nodup : NoDup (order.*1 ++ ready);
  inv_keys : ∀ h, h ∈ order.*1 ++ ready → h ∈ D.*1;
  inv_empty : ∀ h s, (h, s) ∈ deps → s = ∅ ↔ h ∈ order.*1 ++ ready;
  inv_sorted : ∀ i h s0 d,
    order.*1 !! i = Some h → (h, s0) ∈ D → d ∈ s0 → d ∈ take i order.*1;
  inv_types : ∀ h t, (h, t) ∈ order → type_lookup !! h = Some t
}.


(** ** Section 5 of the source: the WaveDrom document *)

(** The escape of [json] for a character without a short form: a
    backslash, [u] and four hexadecimal digits. *)
Definition unicode_escape (c : ascii) : string :=
  let n := N_of_ascii c in
  String backslash
    ("u00" +:+ String (hex_digit (n / 16)) (String (hex_digit (n mod 16)) "")).

(** What the encoder of [json.dumps] writes for one character of a string:
    the backslash and the quote are escaped, so are the characters outside
    the range from the space to the tilde, with short forms for backspace,
    tab, line feed, form feed and carriage return. *)
Definition json_escape (c : ascii) : string :=
  let n := N_of_ascii c in
  if bool_decide (c = backslash) then String backslash (String backslash "")
  else if bool_decide (c = quote) then String backslash (String quote "")
  else if (n =? 8)%N then String backslash "b"
  else if (n =? 12)%N then String backslash "f"
  else if (n =? 10)%N then String backslash "n"
  else if (n =? 13)%N then String backslash "r"
  else if (n =? 9)%N then String backslash "t"
  else if ((32 <=? n) && (n <=? 126))%N then String c ""
  else unicode_escape c.

Fixpoint json_escape_all (s : string) : string :=
  match s with
  | "" => ""
  | String c s' => json_escape c +:+ json_escape_all s'
  end.

(** A string as [json.dumps] writes it. *)
Definition json_string (s : string) : string :=
  String quote (json_escape_all s +:+ String quote "").

(** [sep.join(items)] *)
Fixpoint join (sep : string) (items : list string) : string :=
  match items with
  | [] => ""
  | [x] => x
  | x :: items' => x +:+ sep +:+ join sep items'
  end.

Definition newline : string := String LF "".

(** One element of [signal_list], a dict with the keys [name] and [wave],
    as [json.dumps] with [indent=2] writes it at the third level. *)
Definition json_entry (e : string * string) : string :=
  "{" +:+ newline
  +:+ "      " +:+ json_string "name" +:+ ": " +:+ json_string e.1 +:+ ","
  +:+ newline
  +:+ "      " +:+ json_string "wave" +:+ ": " +:+ json_string e.2
  +:+ newline +:+ "    }".

(** [json.dumps({"signal": signal_list}, indent=2)] *)
Definition json_document (signal_list : list (string * string)) : string :=
  let items :=
    match signal_list with
    | [] => "[]"
    | _ => "[" +:+ newline +:+ "    "
           +:+ join ("," +:+ newline +:+ "    ") (json_entry <$> signal_list)
           +:+ newline +:+ "  ]"
    end in
  "{" +:+ newline +:+ "  " +:+ json_string "signal" +:+ ": " +:+ items
  +:+ newline +:+ "}".

(** The loop of [to_wavedrom_json]: one entry per input and output. *)
Definition signal_list (inputs outputs : list string)
    (waves : gmap string string) : result (list (string * string)) :=
  map_result (λ name, w ← getitem waves name; Ok (name, w))
             (inputs ++ outputs).

Definition to_wavedrom_json (inputs outputs : list string)
    (waves : gmap string string) : result string :=
  entries ← signal_list inputs outputs waves;
  Ok (json_document entries).

(** The text that [main] writes to the output file for the text it read
    from the input file. *)
Definition main_document (text : string) : result string :=
  parsed ← parse_netlist text;
  waves ← simulate parsed;
  js ← to_wavedrom_json parsed.1.1.1 parsed.1.1.2 waves;
  Ok (js +:+ newline).

(** A line feed or a printable ASCII character. *)
Definition json_safe (c : ascii) : bool :=
  let n := N_of_ascii c in ((n =? 10) || (32 <=? n) && (n <=? 126))%N.

(** The text that one pass of a recording loop over [names] appends to the
    trace of [x]: the value of [x] once per listing. *)
Fixpoint recorded (signals : gmap string string) (names : list string)
    (x : string) : string :=
  match names with
  | [] => ""
  | a :: names' =>
    (if bool_decide (a = x) then default "" (signals !! a) else "")
    +:+ recorded signals names' x
  end.

(** The signals of one event simulated on its own, with no signal left
    from an earlier event. *)
Definition settle (inputs : list string) (gates : list gate)
    (order : list (string * string)) (values : list string)
    : result (gmap string string) :=
  for_each (eval_step gates) order (bind_inputs ∅ inputs values).

(** What such an event on its own adds to the trace of [x]. *)
Definition event_text (inputs outputs : list string) (gates : list gate)
    (order : list (string * string)) (x : string) (ev : stimulus) : string :=
  match settle inputs gates order ev.2 with
  | Ok signals => recorded signals (inputs ++ outputs) x
  | _ => ""
  end.

(** The concatenation of a list of texts. *)
Definition concat_text (texts : list string) : string :=
  foldr String.append "" texts.

(** The times [ts] increase strictly, starting above [lo]. *)
Fixpoint increasing_from (lo : Z) (ts : list Z) : Prop :=
  match ts with
  | [] => True
  | t :: ts' => (lo < t)%Z ∧ increasing_from t ts'
  end.

(** The event that a line of the STIMULUS section stands for. *)
Definition line_event (ln : string) (ev : stimulus) : Prop :=
  ∃ tok, split ln = tok :: ev.2 ∧ py_int tok = Ok ev.1.

(** No character of the line is a line boundary. *)
Definition one_line (ln : string) : Prop :=
  str_all (λ c, negb (is_linebreak c)) ln = true.

(** The line is skipped by the parser: blank, or a comment. *)
Definition skipped (ln : string) : Prop :=
  strip ln = "" ∨ startswith (strip ln) "#" = true.

(** A gate written as a line in the format that the head of the source
    gives: the name, an equals sign, the kind and the arguments in
    parentheses, separated by a comma and a blank. *)
Definition render_gate (g : gate) : string :=
  gate_name g +:+ " = " +:+ gate_type g +:+ "("
  +:+ join ", " (gate_inputs g) +:+ ")".

(** A character of an argument token: the class of the argument text
    without the comma. *)
Definition token_char (c : ascii) : bool :=
  is_upper c || is_lower c || is_digit c || bool_decide (c = "_"%char)
  || isspace c.

(** A gate line with the tokens [toks] between the commas. *)
Definition gate_line (name typ : string) (toks : list string) : string :=
  name +:+ " = " +:+ typ +:+ "(" +:+ join "," toks +:+ ")".
(** * Properties *)

(** ** The result monad *)

Lemma bind_Ok {A B} (r : result A) (k : A → result B) (b : B) :
  r ≫= k = Ok b ↔ ∃ a, r = Ok a ∧ k a = Ok b.
Proof.
  destruct r; simpl; split; intros H;
    try destruct H as (? & ? & ?); simplify_eq; eauto.
Qed.

(** ** The gate evaluator *)

(** C1. On boolean inputs given in declared order the evaluator returns the
    truth-table value: NOT(a) is the negation of a, AND(a,b) the
    conjunction, OR(a,b) the disjunction and XOR(a,b) holds exactly when a
    and b differ. *)
Theorem eval_gate_truth_table (a b : bool) :
  eval_gate "NOT" [bit a] = Ok (bit (negb a)) ∧
  eval_gate "AND" [bit a; bit b] = Ok (bit (a && b)) ∧
  eval_gate "OR" [bit a; bit b] = Ok (bit (a || b)) ∧
  eval_gate "XOR" [bit a; bit b] = Ok (bit (xorb a b)) ∧
  (xorb a b = true ↔ a ≠ b).
Proof.
  destruct a, b; repeat split; try reflexivity; try discriminate;
    intros; congruence.
Qed.

(** ** The dependency resolver *)

Lemma pop_None {A} (l : list A) : pop l = None ↔ l = [].
Proof.
  destruct l as [|x l]; simpl; [done|].
  destruct (pop l) as [[r y]|]; naive_solver.
Qed.

Lemma pop_snoc {A} (r : list A) (x : A) : pop (r ++ [x]) = Some (r, x).
Proof. induction r as [|y r IH]; simpl; [done|]. by rewrite IH. Qed.

Lemma pop_Some {A} (l r : list A) (x : A) :
  pop l = Some (r, x) ↔ l = r ++ [x].
Proof.
  split; [|intros ->; apply pop_snoc].
  destruct l as [|y l] using rev_ind; [done|].
  rewrite pop_snoc. by intros [= -> ->].
Qed.

Lemma release_deps node deps ready :
  (release node deps ready).1 = prod_map id (λ s, s ∖ {[node]}) <$> deps.
Proof.
  revert ready. induction deps as [|[h s] deps IH]; intros ready; simpl; [done|].
  case_bool_decide as Hn.
  - specialize (IH (if bool_decide (s ∖ {[node]} = ∅) then ready ++ [h] else ready)).
    destruct (release node deps _) as [d r]. simpl in *. by rewrite IH.
  - specialize (IH ready). destruct (release node deps ready) as [d r].
    simpl in *. rewrite IH. f_equal. unfold prod_map; simpl. f_equal.
    apply leibniz_equiv. set_solver.
Qed.

Lemma release_ready node deps ready :
  (release node deps ready).2 = ready ++ released node deps.
Proof.
  revert ready. unfold released.
  induction deps as [|[h s] deps IH]; intros ready; simpl.
  - by rewrite app_nil_r.
  - rewrite filter_cons. simpl. case_bool_decide as Hn.
    + specialize (IH (if bool_decide (s ∖ {[node]} = ∅) then ready ++ [h] else ready)).
      destruct (release node deps _) as [d r]. simpl in *. rewrite IH.
      case_bool_decide as He.
      * rewrite decide_True by done. simpl. by rewrite <- app_assoc.
      * rewrite decide_False by naive_solver. done.
    + specialize (IH ready). destruct (release node deps ready) as [d r].
      simpl in *. rewrite IH. rewrite decide_False by naive_solver. done.
Qed.

Lemma deps_size_cons h s deps :
  deps_size ((h, s) :: deps) = size s + deps_size deps.
Proof. done. Qed.

Lemma release_measure node deps ready :
  length (release node deps ready).2 + 2 * deps_size (release node deps ready).1
  ≤ length ready + 2 * deps_size deps.
Proof.
  revert ready.
  induction deps as [|[h s] deps IH]; intros ready; [simpl; lia|].
  cbn [release]. case_bool_decide as Hn.
  - specialize (IH (if bool_decide (s ∖ {[node]} = ∅) then ready ++ [h] else ready)).
    destruct (release node deps _) as [d r]. cbn [fst snd] in *.
    rewrite !deps_size_cons.
    assert (size s = S (size (s ∖ {[node]}))) as Hs.
    { rewrite size_difference by set_solver. rewrite size_singleton.
      assert (size s ≠ 0); [|lia]. intros Hz. apply size_empty_inv in Hz.
      set_solver. }
    assert (length (if bool_decide (s ∖ {[node]} = ∅) then ready ++ [h] else ready)
            ≤ S (length ready)) as Hl.
    { case_bool_decide; rewrite ?length_app; simpl; lia. }
    lia.
  - specialize (IH ready). destruct (release node deps ready) as [d r].
    cbn [fst snd] in *. rewrite !deps_size_cons. lia.
Qed.

Lemma assoc_unique {V} (l : list (string * V)) h (v1 v2 : V) :
  NoDup l.*1 → (h, v1) ∈ l → (h, v2) ∈ l → v1 = v2.
Proof.
  intros Hnd H1 H2.
  apply (elem_of_list_to_map (M := gmap string)) in H1, H2; [|done..].
  congruence.
Qed.

Section resolver_loop.
Variable D : list (string * gset string).
Variable type_lookup : gmap string string.
Hypothesis D_keys : NoDup D.*1.
Hypothesis D_types : ∀ h, h ∈ D.*1 → is_Some (type_lookup !! h).

Lemma loop_inv_keys deps ready order :
  loop_inv D type_lookup deps ready order → deps.*1 = D.*1.
Proof.
  intros [-> _ _ _ _ _]. rewrite <- list_fmap_compose.
  apply list_fmap_ext. by intros ? [??].
Qed.

Lemma loop_inv_init :
  loop_inv D type_lookup D (filter (λ gs, gs.2 = ∅) D).*1 [].
Proof.
  split; simpl.
  - rewrite <- (list_fmap_id D) at 1. apply list_fmap_ext.
    intros _ [h s] _. unfold prod_map; simpl. f_equal.
    apply leibniz_equiv. set_solver.
  - eapply sublist_NoDup; [exact D_keys|].
    apply fmap_sublist, sublist_filter.
  - intros h Hh. apply list_elem_of_fmap in Hh as ([h' s] & -> & Hin).
    apply list_elem_of_filter in Hin as [_ Hin].
    apply list_elem_of_fmap. by exists (h', s).
  - intros h s Hin. split.
    + intros ->. apply list_elem_of_fmap. exists (h, ∅). split; [done|].
      by apply list_elem_of_filter.
    + intros Hh. apply list_elem_of_fmap in Hh as ([h' s'] & Heq & Hin').
      simpl in Heq. subst h'.
      apply list_elem_of_filter in Hin' as [He Hin']. simpl in He. subst s'.
      eapply assoc_unique; eauto.
  - intros i h s0 d Hi. by rewrite lookup_nil in Hi.
  - intros h t Hin. by apply elem_of_nil in Hin.
Qed.

Lemma loop_inv_step deps ready node order t :
  loop_inv D type_lookup deps (ready ++ [node]) order →
  type_lookup !! node = Some t →
  loop_inv D type_lookup (release node deps ready).1 (release node deps ready).2
           (order ++ [(node, t)]).
Proof.
  intros Hinv Ht. pose proof (loop_inv_keys _ _ _ Hinv) as Hkeys.
  destruct Hinv as [Hdeps Hnd Hk Hempty Hsorted Htypes].
  rewrite release_deps, release_ready.
  assert (∀ h, h ∈ released node deps →
            ∃ s, (h, s) ∈ deps ∧ node ∈ s ∧ s ∖ {[node]} = ∅) as Hrel.
  { intros h Hh. apply list_elem_of_fmap in Hh as ([h' s] & -> & Hin).
    apply list_elem_of_filter in Hin as [[??] Hin]. by exists s. }
  assert (NoDup deps.*1) as Hdk by (by rewrite Hkeys).
  split.
  - rewrite Hdeps at 1. rewrite <- list_fmap_compose.
    apply list_fmap_ext. intros _ [h s] _. unfold prod_map; simpl. f_equal.
    rewrite fmap_app, list_to_set_app_L. simpl.
    apply leibniz_equiv. set_solver.
  - rewrite fmap_app. simpl. rewrite <- !app_assoc.
    apply NoDup_app in Hnd as (Hnd1 & Hnd2 & Hnd3).
    apply NoDup_app in Hnd3 as (Hnd3 & Hnd4 & _).
    apply NoDup_app. split_and!; [done| |].
    + intros x Hx Hx'. simpl in Hx'.
      apply elem_of_cons in Hx' as [->|Hx'].
      { apply (Hnd2 node); [done|]. apply elem_of_app. right. by left. }
      apply elem_of_app in Hx' as [Hx'|Hx'].
      { apply (Hnd2 x); [done|]. apply elem_of_app. by left. }
      apply Hrel in Hx' as (s & Hin & Hn & _).
      assert (s = ∅) as ->; [|set_solver].
      apply (Hempty x s Hin). apply elem_of_app. by left.
    + simpl. apply NoDup_cons. split.
      * intros Hx. apply elem_of_app in Hx as [Hx|Hx].
        { apply (Hnd4 node Hx). by left. }
        apply Hrel in Hx as (s & Hin & Hn & _).
        assert (s = ∅) as ->; [|set_solver].
        apply (Hempty node s Hin). rewrite !elem_of_app. right. right. by left.
      * apply NoDup_app. split_and!; [done| |].
        { intros x Hx Hx'. apply Hrel in Hx' as (s & Hin & Hn & _).
          assert (s = ∅) as ->; [|set_solver].
          apply (Hempty x s Hin). rewrite !elem_of_app. right. by left. }
        eapply sublist_NoDup; [exact Hdk|].
        apply fmap_sublist, sublist_filter.
  - intros h Hh. rewrite fmap_app in Hh. simpl in Hh.
    rewrite !elem_of_app in Hh. destruct Hh as [[Hh|Hh]|[Hh|Hh]].
    + apply Hk. rewrite !elem_of_app. by left.
    + apply Hk. rewrite !elem_of_app. by right; right.
    + apply Hk. rewrite !elem_of_app. by right; left.
    + apply Hrel in Hh as (s & Hin & _). rewrite <- Hkeys.
      apply list_elem_of_fmap. by exists (h, s).
  - intros h s' Hin.
    apply list_elem_of_fmap in Hin as ([h' s] & Heq & Hin).
    unfold prod_map in Heq; simpl in Heq. injection Heq as -> ->.
    rename h' into h. specialize (Hempty h s Hin). rewrite fmap_app. simpl.
    rewrite !elem_of_app in Hempty. rewrite !elem_of_app.
    rewrite list_elem_of_singleton in Hempty.
    rewrite list_elem_of_singleton. split.
    + intros He. destruct (decide (node ∈ s)) as [Hn|Hn].
      * right. right. apply list_elem_of_fmap. exists (h, s). split; [done|].
        by apply list_elem_of_filter.
      * assert (s = ∅) as Hs by (apply leibniz_equiv; set_solver).
        apply Hempty in Hs. tauto.
    + intros [[Hh|Hh]|[Hh|Hh]].
      * rewrite (proj2 Hempty) by tauto. apply leibniz_equiv. set_solver.
      * rewrite (proj2 Hempty) by tauto. apply leibniz_equiv. set_solver.
      * rewrite (proj2 Hempty) by tauto. apply leibniz_equiv. set_solver.
      * apply Hrel in Hh as (s2 & Hin2 & _ & He).
        by rewrite (assoc_unique deps h s s2).
  - intros i h s0 d Hi Hin Hd. rewrite fmap_app in Hi |- *. simpl in *.
    destruct (decide (i < length order.*1)) as [Hlt|Hge].
    + rewrite lookup_app_l in Hi by done.
      rewrite take_app_le by lia. eauto.
    + rewrite lookup_app_r in Hi by lia.
      apply list_lookup_singleton_Some in Hi as [Hi Heq]. subst h.
      assert (i = length order.*1) as -> by lia.
      rewrite take_app_length.
      assert ((node, s0 ∖ list_to_set order.*1) ∈ deps) as Hin'.
      { rewrite Hdeps. apply list_elem_of_fmap. by exists (node, s0). }
      apply Hempty in Hin'. destruct Hin' as [_ Hin'].
      assert (d ∈ (list_to_set order.*1 : gset string)) as Hd'.
      { assert (s0 ∖ list_to_set order.*1 = ∅) as He.
        { apply Hin'. rewrite !elem_of_app. right. right. by left. }
        destruct (decide (d ∈ (list_to_set order.*1 : gset string))); [done|].
        set_solver. }
      by apply elem_of_list_to_set in Hd'.
  - intros h t' Hin. apply elem_of_app in Hin as [Hin|Hin]; [eauto|].
    apply list_elem_of_singleton in Hin. by simplify_eq.
Qed.

Lemma topo_loop_inv fuel deps ready order :
  loop_inv D type_lookup deps ready order →
  length ready + 2 * deps_size deps ≤ fuel →
  ∃ deps' order',
    topo_loop fuel type_lookup deps ready order = Ok order'
    ∧ loop_inv D type_lookup deps' [] order'.
Proof.
  revert deps ready order.
  induction fuel as [|fuel IH]; intros deps ready order Hinv Hfuel.
  - destruct ready as [|x ready]; [|simpl in Hfuel; lia].
    exists deps, order. by destruct Hinv.
  - simpl. destruct (pop ready) as [[ready' node]|] eqn:Hpop.
    + apply pop_Some in Hpop as ->.
      destruct (D_types node) as [t Ht].
      { apply (inv_keys _ _ _ _ _ Hinv). rewrite !elem_of_app. right. right. by left. }
      unfold getitem. rewrite Ht. simpl.
      pose proof (loop_inv_step _ _ _ _ _ Hinv Ht) as Hinv'.
      pose proof (release_measure node deps ready') as Hm.
      destruct (release node deps ready') as [deps' ready''].
      apply IH; [done|]. rewrite length_app in Hfuel. simpl in *. lia.
    + apply pop_None in Hpop as ->. by exists deps, order.
Qed.
End resolver_loop.

(** *** The dictionaries built from the gate list *)

Lemma dict_set_fresh {V} k (v : V) d :
  k ∉ d.*1 → dict_set k v d = d ++ [(k, v)].
Proof.
  induction d as [|[k' v'] d IH]; simpl; [done|]. intros Hk.
  apply not_elem_of_cons in Hk as [Hne Hk].
  rewrite bool_decide_false by done. by rewrite IH.
Qed.

Lemma dict_set_keys {V} k (v : V) d :
  (dict_set k v d).*1 = if bool_decide (k ∈ d.*1) then d.*1 else d.*1 ++ [k].
Proof.
  induction d as [|[k' v'] d IH]; [done|].
  cbn [dict_set]. destruct (decide (k' = k)) as [->|Hne].
  - rewrite bool_decide_true by done. simpl.
    rewrite bool_decide_true; [done|]. apply elem_of_cons. by left.
  - rewrite bool_decide_false by done.
    rewrite !fmap_cons, IH. cbn [fst].
    destruct (decide (k ∈ d.*1)) as [Hin|Hin].
    + rewrite !bool_decide_true; [done|apply elem_of_cons; by right|done].
    + rewrite !bool_decide_false; [done| |done].
      intros [?|?]%elem_of_cons; congruence.
Qed.

Section dict_build.
Context {V : Type} (val : gate → V).

Lemma build_NoDup_keys d gates : NoDup d.*1 → NoDup (build val d gates).*1.
Proof.
  revert d. induction gates as [|g gates IH]; intros d Hd; simpl; [done|].
  apply IH. rewrite dict_set_keys. case_bool_decide; [done|].
  apply NoDup_app. split_and!; [done| |apply NoDup_singleton].
  intros x Hx ->%list_elem_of_singleton. done.
Qed.

Lemma build_keys d gates h :
  h ∈ (build val d gates).*1 ↔ h ∈ d.*1 ∨ h ∈ gate_name <$> gates.
Proof.
  revert d. induction gates as [|g gates IH]; intros d; simpl.
  - rewrite elem_of_nil. tauto.
  - rewrite IH, dict_set_keys, elem_of_cons. case_bool_decide as Hk.
    + split; [tauto|]. intros [?|[->|?]]; tauto.
    + rewrite elem_of_app, list_elem_of_singleton. tauto.
Qed.

Lemma build_length d gates :
  length (build val d gates) ≤ length d + length gates.
Proof.
  revert d. induction gates as [|g gates IH]; intros d; simpl; [lia|].
  etrans; [apply IH|].
  assert (length (dict_set (gate_name g) (val g) d) ≤ S (length d)); [|lia].
  rewrite <- (length_fmap fst), dict_set_keys.
  case_bool_decide; rewrite ?length_app, !length_fmap; simpl; lia.
Qed.

Lemma build_full_length d gates :
  length (build val d gates) = length d + length gates →
  NoDup d.*1 → NoDup (d.*1 ++ (gate_name <$> gates)).
Proof.
  revert d. induction gates as [|g gates IH]; intros d Hlen Hd; simpl in *.
  - by rewrite app_nil_r.
  - pose proof (build_length (dict_set (gate_name g) (val g) d) gates) as Hb.
    fold (build val (dict_set (gate_name g) (val g) d) gates) in Hlen.
    pose proof (dict_set_keys (gate_name g) (val g) d) as Hk.
    pose proof (f_equal length Hk) as Hkl. rewrite length_fmap in Hkl.
    case_bool_decide as Hin.
    + rewrite length_fmap in Hkl. lia.
    + rewrite dict_set_fresh in Hlen, Hb by done.
      specialize (IH (d ++ [(gate_name g, val g)])).
      rewrite fmap_app, <- app_assoc in IH. simpl in IH. apply IH.
      * rewrite length_app, Hlen. simpl. lia.
      * apply NoDup_app. split_and!; [done| |apply NoDup_singleton].
        intros x Hx ->%list_elem_of_singleton. done.
Qed.

Lemma build_NoDup d gates :
  NoDup (d.*1 ++ (gate_name <$> gates)) →
  build val d gates = d ++ ((λ g, (gate_name g, val g)) <$> gates).
Proof.
  revert d. induction gates as [|g gates IH]; intros d Hnd; simpl.
  - by rewrite app_nil_r.
  - apply NoDup_app in Hnd as Hnd'. destruct Hnd' as (Hd & Hdis & Hg).
    rewrite dict_set_fresh by (intros Hin; apply (Hdis _ Hin); left).
    rewrite IH; [by rewrite <- app_assoc|].
    rewrite fmap_app, <- app_assoc. done.
Qed.
End dict_build.

Lemma gate_deps_keys gates : (gate_deps gates).*1 = (initial_deps gates).*1.
Proof.
  unfold gate_deps. rewrite <- list_fmap_compose.
  apply list_fmap_ext. by intros ? [??].
Qed.

Lemma gate_deps_NoDup gates : NoDup (gate_deps gates).*1.
Proof. rewrite gate_deps_keys. apply build_NoDup_keys, NoDup_nil_2. Qed.

Lemma gate_deps_key gates h :
  h ∈ (gate_deps gates).*1 ↔ h ∈ gate_name <$> gates.
Proof.
  rewrite gate_deps_keys. unfold initial_deps. rewrite build_keys.
  simpl. rewrite elem_of_nil. tauto.
Qed.

Lemma gate_deps_length gates : length (gate_deps gates) ≤ length gates.
Proof.
  unfold gate_deps. rewrite length_fmap.
  apply (build_length _ [] gates).
Qed.

Lemma gate_deps_full gates :
  length (gate_deps gates) = length gates → NoDup (gate_name <$> gates).
Proof.
  unfold gate_deps. rewrite length_fmap. intros Hlen.
  apply (build_full_length _ [] gates Hlen), NoDup_nil_2.
Qed.

(** With distinct gate names the dependency sets are, gate by gate, the
    arguments that are gate names. *)
Lemma gate_deps_distinct gates :
  NoDup (gate_name <$> gates) →
  gate_deps gates =
    (λ g, (gate_name g,
           filter (λ d, d ∈ (list_to_set (gate_name <$> gates) : gset string))
                  (list_to_set (gate_inputs g)))) <$> gates.
Proof.
  intros Hnd. unfold gate_deps, initial_deps.
  rewrite (build_NoDup _ [] gates) by done. simpl.
  rewrite <- list_fmap_compose. done.
Qed.

Lemma type_lookup_snoc gates g :
  type_lookup (gates ++ [g]) = <[gate_name g := gate_type g]> (type_lookup gates).
Proof. unfold type_lookup. by rewrite foldl_app. Qed.

Lemma type_lookup_is_Some gates h :
  h ∈ gate_name <$> gates → is_Some (type_lookup gates !! h).
Proof.
  induction gates as [|g gates IH] using rev_ind.
  - intros Hin. by apply elem_of_nil in Hin.
  - rewrite fmap_app, elem_of_app, type_lookup_snoc. simpl.
    rewrite list_elem_of_singleton. intros Hin.
    destruct (decide (gate_name g = h)) as [->|Hne].
    + rewrite lookup_insert_eq. eauto.
    + rewrite lookup_insert_ne by done. apply IH. naive_solver.
Qed.

Lemma type_lookup_distinct gates g :
  NoDup (gate_name <$> gates) → g ∈ gates →
  type_lookup gates !! gate_name g = Some (gate_type g).
Proof.
  induction gates as [|g' gates IH] using rev_ind.
  - intros _ Hin. by apply elem_of_nil in Hin.
  - rewrite fmap_app, type_lookup_snoc. simpl.
    intros (Hnd & Hdis & _)%NoDup_app [Hin| ->%list_elem_of_singleton]%elem_of_app.
    + rewrite lookup_insert_ne; [by apply IH|].
      intros Heq. apply (Hdis (gate_name g)).
      * by apply list_elem_of_fmap_2.
      * rewrite <- Heq. apply list_elem_of_singleton. done.
    + by rewrite lookup_insert_eq.
Qed.

Lemma gate_deps_types gates h :
  h ∈ (gate_deps gates).*1 → is_Some (type_lookup gates !! h).
Proof. intros Hh. by apply type_lookup_is_Some, gate_deps_key. Qed.

(** The loop of [topo_sort] ends, with fuel to spare, in a state that
    satisfies the invariant. *)
Lemma topo_sort_loop gates inputs :
  ∃ deps order,
    loop_inv (gate_deps gates) (type_lookup gates) deps [] order ∧
    topo_sort gates inputs =
      if negb (length order =? length gates)
      then Raise (ValueError "Cyclic or unresolved gate dependencies detected")
      else Ok order.
Proof.
  unfold topo_sort.
  destruct (topo_loop_inv (gate_deps gates) (type_lookup gates)
              (gate_deps_NoDup gates) (gate_deps_types gates)
              (length (filter (λ gs, gs.2 = ∅) (gate_deps gates)).*1
               + 2 * deps_size (gate_deps gates))
              (gate_deps gates) (filter (λ gs, gs.2 = ∅) (gate_deps gates)).*1 [])
    as (deps & order & Hloop & Hinv).
  - apply loop_inv_init; [apply gate_deps_NoDup|apply gate_deps_types].
  - lia.
  - exists deps, order. split; [done|]. by rewrite Hloop.
Qed.

(** *** What the returned order is *)

Lemma depends_on_deps gates h d :
  NoDup (gate_name <$> gates) →
  depends_on gates h d ↔ ∃ s0, (h, s0) ∈ gate_deps gates ∧ d ∈ s0.
Proof.
  intros Hnd. rewrite gate_deps_distinct by done. split.
  - intros (g & Hg & <- & Hd & Hn). eexists. split.
    + apply list_elem_of_fmap. by exists g.
    + apply elem_of_filter. split; by apply elem_of_list_to_set.
  - intros (s0 & (g & [= -> ->] & Hg)%list_elem_of_fmap & Hd).
    apply elem_of_filter in Hd as [Hn Hd].
    apply elem_of_list_to_set in Hn, Hd. by exists g.
Qed.

Lemma topo_sort_sound gates inputs order :
  topo_sort gates inputs = Ok order →
  NoDup (gate_name <$> gates) ∧ topological gates order.
Proof.
  destruct (topo_sort_loop gates inputs) as (deps & order' & Hinv & ->).
  destruct (length order' =? length gates) eqn:Hlen; simpl; [|done].
  intros [= ->]. apply Nat.eqb_eq in Hlen.
  destruct Hinv as [_ Hnd Hk _ Hsorted Htypes].
  rewrite app_nil_r in Hnd. setoid_rewrite app_nil_r in Hk.
  assert (order.*1 ⊆+ (gate_deps gates).*1) as Hsub by by apply NoDup_submseteq.
  pose proof (submseteq_length _ _ Hsub) as Hle.
  pose proof (gate_deps_length gates) as Hle'. rewrite !length_fmap in Hle.
  assert (NoDup (gate_name <$> gates)) as Hnames by (apply gate_deps_full; lia).
  assert (order.*1 ≡ₚ gate_name <$> gates) as Hperm.
  { apply NoDup_Permutation; [done..|]. intros h. split.
    - intros Hh. by apply gate_deps_key, Hk.
    - intros Hh. apply gate_deps_key in Hh.
      rewrite (submseteq_length_Permutation _ _ Hsub); [done|].
      rewrite !length_fmap. lia. }
  split; [done|]. split.
  - apply NoDup_Permutation.
    + by apply (NoDup_fmap_1 fst).
    + apply (NoDup_fmap_1 fst). by rewrite <- list_fmap_compose.
    + intros [h t]. split.
      * intros Hin. pose proof (Htypes h t Hin) as Ht.
        assert (h ∈ gate_name <$> gates) as Hh.
        { rewrite <- Hperm. apply list_elem_of_fmap. by exists (h, t). }
        apply list_elem_of_fmap in Hh as (g & -> & Hg).
        rewrite type_lookup_distinct in Ht by done. injection Ht as <-.
        by apply (list_elem_of_fmap_2 entry_of).
      * intros (g & [= -> ->] & Hg)%list_elem_of_fmap.
        assert (gate_name g ∈ order.*1) as Hh.
        { rewrite Hperm. by apply list_elem_of_fmap_2. }
        apply list_elem_of_fmap in Hh as ([h t] & Heq & Hin). simpl in Heq.
        subst h. pose proof (Htypes _ _ Hin) as Ht.
        rewrite type_lookup_distinct in Ht by done. by injection Ht as <-.
  - intros i h d Hi (s0 & Hin & Hd)%depends_on_deps; [|done].
    specialize (Hsorted i h s0 d Hi Hin Hd).
    apply elem_of_take in Hsorted as (j & Hj & Hlt). eauto.
Qed.

(** A gate list that has an evaluation order has no dependency cycle. *)
Lemma topological_acyclic gates order :
  NoDup (gate_name <$> gates) → topological gates order → acyclic gates.
Proof.
  intros Hnames [Hperm Hsorted] h Hcyc.
  assert (order.*1 ≡ₚ gate_name <$> gates) as Hp.
  { rewrite Hperm, <- list_fmap_compose. done. }
  assert (∀ a b, tc (depends_on gates) a b →
            ∀ i, order.*1 !! i = Some a → ∃ j, j < i ∧ order.*1 !! j = Some b)
    as Hdown.
  { induction 1 as [a b Hab|a b c Hab _ IH]; intros i Hi; [eauto|].
    destruct (Hsorted i a b Hi Hab) as (j & Hlt & Hj).
    destruct (IH j Hj) as (k & Hlt' & Hk). exists k. split; [lia|done]. }
  assert (h ∈ order.*1) as Hin.
  { rewrite Hp. apply tc_once_l in Hcyc as (? & (g & Hg & <- & _) & _) ||
      (inversion Hcyc as [?? (g & Hg & <- & _)|?? ? (g & Hg & <- & _)]; subst);
      by apply list_elem_of_fmap_2. }
  apply list_elem_of_lookup in Hin as [i Hi].
  destruct (Hdown h h Hcyc i Hi) as (j & Hlt & Hj).
  assert (NoDup order.*1) as Hnd by by rewrite Hp.
  pose proof (NoDup_lookup _ _ _ _ Hnd Hi Hj). lia.
Qed.

(** In a finite nonempty set of nodes that all have a successor in the set
    some node reaches itself. *)
Lemma no_sink_cycle {A} `{EqDecision A} (T : relation A) `{!Transitive T}
    (nodes : list A) :
  nodes ≠ [] →
  (∀ x, x ∈ nodes → ∃ y, y ∈ nodes ∧ T x y) →
  ∃ x, T x x.
Proof.
  induction nodes as [|a nodes IH]; intros Hne Hsucc; [done|].
  destruct (Hsucc a) as (y & Hy & Hay); [by left|].
  apply elem_of_cons in Hy as [->|Hy]; [eauto|].
  apply IH.
  - intros ->. by apply elem_of_nil in Hy.
  - intros x Hx. destruct (Hsucc x) as (z & Hz & Hxz); [by right|].
    apply elem_of_cons in Hz as [->|Hz]; [|eauto].
    exists y. split; [done|]. by etrans.
Qed.

Lemma topo_sort_complete gates inputs :
  NoDup (gate_name <$> gates) → acyclic gates →
  ∃ order, topo_sort gates inputs = Ok order.
Proof.
  intros Hnames Hacyc.
  destruct (topo_sort_loop gates inputs) as (deps & order & Hinv & ->).
  destruct (length order =? length gates) eqn:Hlen; simpl; [eauto|].
  exfalso. apply Nat.eqb_neq in Hlen.
  destruct Hinv as [Hdeps Hnd Hk Hempty _ _].
  rewrite app_nil_r in Hnd. setoid_rewrite app_nil_r in Hk.
  setoid_rewrite app_nil_r in Hempty.
  set (left := filter (λ h, h ∉ order.*1) (gate_name <$> gates)).
  destruct (no_sink_cycle (tc (depends_on gates)) left) as [x Hx].
  - intros Hnil. apply Hlen.
    assert (gate_name <$> gates ⊆+ order.*1) as Hsub.
    { apply NoDup_submseteq; [done|]. intros h Hh.
      destruct (decide (h ∈ order.*1)) as [|Hn]; [done|].
      assert (h ∈ left) as Hl by by apply list_elem_of_filter.
      rewrite Hnil in Hl. by apply elem_of_nil in Hl. }
    assert (order.*1 ⊆+ gate_name <$> gates) as Hsub'.
    { apply NoDup_submseteq; [done|]. intros h Hh. by apply gate_deps_key, Hk. }
    apply submseteq_length in Hsub, Hsub'. rewrite !length_fmap in Hsub, Hsub'.
    lia.
  - intros h [Hh Hg]%list_elem_of_filter.
    apply gate_deps_key in Hg as Hkey.
    apply list_elem_of_fmap in Hkey as ([h' s0] & Heq & Hin). simpl in Heq.
    subst h'.
    assert ((h, s0 ∖ list_to_set order.*1) ∈ deps) as Hin'.
    { rewrite Hdeps. apply list_elem_of_fmap. by exists (h, s0). }
    apply Hempty in Hin'.
    destruct (set_choose_or_empty (s0 ∖ list_to_set order.*1)) as [[d Hd]|He].
    + apply elem_of_difference in Hd as [Hd Hnot].
      rewrite elem_of_list_to_set in Hnot.
      assert (depends_on gates h d) as Hdep.
      { apply depends_on_deps; [done|]. eauto. }
      exists d. split; [|by apply tc_once].
      apply list_elem_of_filter. split; [done|].
      by destruct Hdep as (g & _ & _ & _ & Hdn).
    + apply leibniz_equiv in He. tauto.
  - by apply (Hacyc x).
Qed.

(** A rank that decreases along every dependency rules out cycles. *)
Lemma acyclic_by_rank gates (rank : string → nat) :
  (∀ h d, depends_on gates h d → rank d < rank h) → acyclic gates.
Proof.
  intros Hrank h Hcyc.
  assert (∀ a b, tc (depends_on gates) a b → rank b < rank a) as Hdown.
  { induction 1 as [a b Hab|a b c Hab _ IH]; [by apply Hrank|].
    specialize (Hrank a b Hab). lia. }
  specialize (Hdown h h Hcyc). lia.
Qed.

(** C2. For a gate list with distinct gate names whose dependency graph is
    acyclic, [topo_sort] returns an order that contains every gate exactly
    once and in which each gate comes after every gate whose output name is
    among its arguments. *)
Theorem topo_sort_topological (gates : list gate) (inputs : list string) :
  NoDup (gate_name <$> gates) →
  acyclic gates →
  ∃ order,
    topo_sort gates inputs = Ok order
    ∧ order ≡ₚ entry_of <$> gates
    ∧ NoDup order.*1
    ∧ ∀ i h d, order.*1 !! i = Some h → depends_on gates h d →
        ∃ j, j < i ∧ order.*1 !! j = Some d.
Proof.
  intros Hnames Hacyc.
  destruct (topo_sort_complete gates inputs Hnames Hacyc) as [order Hsort].
  exists order. split; [done|].
  destruct (topo_sort_sound _ _ _ Hsort) as [_ [Hperm Hsorted]].
  split_and!; [done| |done].
  rewrite Hperm, <- list_fmap_compose. done.
Qed.

(** The chain [T = AND(A, B)], [Z = NOT(T)], declared consumer first. *)
Lemma chain_acyclic :
  acyclic [Gate "Z" "NOT" ["T"]; Gate "T" "AND" ["A"; "B"]].
Proof.
  apply (acyclic_by_rank _ (λ s, if bool_decide (s = "Z") then 1 else 0)).
  intros h d (g & Hg & <- & Hd & Hn).
  repeat (apply elem_of_cons in Hg as [->|Hg]); [..|by apply elem_of_nil in Hg];
    simpl in *;
    repeat (apply elem_of_cons in Hd as [->|Hd]); try (by apply elem_of_nil in Hd);
    repeat (apply elem_of_cons in Hn as [Hn|Hn]); try (by apply elem_of_nil in Hn);
    try discriminate; vm_compute; lia.
Qed.

Lemma topo_sort_topological_witness :
  let gates := [Gate "Z" "NOT" ["T"]; Gate "T" "AND" ["A"; "B"]] in
  NoDup (gate_name <$> gates) ∧ acyclic gates ∧
  ∃ order,
    topo_sort gates ["A"; "B"] = Ok order
    ∧ order ≡ₚ entry_of <$> gates
    ∧ NoDup order.*1
    ∧ ∀ i h d, order.*1 !! i = Some h → depends_on gates h d →
        ∃ j, j < i ∧ order.*1 !! j = Some d.
Proof.
  assert (NoDup (gate_name <$> [Gate "Z" "NOT" ["T"]; Gate "T" "AND" ["A"; "B"]]))
    as Hnd by compute_done.
  split; [exact Hnd|]. split; [exact chain_acyclic|].
  exact (topo_sort_topological _ ["A"; "B"] Hnd chain_acyclic).
Defined.

(** C4. A gate list whose dependency graph has a cycle is rejected by the
    resolver with its cyclic-dependency error, and [simulate] fails with
    that error before any trace exists. *)
Theorem cyclic_netlist_rejected (inputs outputs : list string)
    (gates : list gate) (stimuli : list stimulus) :
  cyclic gates →
  topo_sort gates inputs =
    Raise (ValueError "Cyclic or unresolved gate dependencies detected")
  ∧ simulate (inputs, outputs, gates, stimuli) =
    Raise (ValueError "Cyclic or unresolved gate dependencies detected").
Proof.
  intros [h Hcyc].
  assert (topo_sort gates inputs =
    Raise (ValueError "Cyclic or unresolved gate dependencies detected")) as Hs.
  { destruct (topo_sort_loop gates inputs) as (deps & order & Hinv & Heq).
    destruct (length order =? length gates) eqn:Hlen; simpl in Heq; [|done].
    destruct (topo_sort_sound _ _ _ Heq) as [Hnames Htopo].
    by destruct (topological_acyclic _ _ Hnames Htopo h). }
  split; [done|]. unfold simulate. by rewrite Hs.
Qed.

Lemma cyclic_netlist_rejected_witness :
  let gates := [Gate "A" "AND" ["B"; "x"]; Gate "B" "AND" ["A"; "y"]] in
  cyclic gates ∧
  topo_sort gates ["x"; "y"] =
    Raise (ValueError "Cyclic or unresolved gate dependencies detected")
  ∧ simulate (["x"; "y"], ["A"], gates, [(0%Z, ["0"; "0"])]) =
    Raise (ValueError "Cyclic or unresolved gate dependencies detected").
Proof.
  assert (cyclic [Gate "A" "AND" ["B"; "x"]; Gate "B" "AND" ["A"; "y"]]) as Hc.
  { exists "A". apply (tc_l _ _ "B"); [|apply tc_once].
    - exists (Gate "A" "AND" ["B"; "x"]). simpl. set_solver.
    - exists (Gate "B" "AND" ["A"; "y"]). simpl. set_solver. }
  split; [exact Hc|].
  exact (cyclic_netlist_rejected ["x"; "y"] ["A"] _ [(0%Z, ["0"; "0"])] Hc).
Defined.

(** ** Scenarios *)

(** C3. Parsing and then simulating the document with inputs A and B,
    output C, the gate C = AND(A, B) and the stimulus lines 0 0 0, 1 1 0
    and 2 1 1 succeeds with exactly the traces A = 011, B = 001, C = 001. *)
Theorem and_scenario :
  parse_netlist and_document =
    Ok (["A"; "B"], ["C"], [Gate "C" "AND" ["A"; "B"]],
        [(0%Z, ["0"; "0"]); (1%Z, ["1"; "0"]); (2%Z, ["1"; "1"])])
  ∧ run and_document =
    Ok (<["A" := "011"]> (<["B" := "001"]> (<["C" := "001"]> ∅))).
Proof. split; vm_compute; reflexivity. Qed.

(** ** The simulation *)

Lemma for_each_app {A S} (body : S → A → result S) xs ys s :
  for_each body (xs ++ ys) s = for_each body xs s ≫= for_each body ys.
Proof.
  revert s. induction xs as [|x xs IH]; intros s; simpl; [done|].
  destruct (body s x); simpl; [apply IH|done..].
Qed.

Lemma map_result_ext {A B} (f f' : A → result B) xs :
  (∀ x, x ∈ xs → f x = f' x) → map_result f xs = map_result f' xs.
Proof.
  induction xs as [|x xs IH]; intros Hext; simpl; [done|].
  rewrite Hext by (by left). rewrite IH; [done|].
  intros y Hy. apply Hext. by right.
Qed.

Lemma map_result_getitem (signals : gmap string string) xs :
  (∀ x, x ∈ xs → is_Some (signals !! x)) →
  ∃ vals, map_result (getitem signals) xs = Ok vals ∧ length vals = length xs.
Proof.
  induction xs as [|x xs IH]; intros Hdef; simpl; [by exists []|].
  destruct (Hdef x) as [v Hv]; [by left|].
  destruct IH as (vals & -> & Hlen); [intros y Hy; apply Hdef; by right|].
  unfold getitem. rewrite Hv. simpl. exists (v :: vals). simpl. by rewrite Hlen.
Qed.

Lemma eval_gate_well_formed g vals :
  well_formed_gate g → length vals = length (gate_inputs g) →
  ∃ v, eval_gate (gate_type g) vals = Ok v ∧ (v = "0" ∨ v = "1").
Proof.
  intros [[Ht Hn]|[Ht Hn]] Hlen; rewrite Hn in Hlen.
  - destruct vals as [|a [|??]]; try discriminate.
    rewrite Ht. unfold eval_gate. simpl.
    destruct (String.eqb a "1"); eauto.
  - destruct vals as [|a [|b [|??]]]; try discriminate.
    repeat (apply elem_of_cons in Ht as [Ht|Ht]);
      [..|by apply elem_of_nil in Ht];
      rewrite Ht; unfold eval_gate; simpl;
      repeat (match goal with |- context [if ?c then _ else _] =>
                destruct c; simpl end); eauto.
Qed.

Lemma find_gate_distinct gates g :
  NoDup (gate_name <$> gates) → g ∈ gates →
  find_gate gates (gate_name g) = Ok g.
Proof.
  intros Hnd Hg. unfold find_gate.
  destruct (list_find _ gates) as [[i g']|] eqn:Hfind.
  - apply list_find_Some in Hfind as (Hi & Hname & _).
    apply list_elem_of_lookup in Hg as [j Hj].
    assert (i = j) as ->; [|congruence].
    eapply NoDup_lookup; [exact Hnd|..]; rewrite list_lookup_fmap.
    + by rewrite Hi.
    + rewrite Hj. simpl. by rewrite Hname.
  - apply list_find_None in Hfind.
    by rewrite Forall_forall in Hfind; destruct (Hfind g Hg).
Qed.

Lemma gate_by_name gates g g' :
  NoDup (gate_name <$> gates) → g ∈ gates → g' ∈ gates →
  gate_name g = gate_name g' → g = g'.
Proof.
  intros Hnd Hg Hg' Heq.
  pose proof (find_gate_distinct gates g Hnd Hg) as H1.
  pose proof (find_gate_distinct gates g' Hnd Hg') as H2.
  rewrite Heq in H1. congruence.
Qed.

Lemma topological_names gates order :
  topological gates order → order.*1 ≡ₚ gate_name <$> gates.
Proof. intros [Hperm _]. rewrite Hperm, <- list_fmap_compose. done. Qed.

Lemma topological_entry gates order h t :
  topological gates order → (h, t) ∈ order →
  ∃ g, g ∈ gates ∧ h = gate_name g ∧ t = gate_type g.
Proof.
  intros [Hperm _] Hin. rewrite Hperm in Hin.
  apply list_elem_of_fmap in Hin as (g & [= -> ->] & Hg). eauto.
Qed.

(** Changing a signal that a gate neither is nor reads keeps the gate. *)
Lemma gate_holds_insert signals g h v :
  gate_name g ≠ h → h ∉ gate_inputs g →
  gate_holds signals g → gate_holds (<[h := v]> signals) g.
Proof.
  intros Hname Hargs (vals & w & Hvals & Hw & Hg). exists vals, w.
  split_and!; [|done|by rewrite lookup_insert_ne].
  rewrite <- Hvals. apply map_result_ext. intros a Ha. unfold getitem.
  rewrite lookup_insert_ne; [done|]. by intros ->.
Qed.

(** Evaluating the rest [suf] of a topological order, from signals in which
    the gates of [pre] hold, succeeds and makes every gate of the order
    hold. *)
Lemma eval_prefix inputs gates start pre suf signals :
  gates_ok inputs gates →
  topological gates (pre ++ suf) →
  (∀ a, a ∈ inputs → is_Some (start !! a)) →
  solved gates start pre signals →
  ∃ signals',
    for_each (eval_step gates) suf signals = Ok signals'
    ∧ solved gates start (pre ++ suf) signals'.
Proof.
  intros [Hnames Hkinds Hargs] Htopo Hstart. revert pre signals Htopo.
  induction suf as [|[h t] suf IH]; intros pre signals Htopo [Hout Hin].
  { exists signals. by rewrite app_nil_r. }
  pose proof (topological_names _ _ Htopo) as Hp.
  assert (NoDup (pre ++ (h, t) :: suf).*1) as Hnd by by rewrite Hp.
  assert ((pre ++ (h, t) :: suf).*1 !! length pre.*1 = Some h) as Hpos.
  { rewrite fmap_app, fmap_cons. by apply list_lookup_middle. }
  assert (∀ x, x ∈ pre.*1 → ∃ j, j < length pre.*1
            ∧ (pre ++ (h, t) :: suf).*1 !! j = Some x) as Hpre.
  { intros x [j Hj]%list_elem_of_lookup. exists j.
    pose proof (lookup_lt_Some _ _ _ Hj). split; [done|].
    rewrite fmap_app. by rewrite lookup_app_l. }
  assert (∀ j, j < length pre.*1 →
            (pre ++ (h, t) :: suf).*1 !! j = Some h → False) as Hfresh.
  { intros j Hlt Hj. pose proof (NoDup_lookup _ _ _ _ Hnd Hj Hpos). lia. }
  assert (∀ x j, j < length pre.*1 →
            (pre ++ (h, t) :: suf).*1 !! j = Some x → x ∈ pre.*1) as Hearly.
  { intros x j Hlt Hj. rewrite fmap_app in Hj.
    rewrite lookup_app_l in Hj by done. by eapply list_elem_of_lookup_2. }
  destruct (topological_entry _ _ h t Htopo) as (g & Hg & -> & ->).
  { apply elem_of_app. right. by left. }
  destruct Htopo as [Hperm Hsorted].
  assert (gate_name g ∉ gate_inputs g) as Hself.
  { intros Ha.
    destruct (Hsorted _ _ (gate_name g) Hpos) as (j & Hlt & Hj); [|eauto].
    exists g. split_and!; [done..|]. by apply list_elem_of_fmap_2. }
  destruct (map_result_getitem signals (gate_inputs g)) as (vals & Hvals & Hlen).
  { intros a Ha. destruct (decide (a ∈ gate_name <$> gates)) as [Hn|Hn].
    - destruct (Hsorted _ _ a Hpos) as (j & Hlt & Hj).
      { by exists g. }
      apply list_elem_of_fmap in Hn as (ga & -> & Hga).
      destruct (Hin ga Hga (Hearly _ _ Hlt Hj)) as (? & w & _ & _ & Hw).
      by exists w.
    - rewrite Hout.
      + destruct (Hargs g a Hg Ha); [by apply Hstart|done].
      + intros (j & Hlt & Hj)%Hpre. apply Hn. rewrite <- Hp.
        by eapply list_elem_of_lookup_2. }
  destruct (eval_gate_well_formed g vals) as (v & Hv & _); [|done|].
  { by eapply Forall_forall in Hkinds. }
  destruct (IH (pre ++ [(gate_name g, gate_type g)])
              (<[gate_name g := v]> signals)) as (signals' & Hrun & Hsolved).
  - rewrite <- app_assoc. by split.
  - split.
    + intros x Hx. rewrite fmap_app in Hx. simpl in Hx.
      apply not_elem_of_app in Hx as [Hx Hne].
      rewrite list_elem_of_singleton in Hne.
      rewrite lookup_insert_ne by done. by apply Hout.
    + intros g' Hg' Hn'. rewrite fmap_app in Hn'. simpl in Hn'.
      apply elem_of_app in Hn' as [Hn'|Hn'%list_elem_of_singleton].
      * destruct (Hpre _ Hn') as (j & Hlt & Hj).
        apply gate_holds_insert; [| |by apply Hin].
        { intros Heq. rewrite Heq in Hj. eauto. }
        intros Ha. destruct (Hsorted j (gate_name g') (gate_name g) Hj)
          as (k & Hlt' & Hk).
        { exists g'. split_and!; [done..|]. by apply list_elem_of_fmap_2. }
        apply (Hfresh k); [lia|done].
      * assert (g' = g) as -> by by eapply gate_by_name.
        exists vals, v. split_and!; [|done|by rewrite lookup_insert_eq].
        rewrite <- Hvals. apply map_result_ext. intros a Ha. unfold getitem.
        rewrite lookup_insert_ne; [done|]. by intros <-.
  - exists signals'. rewrite <- app_assoc in Hsolved. split; [|done].
    simpl. rewrite find_gate_distinct by done. simpl.
    rewrite Hvals. simpl. rewrite Hv. simpl. done.
Qed.

(** The signals that solve the gates are determined by the start. *)
Lemma solved_unique inputs gates start o1 o2 s1 s2 :
  gates_ok inputs gates →
  topological gates o1 → topological gates o2 →
  solved gates start o1 s1 → solved gates start o2 s2 →
  s1 = s2.
Proof.
  intros [Hnames Hkinds Hargs] Ht1 Ht2 [Hout1 Hin1] [Hout2 Hin2].
  pose proof (topological_names _ _ Ht1) as Hp1.
  pose proof (topological_names _ _ Ht2) as Hp2.
  assert (∀ i x, o1.*1 !! i = Some x → s1 !! x = s2 !! x) as Hgates.
  { intros i. induction (lt_wf i) as [i _ IH]. intros x Hi.
    assert (x ∈ gate_name <$> gates) as Hx.
    { rewrite <- Hp1. by eapply list_elem_of_lookup_2. }
    apply list_elem_of_fmap in Hx as (g & -> & Hg).
    destruct (Hin1 g Hg) as (vals1 & v1 & Hvals1 & Hv1 & ->).
    { by eapply list_elem_of_lookup_2. }
    destruct (Hin2 g Hg) as (vals2 & v2 & Hvals2 & Hv2 & ->).
    { rewrite Hp2. by apply list_elem_of_fmap_2. }
    assert (map_result (getitem s1) (gate_inputs g)
            = map_result (getitem s2) (gate_inputs g)) as Heq.
    { apply map_result_ext. intros a Ha. unfold getitem.
      destruct (decide (a ∈ gate_name <$> gates)) as [Hn|Hn].
      - destruct Ht1 as [_ Hsorted].
        destruct (Hsorted i (gate_name g) a Hi) as (j & Hlt & Hj).
        { by exists g. }
        by rewrite (IH j Hlt a Hj).
      - rewrite Hout1, Hout2; [done|by rewrite Hp2|by rewrite Hp1]. }
    congruence. }
  apply map_eq. intros x.
  destruct (decide (x ∈ gate_name <$> gates)) as [Hx|Hx].
  - rewrite <- Hp1 in Hx. apply list_elem_of_lookup in Hx as [i Hi]. eauto.
  - rewrite Hout1, Hout2; [done|by rewrite Hp2|by rewrite Hp1].
Qed.

Lemma eval_order_total inputs gates start order :
  gates_ok inputs gates →
  topological gates order →
  (∀ a, a ∈ inputs → is_Some (start !! a)) →
  ∃ signals,
    for_each (eval_step gates) order start = Ok signals
    ∧ solved gates start order signals.
Proof.
  intros Hok Htopo Hstart.
  apply (eval_prefix inputs gates start [] order start); try done.
  split; [done|]. intros g _ Hg. by apply elem_of_nil in Hg.
Qed.

Lemma bind_inputs_lookup signals inputs values a :
  length values = length inputs → a ∈ inputs →
  ∃ v, v ∈ values ∧ bind_inputs signals inputs values !! a = Some v.
Proof.
  unfold bind_inputs. revert signals values.
  induction inputs as [|x inputs IH] using rev_ind; intros signals values Hlen Ha.
  { by apply elem_of_nil in Ha. }
  destruct values as [|y values _] using rev_ind.
  { rewrite length_app in Hlen. simpl in Hlen. lia. }
  rewrite !length_app in Hlen. simpl in Hlen.
  rewrite zip_with_app by lia. rewrite foldl_app. simpl.
  destruct (decide (x = a)) as [->|Hne].
  - exists y. rewrite lookup_insert_eq. split; [|done].
    apply elem_of_app. right. by left.
  - rewrite lookup_insert_ne by done.
    apply elem_of_app in Ha as [Ha|Ha%list_elem_of_singleton]; [|done].
    destruct (IH signals values) as (v & Hv & Hl); [lia|done|].
    exists v. split; [|done]. apply elem_of_app. by left.
Qed.

Lemma bind_inputs_other signals inputs values x :
  x ∉ inputs → bind_inputs signals inputs values !! x = signals !! x.
Proof.
  unfold bind_inputs. revert signals values.
  induction inputs as [|a inputs IH]; intros signals values Hx; [done|].
  destruct values as [|v values]; [done|]. simpl.
  apply not_elem_of_cons in Hx as [Hne Hx].
  rewrite IH by done. by rewrite lookup_insert_ne.
Qed.

Lemma for_each_cons_raise {A S} (body : S → A → result S) x xs s e :
  body s x = Raise e → for_each body (x :: xs) s = Raise e.
Proof. intros Hx. simpl. by rewrite Hx. Qed.

Lemma for_each_ext {A S} (body1 body2 : S → A → result S) xs s :
  Forall (λ x, ∀ s, body1 s x = body2 s x) xs →
  for_each body1 xs s = for_each body2 xs s.
Proof.
  intros Hext. revert s. induction Hext as [|x xs Hx _ IH]; intros s; [done|].
  simpl. rewrite Hx. destruct (body2 s x); simpl; [apply IH|done..].
Qed.

Lemma simulate_event_order inputs outputs gates o1 o2 st ev :
  gates_ok inputs gates →
  topological gates o1 → topological gates o2 →
  length ev.2 = length inputs →
  simulate_event inputs outputs gates o1 st ev
  = simulate_event inputs outputs gates o2 st ev.
Proof.
  intros Hok Ht1 Ht2 Hlen. destruct st as [signals waves], ev as [t values].
  simpl in *.
  assert (∀ a, a ∈ inputs →
            is_Some (bind_inputs signals inputs values !! a)) as Hbound.
  { intros a Ha.
    destruct (bind_inputs_lookup signals inputs values a) as (v & _ & ->); done. }
  destruct (eval_order_total inputs gates _ o1 Hok Ht1 Hbound) as (s1 & -> & Hs1).
  destruct (eval_order_total inputs gates _ o2 Hok Ht2 Hbound) as (s2 & -> & Hs2).
  by rewrite (solved_unique inputs gates _ o1 o2 s1 s2 Hok Ht1 Ht2 Hs1 Hs2).
Qed.

Lemma simulate_with_order inputs outputs gates stimuli o1 o2 :
  gates_ok inputs gates → stimuli_ok inputs stimuli →
  topological gates o1 → topological gates o2 →
  simulate_with o1 (inputs, outputs, gates, stimuli)
  = simulate_with o2 (inputs, outputs, gates, stimuli).
Proof.
  intros Hok Hstim Ht1 Ht2. unfold simulate_with.
  rewrite (for_each_ext (simulate_event inputs outputs gates o1)
             (simulate_event inputs outputs gates o2)); [done|].
  eapply Forall_impl; [exact Hstim|]. intros ev Hlen st.
  by apply simulate_event_order.
Qed.

(** [simulate] is [simulate_with] at the order of the resolver, which is
    topological whenever some order is. *)
Lemma simulate_unfold inputs outputs gates stimuli order :
  NoDup (gate_name <$> gates) → topological gates order →
  ∃ order',
    topological gates order'
    ∧ topo_sort gates inputs = Ok order'
    ∧ simulate (inputs, outputs, gates, stimuli)
      = simulate_with order' (inputs, outputs, gates, stimuli).
Proof.
  intros Hnames Htopo.
  pose proof (topological_acyclic _ _ Hnames Htopo) as Hacyc.
  destruct (topo_sort_complete gates inputs Hnames Hacyc) as [order' Hsort].
  exists order'. destruct (topo_sort_sound _ _ _ Hsort) as [_ Htopo'].
  split_and!; [done..|]. unfold simulate. by rewrite Hsort.
Qed.

(** C8. For a netlist with well-formed gates and one value per input in
    every event, any two evaluation orders in which each gate follows the
    gates it depends on give the same result of the simulation, trace for
    trace, and it is the result of [simulate] itself. *)
Theorem simulate_order_independent (inputs outputs : list string)
    (gates : list gate) (stimuli : list stimulus)
    (o1 o2 : list (string * string)) :
  gates_ok inputs gates →
  stimuli_ok inputs stimuli →
  topological gates o1 →
  topological gates o2 →
  simulate_with o1 (inputs, outputs, gates, stimuli)
  = simulate_with o2 (inputs, outputs, gates, stimuli)
  ∧ simulate (inputs, outputs, gates, stimuli)
    = simulate_with o1 (inputs, outputs, gates, stimuli).
Proof.
  intros Hok Hstim Ht1 Ht2. split; [by apply simulate_with_order|].
  destruct (simulate_unfold inputs outputs gates stimuli o1)
    as (o & Ht & _ & ->); [by destruct Hok|done|].
  by apply simulate_with_order.
Qed.

(** Membership in an explicit list, case by case. *)
Ltac cases_elem_of H :=
  repeat (apply elem_of_cons in H as [H|H]); [..|by apply elem_of_nil in H].

(** Two independent gates feeding a third. *)
Lemma diamond_gates_ok :
  gates_ok ["A"; "B"]
    [Gate "P" "AND" ["A"; "B"]; Gate "Q" "OR" ["A"; "B"];
     Gate "R" "XOR" ["P"; "Q"]].
Proof.
  split.
  - compute_done.
  - repeat (apply Forall_cons_2; [right; split; [set_solver|done]|]).
    apply Forall_nil_2.
  - intros g a Hg Ha. cases_elem_of Hg; subst g; simpl in Ha;
      cases_elem_of Ha; subst a; simpl; set_solver.
Qed.

Lemma diamond_sorted (order : list (string * string)) :
  order = [("P", "AND"); ("Q", "OR"); ("R", "XOR")]
  ∨ order = [("Q", "OR"); ("P", "AND"); ("R", "XOR")] →
  topological
    [Gate "P" "AND" ["A"; "B"]; Gate "Q" "OR" ["A"; "B"];
     Gate "R" "XOR" ["P"; "Q"]] order.
Proof.
  intros Horder. split.
  - destruct Horder as [-> | ->]; [done|apply perm_swap].
  - intros i h d Hi (g & Hg & <- & Hd & Hn).
    cases_elem_of Hg; subst g; simpl in Hd; cases_elem_of Hd; subst d;
      simpl in Hn; cases_elem_of Hn; try discriminate;
      destruct Horder as [-> | ->];
      destruct i as [|[|[|i]]]; try discriminate;
      first [by exists 0; split; [lia|] | by exists 1; split; [lia|]].
Qed.

Lemma simulate_order_independent_witness :
  let inputs := ["A"; "B"] in
  let gates := [Gate "P" "AND" ["A"; "B"]; Gate "Q" "OR" ["A"; "B"];
                Gate "R" "XOR" ["P"; "Q"]] in
  let stimuli := [(0%Z, ["0"; "1"]); (1%Z, ["1"; "1"])] in
  let o1 := [("P", "AND"); ("Q", "OR"); ("R", "XOR")] in
  let o2 := [("Q", "OR"); ("P", "AND"); ("R", "XOR")] in
  gates_ok inputs gates ∧ stimuli_ok inputs stimuli ∧
  topological gates o1 ∧ topological gates o2 ∧
  simulate_with o1 (inputs, ["R"], gates, stimuli)
  = simulate_with o2 (inputs, ["R"], gates, stimuli)
  ∧ simulate (inputs, ["R"], gates, stimuli)
    = simulate_with o1 (inputs, ["R"], gates, stimuli).
Proof.
  assert (stimuli_ok ["A"; "B"] [(0%Z, ["0"; "1"]); (1%Z, ["1"; "1"])]) as Hs
    by (repeat constructor).
  split_and!; [exact diamond_gates_ok|exact Hs|
               exact (diamond_sorted _ (or_introl eq_refl))|
               exact (diamond_sorted _ (or_intror eq_refl))|..];
    apply (simulate_order_independent ["A"; "B"] ["R"] _ _ _ _
             diamond_gates_ok Hs (diamond_sorted _ (or_introl eq_refl))
             (diamond_sorted _ (or_intror eq_refl))).
Defined.

(** *** Recording the traces *)

Lemma occurrences_cons x a names :
  occurrences x (a :: names)
  = (if bool_decide (a = x) then 1 else 0) + occurrences x names.
Proof.
  unfold occurrences. rewrite filter_cons.
  case_decide; case_bool_decide; done.
Qed.

Lemma occurrences_app x l k :
  occurrences x (l ++ k) = occurrences x l + occurrences x k.
Proof. unfold occurrences. by rewrite filter_app, length_app. Qed.

Lemma occurrences_absent x names : x ∉ names → occurrences x names = 0.
Proof.
  induction names as [|a names IH]; intros Hx; [done|].
  apply not_elem_of_cons in Hx as [Hne Hx].
  rewrite occurrences_cons, bool_decide_false, IH by done. done.
Qed.

Lemma occurrences_NoDup x names :
  NoDup names → x ∈ names → occurrences x names = 1.
Proof.
  induction 1 as [|a names Ha _ IH]; intros Hx.
  { by apply elem_of_nil in Hx. }
  rewrite occurrences_cons. case_bool_decide as Heq.
  - subst a. by rewrite occurrences_absent.
  - apply elem_of_cons in Hx as [->|Hx]; [done|]. by rewrite IH.
Qed.

Lemma string_length_app (u v : string) :
  String.length (u +:+ v) = String.length u + String.length v.
Proof. induction u as [|c u IH]; simpl; [done|]. by rewrite IH. Qed.

Lemma record_ok (signals waves : gmap string string) a u v :
  waves !! a = Some u → signals !! a = Some v →
  record signals waves a = Ok (<[a := u +:+ v]> waves).
Proof. intros Hu Hv. unfold record, getitem. by rewrite Hu, Hv. Qed.

Lemma record_missing (signals waves : gmap string string) a :
  is_Some (waves !! a) → signals !! a = None →
  record signals waves a = Raise (KeyError a).
Proof. intros [u Hu] Hv. unfold record, getitem. by rewrite Hu, Hv. Qed.

(** Recording the names [names] appends to each trace the value of its
    signal once per listing. *)
Lemma record_all (signals waves : gmap string string) names :
  (∀ x, x ∈ names → is_Some (waves !! x)) →
  (∀ x, x ∈ names → is_Some (signals !! x)) →
  ∃ waves',
    for_each (record signals) names waves = Ok waves'
    ∧ ∀ x, trace_length waves' x =
        (λ n, n + occurrences x names
                  * String.length (default "" (signals !! x)))
        <$> trace_length waves x.
Proof.
  revert waves. induction names as [|a names IH]; intros waves Hw Hs.
  { exists waves. split; [done|]. intros x. unfold trace_length.
    destruct (waves !! x); simpl; [|done]. f_equal. unfold occurrences. simpl. lia. }
  destruct (Hw a) as [u Hu]; [by left|].
  destruct (Hs a) as [v Hv]; [by left|].
  destruct (IH (<[a := u +:+ v]> waves)) as (waves' & Hrun & Hlen).
  - intros x Hx. apply lookup_insert_is_Some'. right. apply Hw. by right.
  - intros x Hx. apply Hs. by right.
  - exists waves'. split.
    + simpl. by rewrite (record_ok _ _ _ _ _ Hu Hv).
    + intros x. rewrite Hlen, occurrences_cons. unfold trace_length.
      destruct (decide (a = x)) as [->|Hne].
      * rewrite lookup_insert_eq, Hu, Hv, bool_decide_true by done. simpl.
        f_equal. rewrite string_length_app. lia.
      * rewrite lookup_insert_ne, bool_decide_false by done.
        destruct (waves !! x); simpl; [|done]. f_equal.
Qed.

(** Recording stops with a lookup error at the first name without a
    signal. *)
Lemma record_undefined (signals waves : gmap string string) pre o post :
  (∀ x, x ∈ pre ++ [o] → is_Some (waves !! x)) →
  (∀ x, x ∈ pre → is_Some (signals !! x)) →
  signals !! o = None →
  for_each (record signals) (pre ++ o :: post) waves = Raise (KeyError o).
Proof.
  intros Hw Hs Ho. rewrite for_each_app.
  destruct (record_all signals waves pre) as (waves' & -> & Hlen).
  { intros x Hx. apply Hw, elem_of_app. by left. }
  { done. }
  simpl. rewrite record_missing; [done| |done].
  destruct (Hw o) as [u Hu]; [apply elem_of_app; right; by left|].
  specialize (Hlen o). unfold trace_length in Hlen. rewrite Hu in Hlen.
  by destruct (waves' !! o).
Qed.

Lemma empty_waves_lookup names x :
  empty_waves names !! x = if bool_decide (x ∈ names) then Some "" else None.
Proof.
  unfold empty_waves. induction names as [|a names IH] using rev_ind; [done|].
  rewrite foldl_app. simpl. destruct (decide (a = x)) as [->|Hne].
  - rewrite lookup_insert_eq, bool_decide_true; [done|].
    apply elem_of_app. right. by left.
  - rewrite lookup_insert_ne, IH by done.
    rewrite (bool_decide_ext (x ∈ names) (x ∈ names ++ [a])); [done|].
    rewrite elem_of_app, list_elem_of_singleton. naive_solver.
Qed.

(** *** One event, and all of them *)

Lemma map_result_length {A B} (f : A → result B) xs ys :
  map_result f xs = Ok ys → length ys = length xs.
Proof.
  revert ys. induction xs as [|x xs IH]; intros ys; simpl.
  - by intros [= <-].
  - destruct (f x); simpl; [|done..].
    destruct (map_result f xs); simpl; [|done..].
    intros [= <-]. simpl. by rewrite IH.
Qed.

(** After the gates were evaluated every primary input and every gate has a
    value, a bit when the event gives bits. *)
Lemma event_signal inputs gates prev values order signals x :
  gates_ok inputs gates →
  topological gates order →
  length values = length inputs →
  solved gates (bind_inputs prev inputs values) order signals →
  x ∈ inputs ∨ x ∈ gate_name <$> gates →
  ∃ v, signals !! x = Some v ∧ (Forall is_bit values → is_bit v).
Proof.
  intros Hok Htopo Hlen [Hout Hin] Hx.
  destruct (decide (x ∈ gate_name <$> gates)) as [Hg|Hg].
  - apply list_elem_of_fmap in Hg as (g & -> & Hg).
    destruct (Hin g Hg) as (vals & v & Hvals & Hv & Hs).
    { rewrite (topological_names _ _ Htopo). by apply list_elem_of_fmap_2. }
    exists v. split; [done|]. intros _.
    destruct (eval_gate_well_formed g vals) as (v' & Hv' & Hbit).
    + destruct Hok as [_ Hkinds _]. by eapply Forall_forall in Hkinds.
    + by eapply map_result_length.
    + assert (v = v') as -> by congruence. exact Hbit.
  - destruct Hx as [Hx|Hx]; [|done].
    destruct (bind_inputs_lookup prev inputs values x Hlen Hx) as (v & Hv & Hl).
    exists v. rewrite Hout by (by rewrite (topological_names _ _ Htopo)).
    split; [done|]. intros Hbits. by eapply Forall_forall in Hbits.
Qed.

Lemma simulate_event_ok inputs outputs gates order signals waves ev :
  gates_ok inputs gates →
  topological gates order →
  length ev.2 = length inputs →
  outputs_ok inputs outputs gates →
  (∀ x, x ∈ inputs ++ outputs → is_Some (waves !! x)) →
  ∃ signals' waves',
    simulate_event inputs outputs gates order (signals, waves) ev
      = Ok (signals', waves')
    ∧ (∀ x, x ∈ inputs ++ outputs → is_Some (waves' !! x))
    ∧ (Forall is_bit ev.2 → ∀ x, x ∈ inputs ++ outputs →
         trace_length waves' x =
           (λ n, n + occurrences x (inputs ++ outputs)) <$> trace_length waves x).
Proof.
  intros Hok Htopo Hlen Hout Hw. destruct ev as [t values]. simpl in *.
  destruct (eval_order_total inputs gates
              (bind_inputs signals inputs values) order Hok Htopo)
    as (signals' & Hrun & Hsolved).
  { intros a Ha.
    destruct (bind_inputs_lookup signals inputs values a) as (v & _ & ->); done. }
  assert (∀ x, x ∈ inputs ++ outputs →
            ∃ v, signals' !! x = Some v ∧ (Forall is_bit values → is_bit v))
    as Hsig.
  { intros x Hx. eapply event_signal; [done..|].
    apply elem_of_app in Hx as [Hx|Hx]; [by left|by apply Hout]. }
  destruct (record_all signals' waves inputs) as (w1 & Hr1 & Hl1).
  { intros x Hx. apply Hw, elem_of_app. by left. }
  { intros x Hx. destruct (Hsig x) as (v & -> & _); [|done].
    apply elem_of_app. by left. }
  assert (∀ x, is_Some (w1 !! x) ↔ is_Some (waves !! x)) as Hd1.
  { intros x. specialize (Hl1 x). unfold trace_length in Hl1.
    destruct (w1 !! x), (waves !! x); simpl in Hl1; done. }
  destruct (record_all signals' w1 outputs) as (w2 & Hr2 & Hl2).
  { intros x Hx. apply Hd1, Hw, elem_of_app. by right. }
  { intros x Hx. destruct (Hsig x) as (v & -> & _); [|done].
    apply elem_of_app. by right. }
  exists signals', w2. rewrite Hrun. simpl. rewrite Hr1. simpl.
  rewrite Hr2. simpl. split_and!; [done| |].
  - intros x Hx. specialize (Hl2 x). unfold trace_length in Hl2.
    apply Hw, Hd1 in Hx as [u Hu]. rewrite Hu in Hl2.
    destruct (w2 !! x); [eauto|done].
  - intros Hbits x Hx. rewrite Hl2, Hl1, occurrences_app.
    destruct (Hsig x Hx) as (v & -> & Hbit). simpl.
    assert (String.length v = 1) as -> by by destruct (Hbit Hbits) as [-> | ->].
    destruct (trace_length waves x); simpl; [|done]. f_equal. lia.
Qed.

Lemma simulate_events_ok inputs outputs gates order stimuli signals waves :
  gates_ok inputs gates →
  topological gates order →
  stimuli_ok inputs stimuli →
  outputs_ok inputs outputs gates →
  (∀ x, x ∈ inputs ++ outputs → is_Some (waves !! x)) →
  ∃ signals' waves',
    for_each (simulate_event inputs outputs gates order) stimuli
      (signals, waves) = Ok (signals', waves')
    ∧ (stimuli_binary stimuli → ∀ x, x ∈ inputs ++ outputs →
         trace_length waves' x =
           (λ n, n + length stimuli * occurrences x (inputs ++ outputs))
           <$> trace_length waves x).
Proof.
  intros Hok Htopo Hstim Hout. revert signals waves.
  induction Hstim as [|ev stimuli Hev _ IH]; intros signals waves Hw.
  { exists signals, waves. split; [done|]. intros _ x _.
    destruct (trace_length waves x); simpl; [|done]. f_equal. lia. }
  destruct (simulate_event_ok inputs outputs gates order signals waves ev)
    as (s1 & w1 & Hrun1 & Hw1 & Hl1); [done..|].
  destruct (IH s1 w1 Hw1) as (s2 & w2 & Hrun2 & Hl2).
  exists s2, w2. split.
  - change (simulate_event inputs outputs gates order (signals, waves) ev
            ≫= for_each (simulate_event inputs outputs gates order) stimuli
            = Ok (s2, w2)).
    rewrite Hrun1. exact Hrun2.
  - intros [Hb Hbs]%Forall_cons x Hx. rewrite (Hl2 Hbs x Hx), (Hl1 Hb x Hx).
    destruct (trace_length waves x); simpl; [|done]. f_equal. lia.
Qed.

(** For a netlist with well-formed gates, defined outputs, an acyclic
    dependency graph and well-formed binary events, the simulation succeeds
    and the trace of a tracked name has one character per event and per
    listing of the name among the inputs and outputs. *)
Lemma simulate_trace_lengths inputs outputs gates stimuli :
  gates_ok inputs gates →
  acyclic gates →
  outputs_ok inputs outputs gates →
  stimuli_ok inputs stimuli →
  ∃ waves,
    simulate (inputs, outputs, gates, stimuli) = Ok waves
    ∧ (stimuli_binary stimuli → ∀ x, x ∈ inputs ++ outputs →
         trace_length waves x =
           Some (length stimuli * occurrences x (inputs ++ outputs))).
Proof.
  intros Hok Hacyc Hout Hstim.
  destruct (topo_sort_complete gates inputs) as [order Hsort];
    [by destruct Hok|done|].
  destruct (topo_sort_sound _ _ _ Hsort) as [_ Htopo].
  destruct (simulate_events_ok inputs outputs gates order stimuli ∅
              (empty_waves (inputs ++ outputs))) as (s & w & Hrun & Hlen);
    try done.
  { intros x Hx. rewrite empty_waves_lookup, bool_decide_true by done. eauto. }
  exists w. split.
  - unfold simulate. rewrite Hsort. simpl. by rewrite Hrun.
  - intros Hbin x Hx. rewrite (Hlen Hbin x Hx). unfold trace_length.
    rewrite empty_waves_lookup, bool_decide_true by done. done.
Qed.

(** C10. The parser accepts a document whose OUTPUTS line lists a name
    that is neither a primary input nor a gate output.  For a netlist with
    such an output (the first undefined one, the rest of the netlist being
    well formed), the simulation of at least one event fails with the
    lookup error for that name, raised while its trace is recorded; with no
    event it succeeds and the trace of that name is empty. *)
Theorem undefined_output (inputs pre post : list string) (o : string)
    (gates : list gate) (stimuli : list stimulus) :
  gates_ok inputs gates →
  acyclic gates →
  stimuli_ok inputs stimuli →
  outputs_ok inputs pre gates →
  o ∉ inputs →
  o ∉ gate_name <$> gates →
  parse_netlist undefined_output_document =
    Ok (["A"], ["Y"; "Q"], [Gate "Y" "NOT" ["A"]], [(5%Z, ["1"])])
  ∧ (stimuli = [] →
       ∃ waves, simulate (inputs, pre ++ o :: post, gates, stimuli) = Ok waves
                ∧ waves !! o = Some "")
  ∧ (stimuli ≠ [] →
       simulate (inputs, pre ++ o :: post, gates, stimuli)
       = Raise (KeyError o)).
Proof.
  intros Hok Hacyc Hstim Hout Hin Hgate.
  split; [vm_compute; reflexivity|].
  destruct (topo_sort_complete gates inputs) as [order Hsort];
    [by destruct Hok|done|].
  destruct (topo_sort_sound _ _ _ Hsort) as [_ Htopo].
  assert (∀ x, x ∈ inputs ++ pre ++ o :: post →
            is_Some (empty_waves (inputs ++ pre ++ o :: post) !! x)) as Hw.
  { intros x Hx. rewrite empty_waves_lookup, bool_decide_true by done. eauto. }
  unfold simulate. rewrite Hsort. simpl. split.
  - intros ->. simpl. eexists. split; [done|].
    rewrite empty_waves_lookup, bool_decide_true; [done|].
    rewrite !elem_of_app. right. right. by left.
  - intros Hne. destruct stimuli as [|[t values] stimuli]; [done|].
    apply Forall_cons in Hstim as [Hlen _]. simpl in Hlen.
    rewrite (for_each_cons_raise _ _ _ _ (KeyError o)); [done|].
    unfold simulate_event.
    destruct (eval_order_total inputs gates (bind_inputs ∅ inputs values)
                order Hok Htopo) as (signals & -> & Hsolved).
    { intros a Ha.
      destruct (bind_inputs_lookup ∅ inputs values a) as (v & _ & ->); done. }
    assert (∀ x, x ∈ inputs ∨ x ∈ gate_name <$> gates →
              is_Some (signals !! x)) as Hsig.
    { intros x Hx.
      destruct (event_signal inputs gates ∅ values order signals x)
        as (v & -> & _); done. }
    destruct (record_all signals (empty_waves (inputs ++ pre ++ o :: post))
                inputs) as (w1 & Hr1 & Hl1).
    { intros x Hx. apply Hw, elem_of_app. by left. }
    { intros x Hx. apply Hsig. by left. }
    cbn [mbind result_bind]. rewrite Hr1. cbn [mbind result_bind].
    rewrite record_undefined; [done| | |].
    + intros x Hx. specialize (Hl1 x). unfold trace_length in Hl1.
      destruct (Hw x) as [u Hu].
      { rewrite !elem_of_app. right.
        apply elem_of_app in Hx as [Hx|Hx%list_elem_of_singleton]; [by left|].
        subst x. right. by left. }
      rewrite Hu in Hl1. by destruct (w1 !! x).
    + intros x Hx. by apply Hsig, Hout.
    + destruct Hsolved as [Hs _]. rewrite Hs.
      * rewrite bind_inputs_other by done. done.
      * by rewrite (topological_names _ _ Htopo).
Qed.

Lemma no_dependencies_acyclic gates :
  (∀ g a, g ∈ gates → a ∈ gate_inputs g → a ∉ gate_name <$> gates) →
  acyclic gates.
Proof.
  intros Hfree. apply (acyclic_by_rank _ (λ _, 0)).
  intros h d (g & Hg & _ & Hd & Hn). by destruct (Hfree g d).
Qed.

Lemma inverter_gates_ok : gates_ok ["A"] [Gate "Y" "NOT" ["A"]].
Proof.
  split.
  - compute_done.
  - apply Forall_cons_2; [by left|apply Forall_nil_2].
  - intros g a Hg Ha. cases_elem_of Hg. subst g. simpl in Ha. by left.
Qed.

Lemma inverter_acyclic : acyclic [Gate "Y" "NOT" ["A"]].
Proof.
  apply no_dependencies_acyclic. intros g a Hg Ha.
  cases_elem_of Hg. subst g. simpl in *. cases_elem_of Ha. subst a.
  compute_done.
Qed.

Lemma undefined_output_witness :
  let inputs := ["A"] in
  let gates := [Gate "Y" "NOT" ["A"]] in
  let stimuli := [(5%Z, ["1"])] in
  gates_ok inputs gates ∧ acyclic gates ∧ stimuli_ok inputs stimuli ∧
  outputs_ok inputs ["Y"] gates ∧ ("Q" ∉ inputs) ∧
  ("Q" ∉ gate_name <$> gates) ∧
  parse_netlist undefined_output_document =
    Ok (["A"], ["Y"; "Q"], [Gate "Y" "NOT" ["A"]], [(5%Z, ["1"])])
  ∧ (stimuli = [] →
       ∃ waves, simulate (inputs, ["Y"] ++ "Q" :: [], gates, stimuli) = Ok waves
                ∧ waves !! "Q" = Some "")
  ∧ (stimuli ≠ [] →
       simulate (inputs, ["Y"] ++ "Q" :: [], gates, stimuli)
       = Raise (KeyError "Q")).
Proof.
  assert (stimuli_ok ["A"] [(5%Z, ["1"])]) as Hs by (repeat constructor).
  assert (outputs_ok ["A"] ["Y"] [Gate "Y" "NOT" ["A"]]) as Ho.
  { intros o Ho. cases_elem_of Ho. subst o. right. compute_done. }
  assert ("Q" ∉ ["A"]) as Hq1 by compute_done.
  assert ("Q" ∉ gate_name <$> [Gate "Y" "NOT" ["A"]]) as Hq2 by compute_done.
  split_and!; [exact inverter_gates_ok|exact inverter_acyclic|exact Hs|exact Ho|
               exact Hq1|exact Hq2|..];
    apply (undefined_output ["A"] ["Y"] [] "Q" _ _
             inverter_gates_ok inverter_acyclic Hs Ho Hq1 Hq2).
Defined.

(** ** Where the code leaves its documentation *)

(** C5 (the code differs).  A gate argument that names neither a primary
    input nor a gate is dropped from the dependency sets: the resolver
    accepts the gate list, and the run fails only when the first event is
    simulated, with a lookup error; without events it succeeds. *)
Theorem undefined_argument_not_detected :
  parse_netlist undefined_argument_document =
    Ok (["A"], ["C"], [Gate "C" "AND" ["A"; "X"]], [(0%Z, ["1"])])
  ∧ topo_sort [Gate "C" "AND" ["A"; "X"]] ["A"] = Ok [("C", "AND")]
  ∧ run undefined_argument_document = Raise (KeyError "X")
  ∧ run undefined_argument_idle_document
    = Ok (<["A" := ""]> (<["C" := ""]> ∅)).
Proof. split_and!; vm_compute; reflexivity. Qed.

(** C6 (the code differs).  A name listed among the inputs and again among
    the outputs is recorded twice per event: with one event its trace has
    two characters. *)
Theorem repeated_name_trace :
  parse_netlist repeated_name_document =
    Ok (["A"], ["A"; "Y"], [Gate "Y" "NOT" ["A"]], [(0%Z, ["1"])])
  ∧ run repeated_name_document = Ok (<["A" := "11"]> (<["Y" := "0"]> ∅))
  ∧ trace_length (<["A" := "11"]> (<["Y" := "0"]> ∅)) "A" = Some 2.
Proof. split_and!; vm_compute; reflexivity. Qed.

(** ** The parser *)

(** C9. When the first line of the STIMULUS section starts with an integer
    below zero the parse fails; when that line has one value per primary
    input, it fails with the error for times that do not increase. *)
Theorem negative_first_time_rejected (text : string)
    (inputs outputs : list string) (gates : list gate)
    (ln : string) (rest : list string) (tok : string) (vals : list string)
    (t : Z) :
  parse_sections (clean_lines text) = Ok (inputs, outputs, gates, ln :: rest) →
  split ln = tok :: vals →
  py_int tok = Ok t →
  (t < 0)%Z →
  (∃ e, parse_netlist text = Raise e)
  ∧ (length vals = length inputs →
     parse_netlist text
     = Raise (ValueError "Stimulus times must be strictly increasing")).
Proof.
  intros Hsec Hsplit Hint Hneg. unfold parse_netlist. rewrite Hsec.
  cbn [mbind result_bind parse_stimuli]. rewrite Hsplit. cbn [length].
  assert ((t <=? -1)%Z = true) as Hle by (apply Z.leb_le; lia).
  destruct (length vals =? length inputs) eqn:Hlen.
  - apply Nat.eqb_eq in Hlen.
    assert ((S (length vals) =? length inputs + 1) = true) as ->
      by (apply Nat.eqb_eq; lia).
    cbn [negb index lookup list_lookup mbind result_bind].
    rewrite Hint. cbn [mbind result_bind]. rewrite Hle. eauto.
  - apply Nat.eqb_neq in Hlen.
    assert ((S (length vals) =? length inputs + 1) = false) as ->
      by (apply Nat.eqb_neq; lia).
    cbn [negb]. split; [eauto|]. intros Heq. done.
Qed.

Lemma negative_first_time_rejected_witness :
  parse_sections (clean_lines negative_time_document)
    = Ok (["A"; "B"], ["C"], [Gate "C" "AND" ["A"; "B"]], ["-1 0 0"; "0 1 1"])
  ∧ split "-1 0 0" = "-1" :: ["0"; "0"]
  ∧ py_int "-1" = Ok (-1)%Z
  ∧ (-1 < 0)%Z
  ∧ (∃ e, parse_netlist negative_time_document = Raise e)
  ∧ (length ["0"; "0"] = length ["A"; "B"] →
     parse_netlist negative_time_document
     = Raise (ValueError "Stimulus times must be strictly increasing")).
Proof.
  assert (parse_sections (clean_lines negative_time_document)
    = Ok (["A"; "B"], ["C"], [Gate "C" "AND" ["A"; "B"]], ["-1 0 0"; "0 1 1"]))
    as H1 by (vm_compute; reflexivity).
  assert (split "-1 0 0" = "-1" :: ["0"; "0"]) as H2 by (vm_compute; reflexivity).
  assert (py_int "-1" = Ok (-1)%Z) as H3 by (vm_compute; reflexivity).
  assert (-1 < 0)%Z as H4 by lia.
  split_and!; [exact H1|exact H2|exact H3|exact H4|..];
    apply (negative_first_time_rejected _ _ _ _ _ _ _ _ _ H1 H2 H3 H4).
Defined.

(** A time of more than 4300 digits is no integer for the parser: [int]
    refuses it with an error of its own, before any comparison. *)
Lemma py_int_digit_limit :
  py_int (String "-" (Nat.iter 4301 (String "1") ""))
  = Raise (int_too_long 4301).
Proof. vm_compute. reflexivity. Qed.

(** *** What a match of the gate pattern looks like *)

Lemma string_app_cons x (a b : string) :
  String x a +:+ b = String x (a +:+ b).
Proof. reflexivity. Qed.

Lemma string_app_nil (b : string) : "" +:+ b = b.
Proof. reflexivity. Qed.

Lemma str_all_app p (a b : string) :
  str_all p (a +:+ b) = str_all p a && str_all p b.
Proof.
  induction a as [|c a IH]; [done|].
  rewrite string_app_cons. simpl. rewrite IH. by rewrite andb_assoc.
Qed.

Lemma str_all_weaken (p q : ascii → bool) s :
  (∀ c, p c = true → q c = true) → str_all p s = true → str_all q s = true.
Proof.
  intros Hpq. induction s as [|c s IH]; simpl; [done|].
  intros [Hc Hs]%andb_true_iff. rewrite (Hpq c Hc). simpl. auto.
Qed.

Lemma string_app_assoc (a b c : string) : (a +:+ b) +:+ c = a +:+ b +:+ c.
Proof.
  induction a as [|x a IH]; [done|]. rewrite !string_app_cons. by f_equal.
Qed.

Lemma re_class_Some {R} p s (k : ascii → string → option R) x :
  re_class p s k = Some x →
  ∃ c s', s = String c s' ∧ p c = true ∧ k c s' = Some x.
Proof.
  destruct s as [|c s']; simpl; [done|].
  destruct (p c) eqn:Hc; [|done]. eauto.
Qed.

Lemma re_star_Some {R} p s (k : string → string → option R) x :
  re_star p s k = Some x →
  ∃ m r, s = m +:+ r ∧ str_all p m = true ∧ k m r = Some x.
Proof.
  revert k. induction s as [|c s IH]; intros k; simpl.
  - intros Hk. by exists "", "".
  - destruct (p c) eqn:Hc.
    + destruct (re_star p s _) as [y|] eqn:Hrec.
      * intros [= ->]. apply IH in Hrec as (m & r & -> & Hm & Hk).
        exists (String c m), r. rewrite string_app_cons. simpl.
        by rewrite Hc, Hm.
      * intros Hk. by exists "", (String c s).
    + intros Hk. by exists "", (String c s).
Qed.

Lemma re_plus_Some {R} p s (k : string → string → option R) x :
  re_plus p s k = Some x →
  ∃ m r, s = m +:+ r ∧ m ≠ "" ∧ str_all p m = true ∧ k m r = Some x.
Proof.
  unfold re_plus. intros (c & s' & -> & Hc & Hk)%re_class_Some.
  apply re_star_Some in Hk as (m & r & -> & Hm & Hk).
  exists (String c m), r. rewrite string_app_cons. simpl. by rewrite Hc, Hm.
Qed.

Lemma re_lit_Some {R} l s (k : string → option R) x :
  re_lit l s k = Some x → ∃ r, s = l +:+ r ∧ k r = Some x.
Proof.
  revert s. induction l as [|a l IH]; intros s; simpl.
  - destruct s; eauto.
  - destruct s as [|c s]; [done|]. case_bool_decide as Hac; [|done].
    subst c. intros (r & -> & Hk)%IH. exists r. by rewrite string_app_cons.
Qed.

Lemma re_alt_Some {R} ls s (k : string → string → option R) x :
  re_alt ls s k = Some x →
  ∃ l r, l ∈ ls ∧ s = l +:+ r ∧ k l r = Some x.
Proof.
  induction ls as [|l ls IH]; simpl; [done|].
  destruct (re_lit l s (k l)) as [y|] eqn:Hl.
  - intros [= ->]. apply re_lit_Some in Hl as (r & -> & Hk).
    exists l, r. split; [by left|done].
  - intros (l' & r & Hin & -> & Hk)%IH. exists l', r. split; [by right|done].
Qed.

Lemma re_end_Some {R} s (k : option R) x :
  re_end s k = Some x → (s = "" ∨ s = String LF "") ∧ k = Some x.
Proof.
  unfold re_end. repeat case_bool_decide; simpl; try done; eauto.
Qed.

(** A line that matches is an identifier, an equals sign, a kind and a
    parenthesised argument text made of the characters of the class, with
    white space allowed around these parts. *)
Lemma gate_re_Some ln out typ args :
  gate_re ln = Some (out, typ, args) →
  ∃ w1 w2 w3 w4 w5 w6 tail,
    ln = out +:+ w1 +:+ "=" +:+ w2 +:+ typ +:+ w3 +:+ "("
         +:+ (w4 +:+ args +:+ w5) +:+ ")" +:+ w6 +:+ tail
    ∧ is_identifier out = true
    ∧ typ ∈ ["AND"; "OR"; "XOR"; "NOT"]
    ∧ args ≠ ""
    ∧ str_all args_char args = true
    ∧ str_all isspace w1 = true ∧ str_all isspace w2 = true
    ∧ str_all isspace w3 = true ∧ str_all isspace w4 = true
    ∧ str_all isspace w5 = true.
Proof.
  unfold gate_re.
  intros (c & s1 & -> & Hc & H)%re_class_Some.
  apply re_star_Some in H as (m & s2 & -> & Hm & H).
  apply re_star_Some in H as (w1 & s3 & -> & Hw1 & H).
  apply re_lit_Some in H as (s4 & -> & H).
  apply re_star_Some in H as (w2 & s5 & -> & Hw2 & H).
  apply re_alt_Some in H as (typ' & s6 & Htyp & -> & H).
  apply re_star_Some in H as (w3 & s7 & -> & Hw3 & H).
  apply re_lit_Some in H as (s8 & -> & H).
  apply re_star_Some in H as (w4 & s9 & -> & Hw4 & H).
  apply re_plus_Some in H as (args' & s10 & -> & Hne & Hargs & H).
  apply re_star_Some in H as (w5 & s11 & -> & Hw5 & H).
  apply re_lit_Some in H as (s12 & -> & H).
  apply re_star_Some in H as (w6 & s13 & -> & Hw6 & H).
  apply re_end_Some in H as [Htail [= <- <- <-]].
  exists w1, w2, w3, w4, w5, w6, s13. split_and!; try done.
  - rewrite !string_app_cons, !string_app_assoc. done.
  - simpl. by rewrite Hc, Hm.
Qed.

Lemma split_once_first c (a b : string) :
  str_all (λ x, negb (bool_decide (x = c))) a = true →
  split_once c (a +:+ String c b) = [a; b].
Proof.
  induction a as [|x a IH].
  - intros _. rewrite string_app_nil. cbn [split_once].
    by rewrite bool_decide_true.
  - cbn [str_all]. intros [Hx Ha]%andb_true_iff.
    rewrite string_app_cons. cbn [split_once].
    apply negb_true_iff in Hx. rewrite Hx. by rewrite IH.
Qed.

Lemma class_excludes (p : ascii → bool) (c : ascii) :
  p c = false → ∀ x, p x = true → negb (bool_decide (x = c)) = true.
Proof.
  intros Hc x Hx. apply negb_true_iff, bool_decide_eq_false. congruence.
Qed.

Lemma ident_start_char c : ident_start c = true → ident_char c = true.
Proof.
  unfold ident_start, ident_char.
  destruct (is_upper c), (is_lower c), (is_digit c), (bool_decide _); done.
Qed.

Lemma isspace_args_char c : isspace c = true → args_char c = true.
Proof. unfold args_char. intros ->. by rewrite !orb_true_r. Qed.

Lemma is_identifier_chars out :
  is_identifier out = true → str_all ident_char out = true.
Proof.
  destruct out as [|c m]; simpl; [done|].
  intros [Hc Hm]%andb_true_iff. by rewrite ident_start_char.
Qed.

(** The parenthesised text of a line that matches is made of the
    characters of the argument class. *)
Lemma gate_re_paren_text ln out typ args :
  gate_re ln = Some (out, typ, args) →
  ∃ pt, paren_text ln = Some pt ∧ str_all args_char pt = true.
Proof.
  intros (w1 & w2 & w3 & w4 & w5 & w6 & tail & -> & Hout & Htyp & _ & Hargs
          & Hw1 & Hw2 & Hw3 & Hw4 & Hw5)%gate_re_Some.
  exists (w4 +:+ args +:+ w5).
  assert (str_all args_char (w4 +:+ args +:+ w5) = true) as Hpt.
  { rewrite !str_all_app, Hargs.
    rewrite (str_all_weaken _ _ w4 isspace_args_char Hw4).
    by rewrite (str_all_weaken _ _ w5 isspace_args_char Hw5). }
  split; [|done]. unfold paren_text.
  set (before := out +:+ w1 +:+ "=" +:+ w2 +:+ typ +:+ w3).
  set (after := (w4 +:+ args +:+ w5) +:+ String ")" (w6 +:+ tail)).
  assert (out +:+ w1 +:+ "=" +:+ w2 +:+ typ +:+ w3 +:+ "("
          +:+ (w4 +:+ args +:+ w5) +:+ ")" +:+ w6 +:+ tail
          = before +:+ String "(" after) as ->.
  { unfold before, after. rewrite !string_app_assoc. done. }
  rewrite split_once_first.
  - simpl. unfold after. rewrite split_once_first; [done|].
    eapply str_all_weaken; [|exact Hpt]. by apply class_excludes.
  - assert (∀ w, str_all isspace w = true →
              str_all (λ x, negb (bool_decide (x = "("%char))) w = true) as Hws.
    { intros w. apply str_all_weaken. by apply class_excludes. }
    unfold before. rewrite !str_all_app.
    rewrite (str_all_weaken ident_char _ out); [|by apply class_excludes|
      by apply is_identifier_chars].
    rewrite (Hws w1), (Hws w2), (Hws w3) by done.
    cases_elem_of Htyp; subst typ; reflexivity.
Qed.

(** A line of the GATES section whose text between the first opening
    parenthesis and the next closing one has a character that is not a
    letter, a digit, an underscore, a comma or white space fails the parse
    at once with the error for an invalid gate line, whatever follows it
    and whatever was declared before. *)
Lemma invalid_gate_line (ln pt : string) (rest : list string)
    (defined : gset string) (gates : list gate) :
  startswith ln "STIMULUS:" = false →
  paren_text ln = Some pt →
  str_all args_char pt = false →
  parse_gates (ln :: rest) defined gates
  = Raise (ValueError ("Invalid gate line: '" +:+ ln +:+ "'")).
Proof.
  intros Hstim Hpt Hbad. cbn [parse_gates]. rewrite Hstim.
  destruct (gate_re ln) as [[[out typ] args]|] eqn:Hre; [|done].
  apply gate_re_paren_text in Hre as (pt' & Hpt' & Hall). congruence.
Qed.

(** C7 (as stated) fails: an argument that starts with a digit is not an
    identifier, and the line is accepted. *)
Lemma digit_argument_accepted :
  is_identifier "1A" = false
  ∧ parse_netlist digit_argument_document
    = Ok (["A"; "B"], ["C"], [Gate "C" "AND" ["1A"; "B"]], []).
Proof. split; vm_compute; reflexivity. Qed.

(** *** What the parser guarantees *)

Lemma parse_gates_spec inputs rest defined gates gates' rest' :
  parse_gates rest defined gates = Ok (gates', rest') →
  defined = list_to_set (inputs ++ (gate_name <$> gates)) →
  NoDup (gate_name <$> gates) →
  (∀ g, g ∈ gates → gate_name g ∉ inputs) →
  Forall well_formed_gate gates →
  NoDup (gate_name <$> gates')
  ∧ (∀ g, g ∈ gates' → gate_name g ∉ inputs)
  ∧ Forall well_formed_gate gates'.
Proof.
  revert defined gates.
  induction rest as [|ln rest IH]; intros defined gates Hrun Hdef Hnd Hin Hwf.
  { simpl in Hrun. by injection Hrun as <- <-. }
  cbn [parse_gates] in Hrun.
  destruct (startswith ln "STIMULUS:"); [by injection Hrun as <- <-|].
  destruct (gate_re ln) as [[[out typ] args]|] eqn:Hre; [|done].
  apply gate_re_Some in Hre as (_ & _ & _ & _ & _ & _ & _ & _ & _ & Htyp & _).
  set (inputs_of := strip <$> split_on "," args) in *.
  destruct (bool_decide (typ = "NOT") && negb (length inputs_of =? 1))
    eqn:Hnot; [done|].
  destruct (bool_decide (typ ∈ ["AND"; "OR"; "XOR"])
            && negb (length inputs_of =? 2)) eqn:Hbin; [done|].
  case_bool_decide as Hout; [done|].
  assert (out ∉ inputs ++ (gate_name <$> gates)) as Hfresh.
  { intros Hx. apply Hout. subst defined. by apply elem_of_list_to_set. }
  apply not_elem_of_app in Hfresh as [Hfresh1 Hfresh2].
  apply (IH _ _ Hrun).
  - subst defined. rewrite fmap_app. simpl. apply leibniz_equiv.
    intros x. rewrite elem_of_union, elem_of_singleton, !elem_of_list_to_set,
      !elem_of_app, list_elem_of_singleton. tauto.
  - rewrite fmap_app. simpl. apply NoDup_app. split_and!; [done| |].
    + intros x Hx ->%list_elem_of_singleton. done.
    + apply NoDup_singleton.
  - intros g [Hg| ->%list_elem_of_singleton]%elem_of_app; [by apply Hin|done].
  - apply Forall_app. split; [done|]. apply Forall_singleton.
    unfold well_formed_gate. simpl.
    apply andb_false_iff in Hnot, Hbin.
    cases_elem_of Htyp; subst typ.
    + right. split; [set_solver|].
      destruct Hbin as [Hb|Hb]; [done|].
      by apply negb_false_iff, Nat.eqb_eq in Hb.
    + right. split; [set_solver|].
      destruct Hbin as [Hb|Hb]; [done|].
      by apply negb_false_iff, Nat.eqb_eq in Hb.
    + right. split; [set_solver|].
      destruct Hbin as [Hb|Hb]; [done|].
      by apply negb_false_iff, Nat.eqb_eq in Hb.
    + left. split; [done|].
      destruct Hnot as [Hb|Hb]; [done|].
      by apply negb_false_iff, Nat.eqb_eq in Hb.
Qed.

Lemma parse_stimuli_spec rest inputs last_time acc stimuli :
  parse_stimuli rest inputs last_time acc = Ok stimuli →
  stimuli_ok inputs acc → stimuli_binary acc →
  stimuli_ok inputs stimuli ∧ stimuli_binary stimuli.
Proof.
  revert last_time acc.
  induction rest as [|ln rest IH]; intros last_time acc Hrun Hok Hbin.
  { simpl in Hrun. by injection Hrun as <-. }
  cbn [parse_stimuli] in Hrun.
  destruct (length (split ln) =? length inputs + 1) eqn:Hlen; [|done].
  apply Nat.eqb_eq in Hlen. cbn [negb] in Hrun.
  destruct (index (split ln) 0) as [p0| |]; [|done..].
  cbn [mbind result_bind] in Hrun.
  destruct (py_int p0) as [t| |]; [|done..].
  cbn [mbind result_bind] in Hrun.
  destruct (t <=? last_time)%Z; [done|].
  destruct (existsb _ (drop 1 (split ln))) eqn:Hbits; [done|].
  apply (IH _ _ Hrun).
  - apply Forall_app. split; [done|]. apply Forall_singleton. simpl.
    rewrite length_drop. lia.
  - apply Forall_app. split; [done|]. apply Forall_singleton. simpl.
    apply Forall_forall. intros v Hv.
    apply not_true_iff_false in Hbits. rewrite List.existsb_exists in Hbits.
    destruct (decide (v ∈ ["0"; "1"])) as [Hb|Hb].
    + cases_elem_of Hb; subst v; [by left|by right].
    + exfalso. apply Hbits. exists v. split; [by apply list_elem_of_In|].
      by rewrite bool_decide_false.
Qed.

(** Inversion of a successful sequence of binds and guards. *)
Ltac invert_run H :=
  repeat match type of H with
  | (?r ≫= _) = Ok _ =>
      let E := fresh "E" in
      destruct r as [?| |] eqn:E; [|done..]; cbn [mbind result_bind] in H
  | (if bool_decide ?P then _ else _) = Ok _ =>
      destruct (decide P); [by rewrite bool_decide_true in H|];
      rewrite bool_decide_false in H by done
  | (let '(_, _) := ?p in _) = Ok _ => destruct p
  end.

Lemma parse_sections_valid lines inputs outputs gates rest :
  parse_sections lines = Ok (inputs, outputs, gates, rest) →
  inputs ≠ [] ∧ outputs ≠ [] ∧ gates ≠ []
  ∧ NoDup (gate_name <$> gates)
  ∧ (∀ g, g ∈ gates → gate_name g ∉ inputs)
  ∧ Forall well_formed_gate gates.
Proof.
  unfold parse_sections. intros Hrun. invert_run Hrun.
  injection Hrun as -> -> -> <-.
  match goal with
  | H : parse_gates _ _ _ = Ok _ |- _ =>
      apply (parse_gates_spec inputs) in H as (Hnd & Hin & Hwf);
        [|by rewrite app_nil_r|apply NoDup_nil_2|
          by intros ? ?%elem_of_nil|apply Forall_nil_2]
  end.
  done.
Qed.

(** A document that parses has at least one input, output and gate; its
    gates have distinct names that are not inputs and are well formed; its
    events have one bit per input. *)
Lemma parse_netlist_valid text inputs outputs gates stimuli :
  parse_netlist text = Ok (inputs, outputs, gates, stimuli) →
  inputs ≠ [] ∧ outputs ≠ [] ∧ gates ≠ []
  ∧ NoDup (gate_name <$> gates)
  ∧ (∀ g, g ∈ gates → gate_name g ∉ inputs)
  ∧ Forall well_formed_gate gates
  ∧ stimuli_ok inputs stimuli ∧ stimuli_binary stimuli.
Proof.
  unfold parse_netlist. intros Hrun.
  destruct (parse_sections (clean_lines text)) as [[[[i o] g] r]| |] eqn:Hsec;
    [|done..].
  cbn [mbind result_bind] in Hrun.
  destruct (parse_stimuli r i (-1) []) as [st| |] eqn:Hstim; [|done..].
  cbn [mbind result_bind] in Hrun. injection Hrun as -> -> -> ->.
  apply parse_sections_valid in Hsec as (? & ? & ? & ? & ? & ?).
  apply parse_stimuli_spec in Hstim as [??]; [|apply Forall_nil_2..].
  done.
Qed.

(** A document that parses, whose gate arguments and outputs are all
    defined and whose gates do not depend on each other in a cycle, runs to
    the end; the trace of a tracked name has one character per event and
    per listing of the name. *)
Lemma run_trace_lengths text inputs outputs gates stimuli :
  parse_netlist text = Ok (inputs, outputs, gates, stimuli) →
  (∀ g a, g ∈ gates → a ∈ gate_inputs g →
     a ∈ inputs ∨ a ∈ gate_name <$> gates) →
  outputs_ok inputs outputs gates →
  acyclic gates →
  ∃ waves,
    run text = Ok waves
    ∧ ∀ x, x ∈ inputs ++ outputs →
        trace_length waves x =
          Some (length stimuli * occurrences x (inputs ++ outputs)).
Proof.
  intros Hparse Hargs Hout Hacyc.
  destruct (parse_netlist_valid _ _ _ _ _ Hparse)
    as (_ & _ & _ & Hnd & _ & Hwf & Hok & Hbin).
  destruct (simulate_trace_lengths inputs outputs gates stimuli)
    as (waves & Hsim & Hlen); [by split|done..|].
  exists waves. split; [|by apply Hlen].
  unfold run. rewrite Hparse. exact Hsim.
Qed.

(** * Further properties of the code *)

(** ** The dependency resolver *)

(** X1. Whatever the gate list, an order that [topo_sort] returns lists
    every gate once, with its kind, and every gate after the gates it
    depends on; and the names of the gates are then distinct. *)
Theorem topo_sort_result_topological (gates : list gate)
    (inputs : list string) (order : list (string * string)) :
  topo_sort gates inputs = Ok order →
  NoDup (gate_name <$> gates)
  ∧ order ≡ₚ entry_of <$> gates
  ∧ ∀ i h d, order.*1 !! i = Some h → depends_on gates h d →
      ∃ j, j < i ∧ order.*1 !! j = Some d.
Proof.
  intros Hsort. destruct (topo_sort_sound _ _ _ Hsort) as [Hnd [Hperm Hs]].
  done.
Qed.

Lemma topo_sort_result_topological_witness :
  let gates := [Gate "Z" "NOT" ["T"]; Gate "T" "AND" ["A"; "B"];
                Gate "U" "OR" ["T"; "Z"]] in
  let order := [("T", "AND"); ("Z", "NOT"); ("U", "OR")] in
  topo_sort gates ["A"; "B"] = Ok order
  ∧ NoDup (gate_name <$> gates)
  ∧ order ≡ₚ entry_of <$> gates
  ∧ ∀ i h d, order.*1 !! i = Some h → depends_on gates h d →
      ∃ j, j < i ∧ order.*1 !! j = Some d.
Proof.
  assert (topo_sort [Gate "Z" "NOT" ["T"]; Gate "T" "AND" ["A"; "B"];
                     Gate "U" "OR" ["T"; "Z"]] ["A"; "B"]
          = Ok [("T", "AND"); ("Z", "NOT"); ("U", "OR")]) as H
    by (vm_compute; reflexivity).
  split; [exact H|].
  exact (topo_sort_result_topological _ _ _ H).
Defined.

(** X2. The loop of [topo_sort] always ends: the resolver either returns an
    order or raises its one error, and nothing else (no lookup error, no
    exhausted fuel). *)
Theorem topo_sort_outcomes (gates : list gate) (inputs : list string) :
  (∃ order, topo_sort gates inputs = Ok order)
  ∨ topo_sort gates inputs
    = Raise (ValueError "Cyclic or unresolved gate dependencies detected").
Proof.
  destruct (topo_sort_loop gates inputs) as (deps & order & _ & ->).
  destruct (length order =? length gates); simpl; eauto.
Qed.

(** X3. The resolver succeeds exactly on the gate lists whose names are
    distinct and whose dependency graph has no cycle. *)
Theorem topo_sort_succeeds_iff (gates : list gate) (inputs : list string) :
  (∃ order, topo_sort gates inputs = Ok order)
  ↔ NoDup (gate_name <$> gates) ∧ acyclic gates.
Proof.
  split.
  - intros [order Hsort]. destruct (topo_sort_sound _ _ _ Hsort) as [Hnd Ht].
    split; [done|]. by eapply topological_acyclic.
  - intros [Hnd Hacyc]. by apply topo_sort_complete.
Qed.

(** X4. A gate name that is declared twice makes the resolver fail, with
    the error it has for cycles. *)
Theorem repeated_gate_name_rejected (gates : list gate)
    (inputs : list string) :
  ¬ NoDup (gate_name <$> gates) →
  topo_sort gates inputs
  = Raise (ValueError "Cyclic or unresolved gate dependencies detected").
Proof.
  intros Hdup.
  destruct (topo_sort_loop gates inputs) as (deps & order & _ & Heq).
  destruct (length order =? length gates); simpl in Heq; [|done].
  by destruct (topo_sort_sound _ _ _ Heq) as [Hnd _].
Qed.

Lemma repeated_gate_name_rejected_witness :
  let gates := [Gate "Y" "NOT" ["A"]; Gate "Y" "NOT" ["B"]] in
  ¬ NoDup (gate_name <$> gates)
  ∧ topo_sort gates ["A"; "B"]
    = Raise (ValueError "Cyclic or unresolved gate dependencies detected").
Proof.
  assert (¬ NoDup (gate_name <$> [Gate "Y" "NOT" ["A"]; Gate "Y" "NOT" ["B"]]))
    as H by compute_done.
  split; [exact H|].
  exact (repeated_gate_name_rejected _ ["A"; "B"] H).
Defined.

Lemma release_idle node deps ready :
  (∀ hs, hs ∈ deps → hs.2 = ∅) → release node deps ready = (deps, ready).
Proof.
  revert ready. induction deps as [|[h s] deps IH]; intros ready Hall; [done|].
  cbn [release]. assert (s = ∅) as -> by (apply (Hall (h, s)); by left).
  rewrite bool_decide_false by set_solver.
  rewrite IH; [done|]. intros hs Hhs. apply Hall. by right.
Qed.

(** With nothing left to wait for, the loop empties [ready] from its end. *)
Lemma topo_loop_idle fuel type_lookup deps ready order :
  (∀ hs, hs ∈ deps → hs.2 = ∅) →
  (∀ h, h ∈ ready → is_Some (type_lookup !! h)) →
  length ready ≤ fuel →
  topo_loop fuel type_lookup deps ready order
  = Ok (order ++ reverse ((λ h, (h, default "" (type_lookup !! h))) <$> ready)).
Proof.
  intros Hall. revert ready order.
  induction fuel as [|fuel IH]; intros ready order Htl Hlen.
  { destruct ready; [|simpl in Hlen; lia]. simpl. by rewrite app_nil_r. }
  destruct ready as [|x ready _] using rev_ind.
  { simpl. by rewrite app_nil_r. }
  cbn [topo_loop]. rewrite pop_snoc.
  destruct (Htl x) as [t Ht]; [apply elem_of_app; right; by left|].
  unfold getitem. rewrite Ht. cbn [mbind result_bind].
  rewrite release_idle by done. rewrite IH.
  - rewrite fmap_app, reverse_app. simpl. rewrite Ht. simpl.
    by rewrite <- app_assoc.
  - intros h Hh. apply Htl, elem_of_app. by left.
  - rewrite length_app in Hlen. simpl in Hlen. lia.
Qed.

Lemma filter_all {A} (P : A → Prop) `{∀ x, Decision (P x)} (l : list A) :
  Forall P l → filter P l = l.
Proof.
  induction 1 as [|x l Hx _ IH]; [done|].
  rewrite filter_cons, decide_True by done. by rewrite IH.
Qed.

(** X5. When no gate takes the output of a gate as an argument, the
    resolver returns the gates in the reverse of their order of
    declaration: [ready] is used as a stack. *)
Theorem independent_gates_reverse_order (gates : list gate)
    (inputs : list string) :
  NoDup (gate_name <$> gates) →
  (∀ g a, g ∈ gates → a ∈ gate_inputs g → a ∉ gate_name <$> gates) →
  topo_sort gates inputs = Ok (reverse (entry_of <$> gates)).
Proof.
  intros Hnd Hfree. unfold topo_sort.
  assert (gate_deps gates = (λ g, (gate_name g, ∅)) <$> gates) as Hdeps.
  { rewrite gate_deps_distinct by done. apply list_fmap_ext.
    intros _ g Hg%list_elem_of_lookup_2. f_equal. apply leibniz_equiv.
    intros a. rewrite elem_of_filter, !elem_of_list_to_set.
    split; [|set_solver]. intros [Hn Ha]. by destruct (Hfree g a). }
  assert (∀ hs, hs ∈ gate_deps gates → hs.2 = ∅) as Hall.
  { rewrite Hdeps. by intros hs (g & -> & _)%list_elem_of_fmap. }
  rewrite (filter_all _ (gate_deps gates)) by (by apply Forall_forall).
  rewrite topo_loop_idle; [|done| |lia].
  - cbn [mbind result_bind app].
    assert ((λ h, (h, default "" (type_lookup gates !! h)))
              <$> (gate_deps gates).*1 = entry_of <$> gates) as ->.
    { rewrite Hdeps, <- !list_fmap_compose. apply list_fmap_ext.
      intros _ g Hg%list_elem_of_lookup_2. simpl.
      by rewrite type_lookup_distinct. }
    rewrite length_reverse, length_fmap, Nat.eqb_refl. done.
  - intros h Hh. by apply gate_deps_types.
Qed.

Lemma independent_gates_reverse_order_witness :
  let gates := [Gate "P" "AND" ["A"; "B"]; Gate "Q" "OR" ["A"; "B"];
                Gate "N" "NOT" ["A"]] in
  NoDup (gate_name <$> gates)
  ∧ (∀ g a, g ∈ gates → a ∈ gate_inputs g → a ∉ gate_name <$> gates)
  ∧ topo_sort gates ["A"; "B"] = Ok [("N", "NOT"); ("Q", "OR"); ("P", "AND")].
Proof.
  assert (NoDup (gate_name <$> [Gate "P" "AND" ["A"; "B"];
            Gate "Q" "OR" ["A"; "B"]; Gate "N" "NOT" ["A"]])) as Hnd
    by compute_done.
  assert (∀ g a, g ∈ [Gate "P" "AND" ["A"; "B"]; Gate "Q" "OR" ["A"; "B"];
                      Gate "N" "NOT" ["A"]] →
            a ∈ gate_inputs g →
            a ∉ gate_name <$> [Gate "P" "AND" ["A"; "B"];
                  Gate "Q" "OR" ["A"; "B"]; Gate "N" "NOT" ["A"]]) as Hfree.
  { intros g a Hg Ha. cases_elem_of Hg; subst g; simpl in Ha;
      cases_elem_of Ha; subst a; compute_done. }
  split; [exact Hnd|]. split; [exact Hfree|].
  exact (independent_gates_reverse_order _ ["A"; "B"] Hnd Hfree).
Defined.

(** ** The gate evaluator *)

(** X6. Whatever the kind and the arguments, a value that [eval_gate]
    returns is the text of a bit. *)
Theorem eval_gate_returns_bit (typ : string) (args : list string)
    (v : string) :
  eval_gate typ args = Ok v → is_bit v.
Proof.
  unfold eval_gate, is_bit.
  repeat match goal with
  | |- context [if ?c then _ else _] => destruct c
  | |- context [index ?l ?i] => destruct (index l i); cbn [mbind result_bind]
  end; intros [= <-]; auto.
Qed.

Lemma eval_gate_returns_bit_witness :
  eval_gate "XOR" ["x"; "y"] = Ok "1" ∧ is_bit "1".
Proof.
  assert (eval_gate "XOR" ["x"; "y"] = Ok "1") as H by reflexivity.
  split; [exact H|]. exact (eval_gate_returns_bit _ _ _ H).
Defined.

(** ** The simulation and the document *)

Lemma for_each_invariant {A S} (P : S → Prop) (body : S → A → result S)
    xs s s' :
  (∀ s x s', body s x = Ok s' → P s → P s') →
  P s → for_each body xs s = Ok s' → P s'.
Proof.
  intros Hstep. revert s. induction xs as [|x xs IH]; intros s Hs; simpl.
  - by intros [= <-].
  - destruct (body s x) as [s1| |] eqn:Hx; simpl; [|done..]. eauto.
Qed.

Lemma record_dom (signals waves waves' : gmap string string) a :
  record signals waves a = Ok waves' → dom waves' = dom waves.
Proof.
  unfold record, getitem. destruct (waves !! a) as [u|] eqn:Hu; [|done].
  destruct (signals !! a) as [v|]; [|done]. simpl. intros [= <-].
  rewrite dom_insert_L. apply elem_of_dom_2 in Hu. set_solver.
Qed.

Lemma simulate_event_dom inputs outputs gates order st ev st' :
  simulate_event inputs outputs gates order st ev = Ok st' →
  dom st'.2 = dom st.2.
Proof.
  destruct st as [signals waves], ev as [t values]. cbn [simulate_event].
  destruct (for_each (eval_step gates) order _) as [sg| |]; [|done..].
  cbn [mbind result_bind].
  destruct (for_each (record sg) inputs waves) as [w1| |] eqn:H1; [|done..].
  cbn [mbind result_bind].
  destruct (for_each (record sg) outputs w1) as [w2| |] eqn:H2; [|done..].
  cbn [mbind result_bind]. intros [= <-]. simpl.
  apply (for_each_invariant (λ w, dom w = dom waves)) in H1;
    [|intros ???? <-; by eapply record_dom|done].
  apply (for_each_invariant (λ w, dom w = dom waves)) in H2;
    [done|intros ???? <-; by eapply record_dom|done].
Qed.

Lemma empty_waves_dom names :
  dom (empty_waves names) = list_to_set names.
Proof.
  apply set_eq. intros x. rewrite elem_of_dom, empty_waves_lookup.
  rewrite elem_of_list_to_set. case_bool_decide; [|by rewrite is_Some_alt].
  split; eauto.
Qed.

(** The keys of [waves] are fixed when it is created. *)
Lemma simulate_dom (inputs outputs : list string)
    (gates : list gate) (stimuli : list stimulus)
    (waves : gmap string string) :
  simulate (inputs, outputs, gates, stimuli) = Ok waves →
  dom waves = list_to_set (inputs ++ outputs).
Proof.
  unfold simulate, simulate_with.
  destruct (topo_sort gates inputs) as [order| |]; [|done..].
  cbn [mbind result_bind].
  destruct (for_each _ stimuli _) as [st| |] eqn:Hrun; [|done..].
  cbn [mbind result_bind]. intros [= <-].
  apply (for_each_invariant
           (λ st, dom st.2 = list_to_set (inputs ++ outputs))) in Hrun.
  - done.
  - intros s ev s' Hev <-. by eapply simulate_event_dom.
  - apply empty_waves_dom.
Qed.

(** X7. Whenever the simulation succeeds, on any netlist, the traces it
    returns are those of the primary inputs and outputs and of no other
    name. *)
Theorem simulate_tracked_names (inputs outputs : list string)
    (gates : list gate) (stimuli : list stimulus)
    (waves : gmap string string) (x : string) :
  simulate (inputs, outputs, gates, stimuli) = Ok waves →
  is_Some (waves !! x) ↔ x ∈ inputs ∨ x ∈ outputs.
Proof.
  intros Hdom%simulate_dom.
  rewrite <- elem_of_dom, Hdom, elem_of_list_to_set. apply elem_of_app.
Qed.

Lemma simulate_tracked_names_witness :
  simulate (["A"], ["Y"], [Gate "Y" "NOT" ["A"]], [(0%Z, ["1"])])
    = Ok (<["A" := "1"]> (<["Y" := "0"]> ∅))
  ∧ (is_Some ((<["A" := "1"]> (<["Y" := "0"]> ∅) : gmap string string) !! "N")
     ↔ "N" ∈ ["A"] ∨ "N" ∈ ["Y"]).
Proof.
  assert (simulate (["A"], ["Y"], [Gate "Y" "NOT" ["A"]], [(0%Z, ["1"])])
          = Ok (<["A" := "1"]> (<["Y" := "0"]> ∅))) as H
    by (vm_compute; reflexivity).
  split; [exact H|]. exact (simulate_tracked_names _ _ _ _ _ "N" H).
Defined.

(** X8. With no stimulus event the simulation checks nothing but the
    resolver's conditions: for distinct gate names without a cycle it
    returns an empty trace for every tracked name, even when arguments or
    outputs are undefined. *)
Theorem simulate_no_events (inputs outputs : list string)
    (gates : list gate) :
  NoDup (gate_name <$> gates) →
  acyclic gates →
  simulate (inputs, outputs, gates, []) = Ok (empty_waves (inputs ++ outputs)).
Proof.
  intros Hnd Hacyc.
  destruct (topo_sort_complete gates inputs Hnd Hacyc) as [order Hsort].
  unfold simulate. by rewrite Hsort.
Qed.

Lemma lone_gate_acyclic : acyclic [Gate "C" "AND" ["A"; "X"]].
Proof.
  apply no_dependencies_acyclic. intros g a Hg Ha.
  cases_elem_of Hg. subst g. simpl in *. cases_elem_of Ha; subst a;
    compute_done.
Qed.

Lemma simulate_no_events_witness :
  let gates := [Gate "C" "AND" ["A"; "X"]] in
  NoDup (gate_name <$> gates) ∧ acyclic gates
  ∧ simulate (["A"], ["C"; "Q"], gates, [])
    = Ok (empty_waves (["A"] ++ ["C"; "Q"])).
Proof.
  assert (NoDup (gate_name <$> [Gate "C" "AND" ["A"; "X"]])) as Hnd
    by compute_done.
  split; [exact Hnd|]. split; [exact lone_gate_acyclic|].
  exact (simulate_no_events ["A"] ["C"; "Q"] _ Hnd lone_gate_acyclic).
Defined.

Lemma signal_list_entries names (waves : gmap string string) :
  (∀ x, x ∈ names → is_Some (waves !! x)) →
  ∃ entries,
    map_result (λ name, w ← getitem waves name; Ok (name, w)) names
      = Ok entries
    ∧ entries.*1 = names
    ∧ Forall (λ e, waves !! e.1 = Some e.2) entries.
Proof.
  induction names as [|a names IH]; intros Hdef.
  { exists []. by split_and!. }
  destruct (Hdef a) as [u Hu]; [by left|].
  destruct IH as (entries & Hrun & Hnames & Hall).
  { intros x Hx. apply Hdef. by right. }
  exists ((a, u) :: entries). unfold getitem in *. simpl.
  rewrite Hu. simpl. rewrite Hrun. simpl.
  split_and!; [done|by f_equal|by apply Forall_cons].
Qed.

(** X9. After a successful simulation [to_wavedrom_json] never fails: it
    writes one entry per primary input and output, inputs first and in the
    order of declaration, each with the trace of its name. *)
Theorem wavedrom_after_simulate (inputs outputs : list string)
    (gates : list gate) (stimuli : list stimulus)
    (waves : gmap string string) :
  simulate (inputs, outputs, gates, stimuli) = Ok waves →
  ∃ entries,
    to_wavedrom_json inputs outputs waves = Ok (json_document entries)
    ∧ entries.*1 = inputs ++ outputs
    ∧ Forall (λ e, waves !! e.1 = Some e.2) entries.
Proof.
  intros Hdom%simulate_dom.
  destruct (signal_list_entries (inputs ++ outputs) waves)
    as (entries & Hrun & Hnames & Hall).
  { intros x Hx. apply elem_of_dom. rewrite Hdom.
    by apply elem_of_list_to_set. }
  exists entries. unfold to_wavedrom_json, signal_list. by rewrite Hrun.
Qed.

Lemma wavedrom_after_simulate_witness :
  simulate (["A"], ["Y"], [Gate "Y" "NOT" ["A"]], [(0%Z, ["1"])])
    = Ok (<["A" := "1"]> (<["Y" := "0"]> ∅))
  ∧ ∃ entries,
      to_wavedrom_json ["A"] ["Y"] (<["A" := "1"]> (<["Y" := "0"]> ∅))
        = Ok (json_document entries)
      ∧ entries.*1 = ["A"] ++ ["Y"]
      ∧ Forall (λ e, (<["A" := "1"]> (<["Y" := "0"]> ∅) : gmap string string)
                       !! e.1 = Some e.2) entries.
Proof.
  assert (simulate (["A"], ["Y"], [Gate "Y" "NOT" ["A"]], [(0%Z, ["1"])])
          = Ok (<["A" := "1"]> (<["Y" := "0"]> ∅))) as H
    by (vm_compute; reflexivity).
  split; [exact H|]. exact (wavedrom_after_simulate _ _ _ _ _ H).
Defined.

Lemma json_escape_safe c : str_all json_safe (json_escape c) = true.
Proof. destruct c as [[] [] [] [] [] [] [] []]; reflexivity. Qed.

Lemma json_string_safe s : str_all json_safe (json_string s) = true.
Proof.
  unfold json_string. cbn [str_all].
  rewrite str_all_app. simpl. rewrite andb_true_r.
  induction s as [|c s IH]; [done|].
  cbn [json_escape_all]. by rewrite str_all_app, json_escape_safe, IH.
Qed.

Lemma join_all p sep items :
  str_all p sep = true → Forall (λ x, str_all p x = true) items →
  str_all p (join sep items) = true.
Proof.
  intros Hsep. induction 1 as [|x items Hx Hitems IH]; [done|].
  destruct items as [|y items]; [done|].
  change (join sep (x :: y :: items))
    with (x +:+ sep +:+ join sep (y :: items)).
  by rewrite !str_all_app, Hx, Hsep, IH.
Qed.

Lemma json_entry_safe e : str_all json_safe (json_entry e) = true.
Proof.
  unfold json_entry. rewrite !str_all_app, !json_string_safe. reflexivity.
Qed.

Lemma json_document_safe entries :
  str_all json_safe (json_document entries) = true.
Proof.
  unfold json_document. rewrite !str_all_app, json_string_safe.
  destruct entries as [|e entries]; [reflexivity|].
  rewrite !str_all_app, join_all; [reflexivity|reflexivity|].
  apply Forall_fmap, Forall_forall. intros e' _. apply json_entry_safe.
Qed.

(** X10. The document [to_wavedrom_json] returns consists of printable
    ASCII characters and line feeds only, whatever characters the names
    have. *)
Theorem wavedrom_is_ascii (inputs outputs : list string)
    (waves : gmap string string) (js : string) :
  to_wavedrom_json inputs outputs waves = Ok js →
  str_all json_safe js = true.
Proof.
  unfold to_wavedrom_json.
  destruct (signal_list inputs outputs waves) as [entries| |]; [|done..].
  cbn [mbind result_bind]. intros [= <-]. apply json_document_safe.
Qed.

Lemma wavedrom_is_ascii_witness :
  let waves : gmap string string :=
    <[String "233" (String quote "A") := "01"]> ∅ in
  ∃ js,
    to_wavedrom_json [String "233" (String quote "A")] [] waves = Ok js
    ∧ str_all json_safe js = true.
Proof.
  eexists. split; [vm_compute; reflexivity|].
  apply (wavedrom_is_ascii [String "233" (String quote "A")] []
           (<[String "233" (String quote "A") := "01"]> ∅)).
  vm_compute. reflexivity.
Defined.

(** ** Events do not influence each other *)

Lemma string_app_nil_r (u : string) : u +:+ "" = u.
Proof.
  induction u as [|c u IH]; [done|]. rewrite string_app_cons. by f_equal.
Qed.

Lemma recorded_app signals l k x :
  recorded signals (l ++ k) x = recorded signals l x +:+ recorded signals k x.
Proof.
  induction l as [|a l IH]; [done|].
  cbn [app recorded]. by rewrite IH, string_app_assoc.
Qed.

Lemma recorded_ext (s1 s2 : gmap string string) names x :
  (∀ a, a ∈ names → s1 !! a = s2 !! a) →
  recorded s1 names x = recorded s2 names x.
Proof.
  induction names as [|a names IH]; intros Hext; [done|].
  cbn [recorded]. rewrite (Hext a) by (by left).
  rewrite IH; [done|]. intros b Hb. apply Hext. by right.
Qed.

Lemma recorded_absent signals names x :
  x ∉ names → recorded signals names x = "".
Proof.
  induction names as [|a names IH]; intros Hx; [done|].
  apply not_elem_of_cons in Hx as [Hne Hx].
  cbn [recorded]. rewrite bool_decide_false by done. by rewrite IH.
Qed.

Lemma recorded_once signals names x :
  NoDup names → x ∈ names →
  recorded signals names x = default "" (signals !! x).
Proof.
  induction 1 as [|a names Ha _ IH]; intros Hx.
  { by apply elem_of_nil in Hx. }
  cbn [recorded]. case_bool_decide as Heq.
  - subst a. by rewrite recorded_absent, string_app_nil_r.
  - apply elem_of_cons in Hx as [->|Hx]; [done|]. by rewrite IH.
Qed.

(** Recording [names] appends [recorded] to every trace. *)
Lemma record_all_text (signals waves : gmap string string) names :
  (∀ x, x ∈ names → is_Some (waves !! x)) →
  (∀ x, x ∈ names → is_Some (signals !! x)) →
  ∃ waves',
    for_each (record signals) names waves = Ok waves'
    ∧ ∀ x, waves' !! x
           = (λ u, u +:+ recorded signals names x) <$> waves !! x.
Proof.
  revert waves. induction names as [|a names IH]; intros waves Hw Hs.
  { exists waves. split; [done|]. intros x. cbn [recorded].
    destruct (waves !! x); simpl; [|done]. by rewrite string_app_nil_r. }
  destruct (Hw a) as [u Hu]; [by left|].
  destruct (Hs a) as [v Hv]; [by left|].
  destruct (IH (<[a := u +:+ v]> waves)) as (waves' & Hrun & Htext).
  - intros x Hx. apply lookup_insert_is_Some'. right. apply Hw. by right.
  - intros x Hx. apply Hs. by right.
  - exists waves'. split.
    + simpl. by rewrite (record_ok _ _ _ _ _ Hu Hv).
    + intros x. rewrite Htext. cbn [recorded].
      destruct (decide (a = x)) as [->|Hne].
      * rewrite lookup_insert_eq, Hu, Hv, bool_decide_true by done. simpl.
        by rewrite string_app_assoc.
      * rewrite lookup_insert_ne, bool_decide_false by done.
        by rewrite string_app_nil.
Qed.

(** The value bound to a primary input does not depend on the signals of
    earlier events. *)
Lemma bind_inputs_fresh s1 s2 inputs values a :
  length values = length inputs → a ∈ inputs →
  bind_inputs s1 inputs values !! a = bind_inputs s2 inputs values !! a.
Proof.
  unfold bind_inputs. revert values.
  induction inputs as [|x inputs IH] using rev_ind; intros values Hlen Ha.
  { by apply elem_of_nil in Ha. }
  destruct values as [|y values _] using rev_ind.
  { rewrite length_app in Hlen. simpl in Hlen. lia. }
  rewrite !length_app in Hlen. simpl in Hlen.
  rewrite zip_with_app by lia. rewrite !foldl_app. simpl.
  destruct (decide (x = a)) as [->|Hne].
  - by rewrite !lookup_insert_eq.
  - rewrite !lookup_insert_ne by done.
    apply elem_of_app in Ha as [Ha|Ha%list_elem_of_singleton]; [|done].
    apply IH; [lia|done].
Qed.

(** Signals that solve the gates from two starts with the same primary
    inputs agree on the primary inputs and on the gates. *)
Lemma solved_agree inputs gates start1 start2 order s1 s2 x :
  gates_ok inputs gates →
  topological gates order →
  (∀ a, a ∈ inputs → start1 !! a = start2 !! a) →
  solved gates start1 order s1 → solved gates start2 order s2 →
  x ∈ inputs ∨ x ∈ gate_name <$> gates →
  s1 !! x = s2 !! x.
Proof.
  intros [Hnames Hkinds Hargs] Ht Hstart [Hout1 Hin1] [Hout2 Hin2] Hx.
  pose proof (topological_names _ _ Ht) as Hp.
  assert (∀ a, a ∈ inputs → a ∉ gate_name <$> gates → s1 !! a = s2 !! a)
    as Hinputs.
  { intros a Ha Hn. rewrite Hout1, Hout2 by (by rewrite Hp). by apply Hstart. }
  assert (∀ i y, order.*1 !! i = Some y → s1 !! y = s2 !! y) as Hgates.
  { intros i. induction (lt_wf i) as [i _ IH]. intros y Hi.
    assert (y ∈ gate_name <$> gates) as Hy.
    { rewrite <- Hp. by eapply list_elem_of_lookup_2. }
    apply list_elem_of_fmap in Hy as (g & -> & Hg).
    assert (gate_name g ∈ order.*1) as Hgo
      by (by eapply list_elem_of_lookup_2).
    destruct (Hin1 g Hg Hgo) as (vals1 & v1 & Hvals1 & Hv1 & ->).
    destruct (Hin2 g Hg Hgo) as (vals2 & v2 & Hvals2 & Hv2 & ->).
    assert (map_result (getitem s1) (gate_inputs g)
            = map_result (getitem s2) (gate_inputs g)) as Heq.
    { apply map_result_ext. intros a Ha. unfold getitem.
      destruct (decide (a ∈ gate_name <$> gates)) as [Hn|Hn].
      - destruct Ht as [_ Hsorted].
        destruct (Hsorted i (gate_name g) a Hi) as (j & Hlt & Hj).
        { by exists g. }
        by rewrite (IH j Hlt a Hj).
      - rewrite Hinputs; [done| |done].
        by destruct (Hargs g a Hg Ha). }
    congruence. }
  destruct (decide (x ∈ gate_name <$> gates)) as [Hg|Hg].
  - rewrite <- Hp in Hg. apply list_elem_of_lookup in Hg as [i Hi]. eauto.
  - destruct Hx as [Hx|Hx]; [|done]. by apply Hinputs.
Qed.

(** One event adds to every trace what the event adds on its own. *)
Lemma simulate_event_text inputs outputs gates order signals waves ev :
  gates_ok inputs gates →
  topological gates order →
  length ev.2 = length inputs →
  outputs_ok inputs outputs gates →
  (∀ x, x ∈ inputs ++ outputs → is_Some (waves !! x)) →
  ∃ signals' waves',
    simulate_event inputs outputs gates order (signals, waves) ev
      = Ok (signals', waves')
    ∧ ∀ x, waves' !! x
           = (λ u, u +:+ event_text inputs outputs gates order x ev)
             <$> waves !! x.
Proof.
  intros Hok Htopo Hlen Hout Hw. destruct ev as [t values]. simpl in Hlen.
  assert (∀ s a, a ∈ inputs →
            is_Some (bind_inputs s inputs values !! a)) as Hbound.
  { intros s a Ha.
    destruct (bind_inputs_lookup s inputs values a) as (v & _ & ->); done. }
  destruct (eval_order_total inputs gates
              (bind_inputs signals inputs values) order Hok Htopo (Hbound _))
    as (s1 & Hrun1 & Hs1).
  destruct (eval_order_total inputs gates
              (bind_inputs ∅ inputs values) order Hok Htopo (Hbound _))
    as (s0 & Hrun0 & Hs0).
  assert (∀ x, x ∈ inputs ++ outputs → s1 !! x = s0 !! x) as Hsame.
  { intros x Hx.
    eapply (solved_agree inputs gates _ _ order); [done..| | | |].
    - intros a Ha. by apply bind_inputs_fresh.
    - done.
    - done.
    - apply elem_of_app in Hx as [Hx|Hx]; [by left|by apply Hout]. }
  assert (∀ x, x ∈ inputs ++ outputs → is_Some (s1 !! x)) as Hsig.
  { intros x Hx.
    destruct (event_signal inputs gates signals values order s1 x)
      as (v & -> & _); try done.
    apply elem_of_app in Hx as [Hx|Hx]; [by left|by apply Hout]. }
  destruct (record_all_text s1 waves inputs) as (w1 & Hr1 & Ht1).
  { intros x Hx. apply Hw, elem_of_app. by left. }
  { intros x Hx. apply Hsig, elem_of_app. by left. }
  destruct (record_all_text s1 w1 outputs) as (w2 & Hr2 & Ht2).
  { intros x Hx. rewrite Ht1. apply fmap_is_Some, Hw, elem_of_app. by right. }
  { intros x Hx. apply Hsig, elem_of_app. by right. }
  exists s1, w2. split.
  - cbn [simulate_event]. rewrite Hrun1. cbn [mbind result_bind].
    rewrite Hr1. cbn [mbind result_bind]. rewrite Hr2. done.
  - intros x. rewrite Ht2, Ht1. unfold event_text, settle. simpl.
    rewrite Hrun0, recorded_app.
    rewrite (recorded_ext s0 s1 inputs), (recorded_ext s0 s1 outputs).
    + destruct (waves !! x); simpl; [|done]. by rewrite string_app_assoc.
    + intros a Ha. symmetry. apply Hsame, elem_of_app. by right.
    + intros a Ha. symmetry. apply Hsame, elem_of_app. by left.
Qed.

Lemma concat_text_app l k :
  concat_text (l ++ k) = concat_text l +:+ concat_text k.
Proof.
  induction l as [|u l IH]; [done|].
  cbn [app]. unfold concat_text in *. cbn [foldr].
  by rewrite IH, string_app_assoc.
Qed.

Lemma simulate_events_text inputs outputs gates order stimuli signals waves :
  gates_ok inputs gates →
  topological gates order →
  stimuli_ok inputs stimuli →
  outputs_ok inputs outputs gates →
  (∀ x, x ∈ inputs ++ outputs → is_Some (waves !! x)) →
  ∃ signals' waves',
    for_each (simulate_event inputs outputs gates order) stimuli
      (signals, waves) = Ok (signals', waves')
    ∧ ∀ x, waves' !! x
           = (λ u, u +:+ concat_text
                (event_text inputs outputs gates order x <$> stimuli))
             <$> waves !! x.
Proof.
  intros Hok Htopo Hstim Hout. revert signals waves.
  induction Hstim as [|ev stimuli Hev _ IH]; intros signals waves Hw.
  { exists signals, waves. split; [done|]. intros x.
    destruct (waves !! x); simpl; [|done]. by rewrite string_app_nil_r. }
  destruct (simulate_event_text inputs outputs gates order signals waves ev)
    as (s1 & w1 & Hrun1 & Ht1); [done..|].
  destruct (IH s1 w1) as (s2 & w2 & Hrun2 & Ht2).
  { intros x Hx. rewrite Ht1. by apply fmap_is_Some, Hw. }
  exists s2, w2. split.
  - change (simulate_event inputs outputs gates order (signals, waves) ev
            ≫= for_each (simulate_event inputs outputs gates order) stimuli
            = Ok (s2, w2)).
    rewrite Hrun1. exact Hrun2.
  - intros x. rewrite Ht2, Ht1. rewrite fmap_cons.
    change (concat_text (?a :: ?l)) with (a +:+ concat_text l).
    destruct (waves !! x); simpl; [|done]. by rewrite string_app_assoc.
Qed.

(** The traces of a simulation are, event by event, what each event gives
    on its own. *)
Lemma simulate_text inputs outputs gates stimuli :
  gates_ok inputs gates →
  acyclic gates →
  outputs_ok inputs outputs gates →
  stimuli_ok inputs stimuli →
  ∃ order waves,
    topo_sort gates inputs = Ok order
    ∧ topological gates order
    ∧ simulate (inputs, outputs, gates, stimuli) = Ok waves
    ∧ ∀ x, x ∈ inputs ++ outputs →
        waves !! x
        = Some (concat_text
                  (event_text inputs outputs gates order x <$> stimuli)).
Proof.
  intros Hok Hacyc Hout Hstim.
  destruct (topo_sort_complete gates inputs) as [order Hsort];
    [by destruct Hok|done|].
  destruct (topo_sort_sound _ _ _ Hsort) as [_ Htopo].
  destruct (simulate_events_text inputs outputs gates order stimuli ∅
              (empty_waves (inputs ++ outputs))) as (s & w & Hrun & Htext);
    try done.
  { intros x Hx. rewrite empty_waves_lookup, bool_decide_true by done. eauto. }
  exists order, w. split_and!; [done..| |].
  - unfold simulate. rewrite Hsort. simpl. by rewrite Hrun.
  - intros x Hx. rewrite Htext, empty_waves_lookup, bool_decide_true by done.
    done.
Qed.

Lemma bind_inputs_nth signals inputs values i a v :
  NoDup inputs → inputs !! i = Some a → values !! i = Some v →
  bind_inputs signals inputs values !! a = Some v.
Proof.
  intros Hnd. revert signals values i.
  induction Hnd as [|x inputs Hx _ IH]; intros signals values i Hi Hv.
  { by rewrite lookup_nil in Hi. }
  destruct values as [|y values]; [by rewrite lookup_nil in Hv|].
  change (bind_inputs signals (x :: inputs) (y :: values))
    with (bind_inputs (<[x := y]> signals) inputs values).
  destruct i as [|i]; simpl in Hi, Hv.
  - injection Hi as ->. injection Hv as ->.
    rewrite bind_inputs_other by done. by rewrite lookup_insert_eq.
  - by eapply IH.
Qed.

Lemma inverter_outputs_ok :
  outputs_ok ["A"] ["A"; "Y"] [Gate "Y" "NOT" ["A"]].
Proof.
  intros o Ho. cases_elem_of Ho; subst o; [left|right]; compute_done.
Qed.

Lemma two_events_ok : stimuli_ok ["A"] [(0%Z, ["1"]); (1%Z, ["0"])].
Proof. repeat constructor. Qed.

Lemma two_events_binary : stimuli_binary [(0%Z, ["1"]); (1%Z, ["0"])].
Proof.
  apply Forall_cons_2; [apply Forall_cons_2; [by right|apply Forall_nil_2]|].
  apply Forall_cons_2; [apply Forall_cons_2; [by left|apply Forall_nil_2]|].
  apply Forall_nil_2.
Qed.

(** X11. For a netlist with well-formed gates, defined arguments and
    outputs, no cycle and one bit per input in every event, the simulation
    succeeds and the trace of a tracked name has as many characters as
    there are events, times the number of listings of the name among the
    inputs and outputs; so exactly one per event when the tracked names are
    distinct. *)
Theorem trace_length_formula (inputs outputs : list string)
    (gates : list gate) (stimuli : list stimulus) :
  gates_ok inputs gates →
  acyclic gates →
  outputs_ok inputs outputs gates →
  stimuli_ok inputs stimuli →
  stimuli_binary stimuli →
  ∃ waves,
    simulate (inputs, outputs, gates, stimuli) = Ok waves
    ∧ (∀ x, x ∈ inputs ++ outputs →
         trace_length waves x =
           Some (length stimuli * occurrences x (inputs ++ outputs)))
    ∧ (NoDup (inputs ++ outputs) →
       ∀ x, x ∈ inputs ++ outputs →
         trace_length waves x = Some (length stimuli)).
Proof.
  intros Hok Hacyc Hout Hstim Hbin.
  destruct (simulate_trace_lengths inputs outputs gates stimuli)
    as (waves & Hsim & Hlen); [done..|].
  exists waves. split_and!; [done|by apply Hlen|].
  intros Hnd x Hx. rewrite (Hlen Hbin x Hx), occurrences_NoDup by done.
  f_equal. lia.
Qed.

Lemma trace_length_formula_witness :
  let inputs := ["A"] in
  let outputs := ["A"; "Y"] in
  let gates := [Gate "Y" "NOT" ["A"]] in
  let stimuli := [(0%Z, ["1"]); (1%Z, ["0"])] in
  gates_ok inputs gates ∧ acyclic gates ∧ outputs_ok inputs outputs gates
  ∧ stimuli_ok inputs stimuli ∧ stimuli_binary stimuli
  ∧ ∃ waves,
      simulate (inputs, outputs, gates, stimuli) = Ok waves
      ∧ (∀ x, x ∈ inputs ++ outputs →
           trace_length waves x =
             Some (length stimuli * occurrences x (inputs ++ outputs)))
      ∧ (NoDup (inputs ++ outputs) →
         ∀ x, x ∈ inputs ++ outputs →
           trace_length waves x = Some (length stimuli)).
Proof.
  split_and!; [exact inverter_gates_ok|exact inverter_acyclic|
               exact inverter_outputs_ok|exact two_events_ok|
               exact two_events_binary|].
  exact (trace_length_formula ["A"] ["A"; "Y"] _ _ inverter_gates_ok
           inverter_acyclic inverter_outputs_ok two_events_ok
           two_events_binary).
Defined.

(** X12. Events have no memory: although [signals] is kept from one event
    to the next, the trace of every tracked name is the concatenation,
    event by event, of what the event gives when it is simulated alone
    from empty signals, in the order of the resolver. *)
Theorem events_independent (inputs outputs : list string)
    (gates : list gate) (stimuli : list stimulus) :
  gates_ok inputs gates →
  acyclic gates →
  outputs_ok inputs outputs gates →
  stimuli_ok inputs stimuli →
  ∃ order waves,
    topo_sort gates inputs = Ok order
    ∧ simulate (inputs, outputs, gates, stimuli) = Ok waves
    ∧ ∀ x, x ∈ inputs ++ outputs →
        waves !! x
        = Some (concat_text
                  (event_text inputs outputs gates order x <$> stimuli)).
Proof.
  intros Hok Hacyc Hout Hstim.
  destruct (simulate_text inputs outputs gates stimuli Hok Hacyc Hout Hstim)
    as (order & waves & Hsort & _ & Hsim & Htext).
  by exists order, waves.
Qed.

Lemma events_independent_witness :
  let inputs := ["A"] in
  let outputs := ["A"; "Y"] in
  let gates := [Gate "Y" "NOT" ["A"]] in
  let stimuli := [(0%Z, ["1"]); (1%Z, ["0"])] in
  gates_ok inputs gates ∧ acyclic gates ∧ outputs_ok inputs outputs gates
  ∧ stimuli_ok inputs stimuli
  ∧ ∃ order waves,
      topo_sort gates inputs = Ok order
      ∧ simulate (inputs, outputs, gates, stimuli) = Ok waves
      ∧ ∀ x, x ∈ inputs ++ outputs →
          waves !! x
          = Some (concat_text
                    (event_text inputs outputs gates order x <$> stimuli)).
Proof.
  split_and!; [exact inverter_gates_ok|exact inverter_acyclic|
               exact inverter_outputs_ok|exact two_events_ok|].
  exact (events_independent ["A"] ["A"; "Y"] _ _ inverter_gates_ok
           inverter_acyclic inverter_outputs_ok two_events_ok).
Defined.

(** X13. Simulating one stimulus sequence after another gives, for every
    tracked name, the trace of the first followed by the trace of the
    second. *)
Theorem simulate_app (inputs outputs : list string) (gates : list gate)
    (stimuli1 stimuli2 : list stimulus) :
  gates_ok inputs gates →
  acyclic gates →
  outputs_ok inputs outputs gates →
  stimuli_ok inputs stimuli1 →
  stimuli_ok inputs stimuli2 →
  ∃ waves waves1 waves2,
    simulate (inputs, outputs, gates, stimuli1 ++ stimuli2) = Ok waves
    ∧ simulate (inputs, outputs, gates, stimuli1) = Ok waves1
    ∧ simulate (inputs, outputs, gates, stimuli2) = Ok waves2
    ∧ ∀ x, x ∈ inputs ++ outputs →
        ∃ u v, waves1 !! x = Some u ∧ waves2 !! x = Some v
               ∧ waves !! x = Some (u +:+ v).
Proof.
  intros Hok Hacyc Hout Hs1 Hs2.
  destruct (simulate_text inputs outputs gates (stimuli1 ++ stimuli2))
    as (o & w & Ho & _ & Hw & Ht); [done..|by apply Forall_app|].
  destruct (simulate_text inputs outputs gates stimuli1)
    as (o1 & w1 & Ho1 & _ & Hw1 & Ht1); [done..|].
  destruct (simulate_text inputs outputs gates stimuli2)
    as (o2 & w2 & Ho2 & _ & Hw2 & Ht2); [done..|].
  assert (o1 = o) as -> by congruence. assert (o2 = o) as -> by congruence.
  exists w, w1, w2. split_and!; [done..|]. intros x Hx.
  eexists _, _. split_and!; [by apply Ht1|by apply Ht2|].
  by rewrite (Ht x Hx), fmap_app, concat_text_app.
Qed.

Lemma simulate_app_witness :
  let inputs := ["A"] in
  let outputs := ["A"; "Y"] in
  let gates := [Gate "Y" "NOT" ["A"]] in
  let stimuli := [(0%Z, ["1"]); (1%Z, ["0"])] in
  gates_ok inputs gates ∧ acyclic gates ∧ outputs_ok inputs outputs gates
  ∧ stimuli_ok inputs stimuli
  ∧ ∃ waves waves1 waves2,
      simulate (inputs, outputs, gates, stimuli ++ stimuli) = Ok waves
      ∧ simulate (inputs, outputs, gates, stimuli) = Ok waves1
      ∧ simulate (inputs, outputs, gates, stimuli) = Ok waves2
      ∧ ∀ x, x ∈ inputs ++ outputs →
          ∃ u v, waves1 !! x = Some u ∧ waves2 !! x = Some v
                 ∧ waves !! x = Some (u +:+ v).
Proof.
  split_and!; [exact inverter_gates_ok|exact inverter_acyclic|
               exact inverter_outputs_ok|exact two_events_ok|].
  exact (simulate_app ["A"] ["A"; "Y"] _ _ _ inverter_gates_ok
           inverter_acyclic inverter_outputs_ok two_events_ok two_events_ok).
Defined.

(** X14. The trace of a primary input that is declared once, is no gate and
    is not listed as an output is its column of the stimulus: the values
    given to it, event after event. *)
Theorem input_trace_is_stimulus_column (inputs outputs : list string)
    (gates : list gate) (stimuli : list stimulus) (i : nat) (a : string) :
  gates_ok inputs gates →
  acyclic gates →
  outputs_ok inputs outputs gates →
  stimuli_ok inputs stimuli →
  NoDup inputs →
  inputs !! i = Some a →
  a ∉ outputs →
  a ∉ gate_name <$> gates →
  ∃ waves,
    simulate (inputs, outputs, gates, stimuli) = Ok waves
    ∧ waves !! a
      = Some (concat_text ((λ ev : stimulus, default "" (ev.2 !! i))
                           <$> stimuli)).
Proof.
  intros Hok Hacyc Hout Hstim Hnd Hi Hao Hag.
  destruct (simulate_text inputs outputs gates stimuli Hok Hacyc Hout Hstim)
    as (order & waves & Hsort & Htopo & Hsim & Htext).
  assert (a ∈ inputs) as Ha by (by eapply list_elem_of_lookup_2).
  exists waves. split; [done|].
  rewrite Htext by (apply elem_of_app; by left). do 2 f_equal.
  apply list_fmap_ext. intros k [t values] Hev%list_elem_of_lookup_2.
  eapply Forall_forall in Hstim; [|exact Hev]. simpl in Hstim.
  unfold event_text, settle. cbn [snd].
  destruct (eval_order_total inputs gates (bind_inputs ∅ inputs values) order
              Hok Htopo) as (s0 & -> & [Hs0 _]).
  { intros b Hb.
    destruct (bind_inputs_lookup ∅ inputs values b) as (v & _ & ->); done. }
  rewrite recorded_app, (recorded_absent _ outputs) by done.
  rewrite string_app_nil_r, recorded_once by done.
  rewrite Hs0 by (by rewrite (topological_names _ _ Htopo)).
  destruct (lookup_lt_is_Some_2 values i) as [v Hv].
  { rewrite Hstim. by eapply lookup_lt_Some. }
  by rewrite (bind_inputs_nth _ _ _ _ _ _ Hnd Hi Hv), Hv.
Qed.

Lemma input_trace_is_stimulus_column_witness :
  let inputs := ["A"] in
  let gates := [Gate "Y" "NOT" ["A"]] in
  let stimuli := [(0%Z, ["1"]); (1%Z, ["0"])] in
  gates_ok inputs gates ∧ acyclic gates ∧ outputs_ok inputs ["Y"] gates
  ∧ stimuli_ok inputs stimuli ∧ NoDup inputs ∧ inputs !! 0 = Some "A"
  ∧ ("A" ∉ ["Y"]) ∧ ("A" ∉ gate_name <$> gates)
  ∧ ∃ waves,
      simulate (inputs, ["Y"], gates, stimuli) = Ok waves
      ∧ waves !! "A"
        = Some (concat_text ((λ ev : stimulus, default "" (ev.2 !! 0))
                             <$> stimuli)).
Proof.
  assert (outputs_ok ["A"] ["Y"] [Gate "Y" "NOT" ["A"]]) as Ho.
  { intros o Ho. cases_elem_of Ho. subst o. right. compute_done. }
  assert (NoDup ["A"]) as Hnd by compute_done.
  assert ("A" ∉ ["Y"]) as H1 by compute_done.
  assert ("A" ∉ gate_name <$> [Gate "Y" "NOT" ["A"]]) as H2 by compute_done.
  split_and!; [exact inverter_gates_ok|exact inverter_acyclic|exact Ho|
               exact two_events_ok|exact Hnd|reflexivity|exact H1|exact H2|].
  exact (input_trace_is_stimulus_column ["A"] ["Y"] _ _ 0 "A"
           inverter_gates_ok inverter_acyclic Ho two_events_ok Hnd eq_refl
           H1 H2).
Defined.

(** ** The parser *)

(** X15. A document that parses has at least one input, one output and one
    gate; its gates have distinct names, none of them the name of a primary
    input, and each has one of the four kinds with the arity of its kind;
    every event has one value per primary input, each the text of a bit. *)
Theorem parsed_netlist_well_formed (text : string)
    (inputs outputs : list string) (gates : list gate)
    (stimuli : list stimulus) :
  parse_netlist text = Ok (inputs, outputs, gates, stimuli) →
  inputs ≠ [] ∧ outputs ≠ [] ∧ gates ≠ []
  ∧ NoDup (gate_name <$> gates)
  ∧ (∀ g, g ∈ gates → gate_name g ∉ inputs)
  ∧ Forall well_formed_gate gates
  ∧ stimuli_ok inputs stimuli ∧ stimuli_binary stimuli.
Proof. apply parse_netlist_valid. Qed.

Lemma parsed_netlist_well_formed_witness :
  parse_netlist and_document =
    Ok (["A"; "B"], ["C"], [Gate "C" "AND" ["A"; "B"]],
        [(0%Z, ["0"; "0"]); (1%Z, ["1"; "0"]); (2%Z, ["1"; "1"])])
  ∧ ["A"; "B"] ≠ [] ∧ ["C"] ≠ [] ∧ [Gate "C" "AND" ["A"; "B"]] ≠ []
  ∧ NoDup (gate_name <$> [Gate "C" "AND" ["A"; "B"]])
  ∧ (∀ g, g ∈ [Gate "C" "AND" ["A"; "B"]] → gate_name g ∉ ["A"; "B"])
  ∧ Forall well_formed_gate [Gate "C" "AND" ["A"; "B"]]
  ∧ stimuli_ok ["A"; "B"]
      [(0%Z, ["0"; "0"]); (1%Z, ["1"; "0"]); (2%Z, ["1"; "1"])]
  ∧ stimuli_binary [(0%Z, ["0"; "0"]); (1%Z, ["1"; "0"]); (2%Z, ["1"; "1"])].
Proof.
  assert (parse_netlist and_document =
    Ok (["A"; "B"], ["C"], [Gate "C" "AND" ["A"; "B"]],
        [(0%Z, ["0"; "0"]); (1%Z, ["1"; "0"]); (2%Z, ["1"; "1"])])) as H
    by (vm_compute; reflexivity).
  split; [exact H|]. exact (parsed_netlist_well_formed _ _ _ _ _ H).
Defined.

Lemma parse_stimuli_lines rest inputs last_time acc stimuli :
  parse_stimuli rest inputs last_time acc = Ok stimuli →
  ∃ new, stimuli = acc ++ new
         ∧ Forall2 line_event rest new
         ∧ increasing_from last_time new.*1.
Proof.
  revert last_time acc.
  induction rest as [|ln rest IH]; intros last_time acc Hrun.
  { simpl in Hrun. injection Hrun as <-. exists []. rewrite app_nil_r.
    by split_and!. }
  cbn [parse_stimuli] in Hrun.
  destruct (length (split ln) =? length inputs + 1) eqn:Hlen; [|done].
  cbn [negb] in Hrun.
  destruct (split ln) as [|tok vals] eqn:Hsplit; [done|].
  cbn [index lookup list_lookup mbind result_bind drop] in Hrun.
  destruct (py_int tok) as [t| |] eqn:Hint; [|done..].
  cbn [mbind result_bind] in Hrun.
  destruct (t <=? last_time)%Z eqn:Hle; [done|].
  change (drop 0 vals) with vals in Hrun.
  destruct (existsb _ vals); [done|].
  apply IH in Hrun as (new & -> & Hlines & Hinc).
  exists ((t, vals) :: new). rewrite <- app_assoc. split_and!; [done| |].
  - apply Forall2_cons. split; [|done]. by exists tok.
  - simpl. split; [|done]. apply Z.leb_gt in Hle. lia.
Qed.

Lemma increasing_from_lookup lo ts :
  increasing_from lo ts →
  (∀ i t, ts !! i = Some t → (lo < t)%Z)
  ∧ (∀ i j ti tj, i < j → ts !! i = Some ti → ts !! j = Some tj →
       (ti < tj)%Z).
Proof.
  revert lo. induction ts as [|t ts IH]; intros lo Hinc.
  { split; intros; by rewrite lookup_nil in *. }
  destruct Hinc as [Hlo Hinc]. destruct (IH t Hinc) as [Hall Hpair].
  split.
  - intros [|i] u Hu; simpl in Hu; [by injection Hu as <-|].
    specialize (Hall i u Hu). lia.
  - intros i [|j] ti tj Hlt Hi Hj; [lia|]. simpl in Hj.
    destruct i as [|i]; simpl in Hi.
    + injection Hi as <-. by eapply Hall.
    + eapply Hpair; [|done..]. lia.
Qed.

(** X16. In a document that parses the times of the events are not
    negative and increase strictly from one event to the next. *)
Theorem parsed_times_increase (text : string)
    (inputs outputs : list string) (gates : list gate)
    (stimuli : list stimulus) :
  parse_netlist text = Ok (inputs, outputs, gates, stimuli) →
  (∀ i t, stimuli.*1 !! i = Some t → (0 ≤ t)%Z)
  ∧ (∀ i j ti tj, i < j → stimuli.*1 !! i = Some ti →
       stimuli.*1 !! j = Some tj → (ti < tj)%Z).
Proof.
  unfold parse_netlist. intros Hrun.
  destruct (parse_sections (clean_lines text)) as [[[[i0 o0] g0] r]| |];
    [|done..].
  cbn [mbind result_bind] in Hrun.
  destruct (parse_stimuli r i0 (-1) []) as [st| |] eqn:Hstim; [|done..].
  cbn [mbind result_bind] in Hrun. injection Hrun as -> -> -> ->.
  apply parse_stimuli_lines in Hstim as (new & -> & _ & Hinc).
  apply increasing_from_lookup in Hinc as [Hall Hpair]. split; [|done].
  intros i t Hi. specialize (Hall i t Hi). lia.
Qed.

Lemma parsed_times_increase_witness :
  parse_netlist and_document =
    Ok (["A"; "B"], ["C"], [Gate "C" "AND" ["A"; "B"]],
        [(0%Z, ["0"; "0"]); (1%Z, ["1"; "0"]); (2%Z, ["1"; "1"])])
  ∧ (∀ i t, [(0%Z, ["0"; "0"]); (1%Z, ["1"; "0"]); (2%Z, ["1"; "1"])].*1
              !! i = Some t → (0 ≤ t)%Z)
  ∧ (∀ i j ti tj, i < j →
       [(0%Z, ["0"; "0"]); (1%Z, ["1"; "0"]); (2%Z, ["1"; "1"])].*1
         !! i = Some ti →
       [(0%Z, ["0"; "0"]); (1%Z, ["1"; "0"]); (2%Z, ["1"; "1"])].*1
         !! j = Some tj → (ti < tj)%Z).
Proof.
  assert (parse_netlist and_document =
    Ok (["A"; "B"], ["C"], [Gate "C" "AND" ["A"; "B"]],
        [(0%Z, ["0"; "0"]); (1%Z, ["1"; "0"]); (2%Z, ["1"; "1"])])) as H
    by (vm_compute; reflexivity).
  split; [exact H|]. exact (parsed_times_increase _ _ _ _ _ H).
Defined.

(** X17. In a document that parses there is one event per line of the
    STIMULUS section, in the order of the lines: its time is the integer
    that the first token of the line denotes, its values are the other
    tokens. *)
Theorem parsed_events_follow_lines (text : string)
    (inputs outputs : list string) (gates : list gate)
    (stimuli : list stimulus) :
  parse_netlist text = Ok (inputs, outputs, gates, stimuli) →
  ∃ lines,
    parse_sections (clean_lines text) = Ok (inputs, outputs, gates, lines)
    ∧ Forall2 line_event lines stimuli.
Proof.
  unfold parse_netlist. intros Hrun.
  destruct (parse_sections (clean_lines text)) as [[[[i0 o0] g0] r]| |];
    [|done..].
  cbn [mbind result_bind] in Hrun.
  destruct (parse_stimuli r i0 (-1) []) as [st| |] eqn:Hstim; [|done..].
  cbn [mbind result_bind] in Hrun. injection Hrun as -> -> -> ->.
  apply parse_stimuli_lines in Hstim as (new & -> & Hlines & _).
  by exists r.
Qed.

Lemma parsed_events_follow_lines_witness :
  parse_netlist and_document =
    Ok (["A"; "B"], ["C"], [Gate "C" "AND" ["A"; "B"]],
        [(0%Z, ["0"; "0"]); (1%Z, ["1"; "0"]); (2%Z, ["1"; "1"])])
  ∧ ∃ lines,
      parse_sections (clean_lines and_document)
        = Ok (["A"; "B"], ["C"], [Gate "C" "AND" ["A"; "B"]], lines)
      ∧ Forall2 line_event lines
          [(0%Z, ["0"; "0"]); (1%Z, ["1"; "0"]); (2%Z, ["1"; "1"])].
Proof.
  assert (parse_netlist and_document =
    Ok (["A"; "B"], ["C"], [Gate "C" "AND" ["A"; "B"]],
        [(0%Z, ["0"; "0"]); (1%Z, ["1"; "0"]); (2%Z, ["1"; "1"])])) as H
    by (vm_compute; reflexivity).
  split; [exact H|]. exact (parsed_events_follow_lines _ _ _ _ _ H).
Defined.

Lemma splitlines_go_line ln (rest : string) :
  one_line ln →
  splitlines_go false (ln +:+ String LF rest) = ln :: splitlines_go false rest.
Proof.
  unfold one_line. induction ln as [|c ln IH]; intros Hline.
  - rewrite string_app_nil. reflexivity.
  - cbn [str_all] in Hline. apply andb_true_iff in Hline as [Hc Hln].
    apply negb_true_iff in Hc.
    rewrite string_app_cons. cbn [splitlines_go andb]. rewrite Hc.
    by rewrite IH.
Qed.

(** Splitting a document into lines gives back the lines it was made of. *)
Lemma splitlines_unlines ls :
  Forall one_line ls → splitlines (unlines ls) = ls.
Proof.
  unfold splitlines. induction 1 as [|ln ls Hln _ IH]; [done|].
  cbn [unlines foldr]. rewrite splitlines_go_line by done.
  f_equal. exact IH.
Qed.

Lemma clean_lines_unlines ls :
  Forall one_line ls →
  clean_lines (unlines ls)
  = filter (λ ln, ln ≠ "" ∧ startswith ln "#" = false) (strip <$> ls).
Proof. intros Hls. unfold clean_lines. by rewrite splitlines_unlines. Qed.

(** X18. Blank lines and comment lines are ignored wherever they stand:
    a document of lines, with or without such a line in it, parses to the
    same result. *)
Theorem skipped_line_ignored (pre post : list string) (ln : string) :
  Forall one_line (pre ++ ln :: post) →
  skipped ln →
  parse_netlist (unlines (pre ++ ln :: post))
  = parse_netlist (unlines (pre ++ post)).
Proof.
  intros Hlines Hskip. unfold parse_netlist.
  assert (Forall one_line (pre ++ post)) as Hrest.
  { apply Forall_app in Hlines as [Hpre Hpost].
    apply Forall_cons in Hpost as [_ Hpost]. by apply Forall_app. }
  rewrite !clean_lines_unlines by done.
  rewrite !fmap_app, fmap_cons, !filter_app, filter_cons.
  rewrite decide_False; [done|]. intros [Hne Hc].
  destruct Hskip as [He|Hs]; congruence.
Qed.

Lemma skipped_line_ignored_witness :
  let pre := ["INPUTS: A B"; "OUTPUTS: C"; "GATES:"] in
  let post := ["C = AND(A, B)"; "STIMULUS:"; "0 0 1"] in
  Forall one_line (pre ++ "   # the only gate" :: post)
  ∧ skipped "   # the only gate"
  ∧ parse_netlist (unlines (pre ++ "   # the only gate" :: post))
    = parse_netlist (unlines (pre ++ post)).
Proof.
  assert (Forall one_line
            (["INPUTS: A B"; "OUTPUTS: C"; "GATES:"]
             ++ "   # the only gate"
                :: ["C = AND(A, B)"; "STIMULUS:"; "0 0 1"])) as H1
    by (repeat (apply Forall_cons_2; [reflexivity|]); apply Forall_nil_2).
  assert (skipped "   # the only gate") as H2 by (right; reflexivity).
  split; [exact H1|]. split; [exact H2|].
  exact (skipped_line_ignored _ _ _ H1 H2).
Defined.

Lemma expect_Ok prefix rest rest' :
  expect prefix rest = Ok rest' →
  rest' = rest ∧ ∃ ln tl, rest = ln :: tl ∧ startswith ln prefix = true.
Proof.
  unfold expect. destruct rest as [|ln tl]; [done|].
  destruct (startswith ln prefix) eqn:Hp; [|done].
  intros [= <-]. eauto.
Qed.

(** The lines that the loop over the GATES section leaves are a suffix of
    its lines. *)
Lemma parse_gates_rest rest defined gates gates' rest' :
  parse_gates rest defined gates = Ok (gates', rest') →
  ∀ ln, ln ∈ rest' → ln ∈ rest.
Proof.
  revert defined gates.
  induction rest as [|l rest IH]; intros defined gates Hrun ln Hln.
  { simpl in Hrun. by injection Hrun as <- <-. }
  cbn [parse_gates] in Hrun.
  destruct (startswith l "STIMULUS:"); [by injection Hrun as <- <-|].
  destruct (gate_re l) as [[[out typ] args]|]; [|done].
  repeat match type of Hrun with
  | (if ?c then _ else _) = Ok _ => destruct c; [done|]
  end.
  right. by eapply IH.
Qed.

(** X19. A document none of whose lines starts with the STIMULUS header
    never parses: the header may not be left out, even when there is no
    event. *)
Theorem stimulus_header_required (text : string) (nl : netlist) :
  (∀ ln, ln ∈ clean_lines text → startswith ln "STIMULUS:" = false) →
  parse_netlist text ≠ Ok nl.
Proof.
  intros Hnone Hrun. unfold parse_netlist in Hrun.
  destruct (parse_sections (clean_lines text)) as [[[[i o] g] r]| |] eqn:Hsec;
    [|done..].
  clear Hrun. unfold parse_sections in Hsec. invert_run Hsec.
  repeat match goal with
  | H : expect _ _ = Ok _ |- _ => apply expect_Ok in H as [-> ?]
  end.
  match goal with
  | H : ∃ ln tl, ?l0 = ln :: tl ∧ startswith ln "STIMULUS:" = true |- _ =>
      destruct H as (ln & tl & -> & Hstim)
  end.
  match goal with
  | H : parse_gates _ _ _ = Ok _ |- _ =>
      pose proof (parse_gates_rest _ _ _ _ _ H ln) as Hin
  end.
  assert (ln ∈ clean_lines text) as Hln.
  { assert (∀ (ls : list string) n x, x ∈ drop n ls → x ∈ ls) as Hdrop.
    { intros ls k x Hx. rewrite <- (take_drop k ls). apply elem_of_app.
      by right. }
    eapply Hdrop, Hdrop, Hdrop, Hin. by left. }
  rewrite (Hnone ln Hln) in Hstim. done.
Qed.

Lemma stimulus_header_required_witness :
  (∀ ln, ln ∈ clean_lines
                (unlines ["INPUTS: A"; "OUTPUTS: Y"; "GATES:"; "Y = NOT(A)"]) →
         startswith ln "STIMULUS:" = false)
  ∧ parse_netlist (unlines ["INPUTS: A"; "OUTPUTS: Y"; "GATES:"; "Y = NOT(A)"])
    ≠ Ok (["A"], ["Y"], [Gate "Y" "NOT" ["A"]], []).
Proof.
  assert (∀ ln, ln ∈ clean_lines
                (unlines ["INPUTS: A"; "OUTPUTS: Y"; "GATES:"; "Y = NOT(A)"]) →
          startswith ln "STIMULUS:" = false) as H.
  { intros ln Hln.
    assert (clean_lines
              (unlines ["INPUTS: A"; "OUTPUTS: Y"; "GATES:"; "Y = NOT(A)"])
            = ["INPUTS: A"; "OUTPUTS: Y"; "GATES:"; "Y = NOT(A)"]) as Heq
      by (vm_compute; reflexivity).
    rewrite Heq in Hln. cases_elem_of Hln; subst ln; reflexivity. }
  split; [exact H|]. exact (stimulus_header_required _ _ H).
Defined.

(** *** Lines in the documented format are accepted *)

Lemma re_star_max {R} p (m r : string) (k : string → string → option R) x :
  str_all p m = true →
  match r with String c _ => p c = false | "" => True end →
  k m r = Some x →
  re_star p (m +:+ r) k = Some x.
Proof.
  revert k. induction m as [|a m IH]; intros k Hm Hr Hk.
  - rewrite string_app_nil. destruct r as [|c r]; [done|].
    cbn [re_star]. by rewrite Hr.
  - cbn [str_all] in Hm. apply andb_true_iff in Hm as [Ha Hm].
    rewrite string_app_cons. cbn [re_star]. rewrite Ha.
    by rewrite (IH (λ m0 r0, k (String a m0) r0)).
Qed.

Lemma re_lit_app {R} l (r : string) (k : string → option R) :
  re_lit l (l +:+ r) k = k r.
Proof.
  induction l as [|a l IH].
  - rewrite string_app_nil. by destruct r.
  - rewrite string_app_cons. cbn [re_lit].
    by rewrite bool_decide_true.
Qed.

Lemma re_lit_mismatch {R} a l c (s r : string) (k : string → option R) :
  a ≠ c → re_lit (String a l) (String c s +:+ r) k = None.
Proof.
  intros Hne. rewrite string_app_cons. cbn [re_lit].
  by rewrite bool_decide_false.
Qed.

Lemma re_alt_kind {R} typ (r : string) (k : string → string → option R) x :
  typ ∈ ["AND"; "OR"; "XOR"; "NOT"] →
  k typ r = Some x →
  re_alt ["AND"; "OR"; "XOR"; "NOT"] (typ +:+ r) k = Some x.
Proof.
  intros Htyp Hk. cases_elem_of Htyp; subst typ; cbn [re_alt];
    rewrite ?re_lit_mismatch by done; by rewrite re_lit_app, Hk.
Qed.

Lemma ident_char_plain c :
  ident_char c = true →
  isspace c = false ∧ args_char c = true
  ∧ negb (bool_decide (c = ","%char)) = true
  ∧ negb (bool_decide (c = ":"%char)) = true.
Proof.
  destruct c as [[] [] [] [] [] [] [] []]; vm_compute; intros H;
    first [discriminate H | by repeat split].
Qed.

Lemma identifier_plain s :
  is_identifier s = true →
  str_all (λ c, negb (isspace c)) s = true
  ∧ str_all args_char s = true
  ∧ str_all (λ c, negb (bool_decide (c = ","%char))) s = true
  ∧ str_all (λ c, negb (bool_decide (c = ":"%char))) s = true.
Proof.
  intros Hid%is_identifier_chars.
  split_and!; (eapply str_all_weaken; [|exact Hid]); intros c Hc;
    destruct (ident_char_plain c Hc) as (H1 & H2 & H3 & H4); try done.
  by rewrite H1.
Qed.

Lemma rstrip_plain s :
  str_all (λ c, negb (isspace c)) s = true → rstrip s = s.
Proof.
  induction s as [|c s IH]; [done|]. cbn [str_all].
  intros [Hc Hs]%andb_true_iff. apply negb_true_iff in Hc.
  cbn [rstrip]. rewrite IH by done. rewrite Hc. by destruct s.
Qed.

Lemma strip_plain s :
  str_all (λ c, negb (isspace c)) s = true → strip s = s.
Proof.
  intros Hs. unfold strip. rewrite rstrip_plain by done.
  destruct s as [|c s]; [done|]. cbn [str_all] in Hs.
  apply andb_true_iff in Hs as [Hc _]. apply negb_true_iff in Hc.
  cbn [lstrip]. by rewrite Hc.
Qed.

Lemma strip_leading c s : isspace c = true → strip (String c s) = strip s.
Proof.
  intros Hc. unfold strip. cbn [rstrip]. rewrite Hc.
  destruct (rstrip s) as [|a r]; [done|]. cbn [lstrip]. by rewrite Hc.
Qed.

Lemma split_on_plain sep s :
  str_all (λ c, negb (bool_decide (c = sep))) s = true →
  split_on sep s = [s].
Proof.
  induction s as [|c s IH]; [done|]. cbn [str_all].
  intros [Hc Hs]%andb_true_iff. apply negb_true_iff in Hc.
  cbn [split_on]. rewrite Hc. by rewrite IH.
Qed.

Lemma split_on_app sep (s t : string) :
  str_all (λ c, negb (bool_decide (c = sep))) s = true →
  split_on sep (s +:+ String sep t) = s :: split_on sep t.
Proof.
  induction s as [|c s IH].
  - intros _. rewrite string_app_nil. cbn [split_on].
    by rewrite bool_decide_true.
  - cbn [str_all]. intros [Hc Hs]%andb_true_iff. apply negb_true_iff in Hc.
    rewrite string_app_cons. cbn [split_on]. rewrite Hc. by rewrite IH.
Qed.

Lemma split_on_nonempty sep s : split_on sep s ≠ [].
Proof.
  destruct s as [|c s]; [done|]. cbn [split_on].
  destruct (bool_decide (c = sep)); [done|]. by destruct (split_on sep s).
Qed.

(** The arguments written with a comma and a blank between them are read
    back as they were. *)
Lemma split_join args :
  args ≠ [] → Forall (λ a, is_identifier a = true) args →
  strip <$> split_on "," (join ", " args) = args.
Proof.
  intros Hne Hall. induction Hall as [|a args Ha Hargs IH]; [done|].
  destruct (identifier_plain a Ha) as (Hsp & _ & Hcomma & _).
  destruct args as [|b args].
  - cbn [join]. rewrite split_on_plain by done. simpl.
    by rewrite strip_plain.
  - change (join ", " (a :: b :: args))
      with (a +:+ String "," (String " " (join ", " (b :: args)))).
    rewrite split_on_app by done. rewrite fmap_cons, strip_plain by done.
    f_equal. rewrite <- IH at 2 by done.
    cbn [split_on]. rewrite bool_decide_false by done.
    pose proof (split_on_nonempty "," (join ", " (b :: args))) as Hsplit.
    destruct (split_on "," (join ", " (b :: args))) as [|t ts]; [done|].
    rewrite !fmap_cons. by rewrite strip_leading.
Qed.

Lemma join_identifiers args :
  args ≠ [] → Forall (λ a, is_identifier a = true) args →
  str_all args_char (join ", " args) = true
  ∧ ∃ c m, join ", " args = String c m ∧ isspace c = false.
Proof.
  intros Hne Hall. split.
  - apply join_all; [reflexivity|].
    eapply Forall_impl; [exact Hall|]. intros a Ha.
    by destruct (identifier_plain a Ha) as (_ & H & _).
  - destruct Hall as [|a args Ha Hargs]; [done|].
    destruct a as [|c m]; [done|]. exists c.
    assert (isspace c = false) as Hc.
    { simpl in Ha. apply andb_true_iff in Ha as [Hc _].
      by destruct (ident_char_plain c (ident_start_char c Hc)). }
    destruct args as [|b args]; [by exists m|].
    eexists. split; [|done].
    change (join ", " (String c m :: b :: args))
      with (String c m +:+ ", " +:+ join ", " (b :: args)).
    by rewrite string_app_cons.
Qed.

(** The pattern matches a line in the documented format, with the parts
    of the line as its groups. *)
Lemma gate_re_render g :
  is_identifier (gate_name g) = true →
  gate_type g ∈ ["AND"; "OR"; "XOR"; "NOT"] →
  gate_inputs g ≠ [] →
  Forall (λ a, is_identifier a = true) (gate_inputs g) →
  gate_re (render_gate g)
  = Some (gate_name g, gate_type g, join ", " (gate_inputs g)).
Proof.
  intros Hname Htyp Hne Hargs. unfold render_gate, gate_re.
  destruct (join_identifiers _ Hne Hargs) as (Hall & a0 & rest & Hjoin & Ha0).
  rewrite Hjoin in *. clear Hjoin Hne Hargs.
  destruct g as [name typ args]. cbn [gate_name gate_type gate_inputs] in *.
  destruct name as [|c m]; [done|].
  simpl in Hname. apply andb_true_iff in Hname as [Hc Hm].
  cbn [str_all] in Hall. apply andb_true_iff in Hall as [Ha Hrest].
  assert (String c m +:+ " = " +:+ typ +:+ "(" +:+ String a0 rest +:+ ")"
          = String c (m +:+ " " +:+ "=" +:+ " " +:+ typ +:+ "" +:+ "("
                      +:+ "" +:+ String a0 (rest +:+ "" +:+ ")" +:+ "" +:+ ""))
         ) as -> by reflexivity.
  cbn [re_class]. rewrite Hc.
  apply re_star_max; [done|reflexivity|].
  apply (re_star_max isspace " "); [reflexivity|reflexivity|].
  rewrite (re_lit_app "=").
  apply (re_star_max isspace " "); [reflexivity| |].
  { clear -Htyp. cases_elem_of Htyp; subst typ; reflexivity. }
  apply re_alt_kind; [done|].
  apply (re_star_max isspace ""); [reflexivity|reflexivity|].
  rewrite (re_lit_app "(").
  apply (re_star_max isspace ""); [reflexivity|exact Ha0|].
  unfold re_plus. cbn [re_class]. rewrite Ha.
  apply re_star_max; [done|reflexivity|].
  apply (re_star_max isspace ""); [reflexivity|reflexivity|].
  rewrite (re_lit_app ")").
  apply (re_star_max isspace ""); [reflexivity|done|].
  reflexivity.
Qed.

Lemma prefix_app (p s : string) :
  String.prefix p s = true → ∃ r, s = p +:+ r.
Proof.
  revert s. induction p as [|a p IH]; intros s; [by exists s|].
  destruct s as [|c s]; [done|]. simpl.
  destruct (Ascii.ascii_dec a c) as [->|]; [|done].
  intros (r & ->)%IH. by exists r.
Qed.

Lemma render_gate_not_header g :
  is_identifier (gate_name g) = true →
  gate_type g ∈ ["AND"; "OR"; "XOR"; "NOT"] →
  Forall (λ a, is_identifier a = true) (gate_inputs g) →
  startswith (render_gate g) "STIMULUS:" = false.
Proof.
  intros Hname Htyp Hargs. unfold startswith.
  destruct (String.prefix "STIMULUS:" (render_gate g)) eqn:Hp; [|done].
  apply prefix_app in Hp as [r Hr].
  assert (str_all (λ c, negb (bool_decide (c = ":"%char))) (render_gate g)
          = true) as Hall.
  { unfold render_gate. rewrite !str_all_app.
    destruct (identifier_plain _ Hname) as (_ & _ & _ & ->).
    rewrite join_all; [|reflexivity|].
    - cases_elem_of Htyp; rewrite Htyp; reflexivity.
    - eapply Forall_impl; [exact Hargs|]. intros a Ha.
      by destruct (identifier_plain a Ha) as (_ & _ & _ & H). }
  rewrite Hr, str_all_app in Hall. done.
Qed.

(** *** Lines that the pattern accepts *)

Lemma lstrip_leading s :
  ∃ w, s = w +:+ lstrip s ∧ str_all isspace w = true.
Proof.
  induction s as [|c s (w & Hw & Hs)]; [by exists ""|].
  cbn [lstrip]. destruct (isspace c) eqn:Hc; [|by exists ""].
  exists (String c w). rewrite string_app_cons, <- Hw.
  split; [done|]. cbn [str_all]. by rewrite Hc.
Qed.

Lemma lstrip_head s a r : lstrip s = String a r → isspace a = false.
Proof.
  induction s as [|c s IH]; cbn [lstrip]; [done|].
  destruct (isspace c) eqn:Hc; [done|]. by intros [= <- <-].
Qed.

Lemma all_space_last s :
  s ≠ "" → str_all isspace s = true →
  ∃ w a, s = w +:+ String a "" ∧ str_all isspace w = true ∧ isspace a = true.
Proof.
  induction s as [|c s IH]; [done|]. intros _. cbn [str_all].
  intros [Hc Hs]%andb_true_iff. destruct s as [|d s].
  - by exists "", c.
  - destruct IH as (w & a & Heq & Hw & Ha); [done..|].
    exists (String c w), a. rewrite Heq. split_and!; [done| |done].
    cbn [str_all]. by rewrite Hc.
Qed.

Lemma re_star_back {R} p (m : string) a (r : string)
    (k : string → string → option R) x :
  str_all p m = true → p a = true →
  match r with String c _ => p c = false | "" => True end →
  k (m +:+ String a "") r = None →
  k m (String a r) = Some x →
  re_star p (m +:+ String a r) k = Some x.
Proof.
  revert k. induction m as [|c m IH]; intros k Hm Ha Hr Hnone Hk.
  - rewrite string_app_nil in *. cbn [re_star]. rewrite Ha.
    assert (re_star p r (λ m0 r0, k (String a m0) r0) = None) as ->; [|done].
    destruct r as [|c r]; [done|]. cbn [re_star]. by rewrite Hr.
  - cbn [str_all] in Hm. apply andb_true_iff in Hm as [Hc Hm].
    rewrite string_app_cons. cbn [re_star]. rewrite Hc.
    by rewrite (IH (λ m0 r0, k (String c m0) r0)).
Qed.

Lemma gate_re_line name typ w a core :
  is_identifier name = true →
  typ ∈ ["AND"; "OR"; "XOR"; "NOT"] →
  str_all isspace w = true →
  isspace a = false →
  str_all args_char (String a core) = true →
  gate_re (name +:+ " = " +:+ typ +:+ "(" +:+ w +:+ String a (core +:+ ")"))
  = Some (name, typ, String a core).
Proof.
  intros Hname Htyp Hw Ha Hall. unfold gate_re.
  destruct name as [|c m]; [done|].
  simpl in Hname. apply andb_true_iff in Hname as [Hc Hm].
  cbn [str_all] in Hall. apply andb_true_iff in Hall as [Ha' Hcore].
  assert (String c m +:+ " = " +:+ typ +:+ "(" +:+ w
            +:+ String a (core +:+ ")")
          = String c (m +:+ " " +:+ "=" +:+ " " +:+ typ +:+ "" +:+ "("
                      +:+ w +:+ String a (core +:+ "" +:+ ")" +:+ "" +:+ ""))
         ) as -> by reflexivity.
  cbn [re_class]. rewrite Hc.
  apply re_star_max; [done|reflexivity|].
  apply (re_star_max isspace " "); [reflexivity|reflexivity|].
  rewrite (re_lit_app "=").
  apply (re_star_max isspace " "); [reflexivity| |].
  { clear -Htyp. cases_elem_of Htyp; subst typ; reflexivity. }
  apply re_alt_kind; [done|].
  apply (re_star_max isspace ""); [reflexivity|reflexivity|].
  rewrite (re_lit_app "(").
  apply (re_star_max isspace w); [done|exact Ha|].
  unfold re_plus. cbn [re_class]. rewrite Ha'.
  apply re_star_max; [done|reflexivity|].
  apply (re_star_max isspace ""); [reflexivity|reflexivity|].
  rewrite (re_lit_app ")").
  apply (re_star_max isspace ""); [reflexivity|done|].
  reflexivity.
Qed.

Lemma gate_re_blank name typ w a :
  is_identifier name = true →
  typ ∈ ["AND"; "OR"; "XOR"; "NOT"] →
  str_all isspace w = true →
  isspace a = true →
  gate_re (name +:+ " = " +:+ typ +:+ "(" +:+ w +:+ String a ")")
  = Some (name, typ, String a "").
Proof.
  intros Hname Htyp Hw Ha. unfold gate_re.
  destruct name as [|c m]; [done|].
  simpl in Hname. apply andb_true_iff in Hname as [Hc Hm].
  assert (String c m +:+ " = " +:+ typ +:+ "(" +:+ w +:+ String a ")"
          = String c (m +:+ " " +:+ "=" +:+ " " +:+ typ +:+ "" +:+ "("
                      +:+ w +:+ String a ")")) as -> by reflexivity.
  cbn [re_class]. rewrite Hc.
  apply re_star_max; [done|reflexivity|].
  apply (re_star_max isspace " "); [reflexivity|reflexivity|].
  rewrite (re_lit_app "=").
  apply (re_star_max isspace " "); [reflexivity| |].
  { clear -Htyp. cases_elem_of Htyp; subst typ; reflexivity. }
  apply re_alt_kind; [done|].
  apply (re_star_max isspace ""); [reflexivity|reflexivity|].
  rewrite (re_lit_app "(").
  apply (re_star_back isspace w a ")"); [done|done|reflexivity|reflexivity|].
  unfold re_plus. cbn [re_class]. rewrite (isspace_args_char a Ha).
  apply (re_star_max args_char "" ")"); [reflexivity|reflexivity|].
  reflexivity.
Qed.

Lemma split_on_leading w s :
  str_all isspace w = true →
  strip <$> split_on "," (w +:+ s) = strip <$> split_on "," s.
Proof.
  induction w as [|c w IH]; [done|]. cbn [str_all].
  intros [Hc Hw]%andb_true_iff. rewrite string_app_cons. cbn [split_on].
  rewrite bool_decide_false by (intros ->; discriminate Hc).
  specialize (IH Hw).
  destruct (split_on "," (w +:+ s)) as [|t ts] eqn:Hsp;
    [by apply split_on_nonempty in Hsp|].
  rewrite <- IH, !fmap_cons. f_equal. by apply strip_leading.
Qed.

Lemma split_on_join sep toks :
  toks ≠ [] →
  Forall (λ t, str_all (λ c, negb (bool_decide (c = sep))) t = true) toks →
  split_on sep (join (String sep "") toks) = toks.
Proof.
  intros Hne Hall. induction Hall as [|t toks Ht Htoks IH]; [done|].
  destruct toks as [|u toks]; [by apply split_on_plain|].
  change (join (String sep "") (t :: u :: toks))
    with (t +:+ String sep (join (String sep "") (u :: toks))).
  rewrite split_on_app by done. f_equal. by apply IH.
Qed.

Lemma token_char_plain c :
  token_char c = true →
  args_char c = true
  ∧ negb (bool_decide (c = ","%char)) = true
  ∧ negb (bool_decide (c = ":"%char)) = true.
Proof.
  destruct c as [[] [] [] [] [] [] [] []]; vm_compute; intros H;
    first [discriminate H | by repeat split].
Qed.

(** The pattern accepts every argument text of its class, and captures it
    up to white space in front. *)
Lemma gate_re_text name typ text :
  is_identifier name = true →
  typ ∈ ["AND"; "OR"; "XOR"; "NOT"] →
  text ≠ "" →
  str_all args_char text = true →
  ∃ captured,
    gate_re (name +:+ " = " +:+ typ +:+ "(" +:+ text +:+ ")")
      = Some (name, typ, captured)
    ∧ strip <$> split_on "," captured = strip <$> split_on "," text.
Proof.
  intros Hname Htyp Hne Hall.
  destruct (lstrip_leading text) as (w & Heq & Hw).
  destruct (lstrip text) as [|a core] eqn:Hl.
  - rewrite string_app_nil_r in Heq. subst w.
    destruct (all_space_last text Hne Hw) as (w & a & -> & Hw' & Ha).
    exists (String a ""). split; [|by rewrite split_on_leading].
    rewrite string_app_assoc. by apply gate_re_blank.
  - apply lstrip_head in Hl. rewrite Heq in Hall |- *.
    rewrite str_all_app in Hall. apply andb_true_iff in Hall as [_ Hall].
    exists (String a core). split; [|by rewrite split_on_leading].
    rewrite string_app_assoc. by apply gate_re_line.
Qed.

(** A line whose tokens are of letters, digits, underscores and white space
    is accepted whatever the tokens are, when their number is the arity of
    the kind and the name is new. *)
Lemma gate_line_accepted name typ toks rest defined gates :
  is_identifier name = true →
  Forall (λ t, str_all token_char t = true) toks →
  join "," toks ≠ "" →
  (typ = "NOT" ∧ length toks = 1)
  ∨ (typ ∈ ["AND"; "OR"; "XOR"] ∧ length toks = 2) →
  name ∉ defined →
  parse_gates (gate_line name typ toks :: rest) defined gates
  = parse_gates rest ({[name]} ∪ defined)
      (gates ++ [Gate name typ (strip <$> toks)]).
Proof.
  intros Hname Htoks Htext Harity Hfresh.
  assert (typ ∈ ["AND"; "OR"; "XOR"; "NOT"]) as Htyp.
  { destruct Harity as [[-> _]|[Ht _]]; set_solver. }
  assert (toks ≠ []) as Hne by (by intros ->).
  assert (split_on "," (join "," toks) = toks) as Hsplit.
  { apply split_on_join; [done|].
    eapply Forall_impl; [exact Htoks|]. intros t.
    apply str_all_weaken. intros c Hc.
    by destruct (token_char_plain c Hc) as (_ & H & _). }
  assert (str_all args_char (join "," toks) = true) as Hclass.
  { apply join_all; [reflexivity|].
    eapply Forall_impl; [exact Htoks|]. intros t.
    apply str_all_weaken. intros c Hc.
    by destruct (token_char_plain c Hc) as (H & _). }
  assert (startswith (gate_line name typ toks) "STIMULUS:" = false) as Hstim.
  { unfold startswith.
    destruct (String.prefix "STIMULUS:" (gate_line name typ toks)) eqn:Hp;
      [|done].
    apply prefix_app in Hp as [r Hr].
    assert (str_all (λ c, negb (bool_decide (c = ":"%char)))
              (gate_line name typ toks) = true) as Hall.
    { unfold gate_line. rewrite !str_all_app.
      destruct (identifier_plain _ Hname) as (_ & _ & _ & ->).
      rewrite join_all; [|reflexivity|].
      - cases_elem_of Htyp; rewrite Htyp; reflexivity.
      - eapply Forall_impl; [exact Htoks|]. intros t.
        apply str_all_weaken. intros c Hc.
        by destruct (token_char_plain c Hc) as (_ & _ & H). }
    rewrite Hr, str_all_app in Hall. done. }
  destruct (gate_re_text name typ (join "," toks))
    as (captured & Hre & Hargs); [done..|].
  cbn [parse_gates]. rewrite Hstim. unfold gate_line. rewrite Hre, Hargs.
  rewrite Hsplit, length_fmap.
  destruct Harity as [[-> Hl]|[Ht Hl]]; rewrite Hl.
  - simpl. by rewrite bool_decide_false.
  - assert (typ ≠ "NOT") as Hn
      by (intros ->; cases_elem_of Ht; discriminate).
    rewrite (bool_decide_true _ Ht), (bool_decide_false _ Hn). simpl.
    by rewrite bool_decide_false.
Qed.

(** C7 (as amended).  A line of the GATES section whose text between the
    first opening parenthesis and the next closing one has a character that
    is not a letter, a digit, an underscore, a comma or white space fails
    the parse at once with the error for an invalid gate line.  The tokens
    between the commas are not checked any further: a line with an
    identifier that is not yet defined as its name, one of the four kinds
    and tokens of letters, digits, underscores and white space, as many as
    the kind has arguments and not a single empty one, is accepted, and
    the arguments of the gate are the tokens without the white space
    around them; so a token that starts with a digit, is empty or has
    white space inside is accepted. *)
Theorem gate_line_argument_text (ln pt name typ : string)
    (toks rest : list string) (defined : gset string) (gates : list gate) :
  (startswith ln "STIMULUS:" = false →
   paren_text ln = Some pt →
   str_all args_char pt = false →
   parse_gates (ln :: rest) defined gates
   = Raise (ValueError ("Invalid gate line: '" +:+ ln +:+ "'")))
  ∧ (is_identifier name = true →
     Forall (λ t, str_all token_char t = true) toks →
     join "," toks ≠ "" →
     (typ = "NOT" ∧ length toks = 1)
     ∨ (typ ∈ ["AND"; "OR"; "XOR"] ∧ length toks = 2) →
     name ∉ defined →
     parse_gates (gate_line name typ toks :: rest) defined gates
     = parse_gates rest ({[name]} ∪ defined)
         (gates ++ [Gate name typ (strip <$> toks)])).
Proof.
  split; [apply invalid_gate_line|apply gate_line_accepted].
Qed.

Lemma gate_line_argument_text_witness :
  (startswith "C = AND(A-1, B)" "STIMULUS:" = false
   ∧ paren_text "C = AND(A-1, B)" = Some "A-1, B"
   ∧ str_all args_char "A-1, B" = false
   ∧ parse_gates ["C = AND(A-1, B)"; "STIMULUS:"] {["A"; "B"]} []
     = Raise (ValueError "Invalid gate line: 'C = AND(A-1, B)'"))
  ∧ (is_identifier "C" = true
     ∧ Forall (λ t, str_all token_char t = true) ["1 A"; ""]
     ∧ join "," ["1 A"; ""] ≠ ""
     ∧ ("AND" ∈ ["AND"; "OR"; "XOR"] ∧ length ["1 A"; ""] = 2)
     ∧ ("C" ∉ ({["A"; "B"]} : gset string))
     ∧ gate_line "C" "AND" ["1 A"; ""] = "C = AND(1 A,)"
     ∧ parse_gates [gate_line "C" "AND" ["1 A"; ""]; "STIMULUS:"]
         {["A"; "B"]} []
       = parse_gates ["STIMULUS:"] ({["C"]} ∪ {["A"; "B"]})
           ([] ++ [Gate "C" "AND" (strip <$> ["1 A"; ""])])).
Proof.
  assert (Forall (λ t, str_all token_char t = true) ["1 A"; ""]) as H2
    by (repeat (apply Forall_cons_2; [reflexivity|]); apply Forall_nil_2).
  assert (join "," ["1 A"; ""] ≠ "") as H3 by done.
  assert ("AND" ∈ ["AND"; "OR"; "XOR"] ∧ length ["1 A"; ""] = 2) as H4
    by (split; [set_solver|done]).
  assert ("C" ∉ ({["A"; "B"]} : gset string)) as H5 by compute_done.
  split.
  - split_and!; [reflexivity..|].
    exact (proj1 (gate_line_argument_text "C = AND(A-1, B)" "A-1, B" "C"
                    "AND" ["1 A"; ""] ["STIMULUS:"] {["A"; "B"]} [])
             eq_refl eq_refl eq_refl).
  - split_and!;
      [reflexivity|exact H2|exact H3|apply H4|apply H4|exact H5|reflexivity|].
    exact (proj2 (gate_line_argument_text "C = AND(A-1, B)" "A-1, B" "C"
                    "AND" ["1 A"; ""] ["STIMULUS:"] {["A"; "B"]} [])
             eq_refl H2 H3 (or_intror H4) H5).
Defined.

(** X20. A gate with an identifier as its name, identifiers as its
    arguments and a kind with its arity, written as a line in the
    documented format, is read back as that gate: when its name is not
    yet defined, the loop over the GATES section adds exactly this gate and
    goes on with the next line. *)
Theorem gate_line_round_trip (g : gate) (rest : list string)
    (defined : gset string) (gates : list gate) :
  is_identifier (gate_name g) = true →
  Forall (λ a, is_identifier a = true) (gate_inputs g) →
  well_formed_gate g →
  gate_name g ∉ defined →
  parse_gates (render_gate g :: rest) defined gates
  = parse_gates rest ({[gate_name g]} ∪ defined) (gates ++ [g]).
Proof.
  intros Hname Hargs Hwf Hfresh.
  assert (gate_type g ∈ ["AND"; "OR"; "XOR"; "NOT"]) as Htyp.
  { destruct Hwf as [[-> _]|[Ht _]]; set_solver. }
  assert (gate_inputs g ≠ []) as Hne.
  { destruct Hwf as [[_ Hl]|[_ Hl]]; by destruct (gate_inputs g). }
  cbn [parse_gates].
  rewrite render_gate_not_header, gate_re_render, split_join by done.
  destruct g as [name typ args]. unfold well_formed_gate in Hwf.
  cbn [gate_name gate_type gate_inputs] in *.
  destruct Hwf as [[-> Hl]|[Ht Hl]].
  - rewrite Hl. simpl. by rewrite bool_decide_false.
  - assert (typ ≠ "NOT") as Hn
      by (intros ->; cases_elem_of Ht; discriminate).
    rewrite Hl, (bool_decide_true _ Ht), (bool_decide_false _ Hn). simpl.
    by rewrite bool_decide_false.
Qed.

Lemma gate_line_round_trip_witness :
  let g := Gate "Sum_1" "XOR" ["a0"; "b_0"] in
  is_identifier (gate_name g) = true
  ∧ Forall (λ a, is_identifier a = true) (gate_inputs g)
  ∧ well_formed_gate g
  ∧ (gate_name g ∉ ({["a0"; "b_0"]} : gset string))
  ∧ parse_gates (render_gate g :: ["STIMULUS:"]) {["a0"; "b_0"]} []
    = parse_gates ["STIMULUS:"] ({[gate_name g]} ∪ {["a0"; "b_0"]}) ([] ++ [g]).
Proof.
  assert (Forall (λ a, is_identifier a = true) ["a0"; "b_0"]) as H2
    by (repeat (apply Forall_cons_2; [reflexivity|]); apply Forall_nil_2).
  assert (well_formed_gate (Gate "Sum_1" "XOR" ["a0"; "b_0"])) as H3
    by (right; split; [set_solver|done]).
  assert ("Sum_1" ∉ ({["a0"; "b_0"]} : gset string)) as H4 by compute_done.
  split_and!; [reflexivity|exact H2|exact H3|exact H4|].
  exact (gate_line_round_trip (Gate "Sum_1" "XOR" ["a0"; "b_0"]) ["STIMULUS:"]
           {["a0"; "b_0"]} [] eq_refl H2 H3 H4).
Defined.

(** What the loop over the GATES section does with a line in the
    documented format: the checks of arity and of the name remain. *)
Lemma parse_gates_render g rest defined gates :
  is_identifier (gate_name g) = true →
  gate_type g ∈ ["AND"; "OR"; "XOR"; "NOT"] →
  gate_inputs g ≠ [] →
  Forall (λ a, is_identifier a = true) (gate_inputs g) →
  parse_gates (render_gate g :: rest) defined gates
  = if bool_decide (gate_type g = "NOT")
       && negb (length (gate_inputs g) =? 1) then
      Raise (TypeError
        ("Gate " +:+ gate_name g +:+ " of type NOT must have 1 input"))
    else if bool_decide (gate_type g ∈ ["AND"; "OR"; "XOR"])
            && negb (length (gate_inputs g) =? 2) then
      Raise (TypeError
        ("Gate " +:+ gate_name g +:+ " of type " +:+ gate_type g
         +:+ " must have 2 inputs"))
    else if bool_decide (gate_name g ∈ defined) then
      Raise (ValueError ("Gate " +:+ gate_name g +:+ " defined more than once"))
    else
      parse_gates rest ({[gate_name g]} ∪ defined) (gates ++ [g]).
Proof.
  intros Hname Htyp Hne Hargs. cbn [parse_gates].
  rewrite render_gate_not_header, gate_re_render, split_join by done.
  by destruct g.
Qed.

(** X21. A line in the documented format that declares a name already
    defined, by the INPUTS line or by an earlier gate, fails the parse with
    the error for a name defined more than once. *)
Theorem gate_redefinition_rejected (g : gate) (rest : list string)
    (defined : gset string) (gates : list gate) :
  is_identifier (gate_name g) = true →
  Forall (λ a, is_identifier a = true) (gate_inputs g) →
  well_formed_gate g →
  gate_name g ∈ defined →
  parse_gates (render_gate g :: rest) defined gates
  = Raise (ValueError ("Gate " +:+ gate_name g +:+ " defined more than once")).
Proof.
  intros Hname Hargs Hwf Hdef.
  rewrite parse_gates_render; [|done| |by destruct Hwf as [[_ Hl]|[_ Hl]];
                                        destruct (gate_inputs g)|done].
  - rewrite (bool_decide_true _ Hdef).
    destruct g as [name typ args]. unfold well_formed_gate in Hwf.
    cbn [gate_name gate_type gate_inputs] in *.
    destruct Hwf as [[-> Hl]|[Ht Hl]]; rewrite Hl.
    + done.
    + assert (typ ≠ "NOT") as Hn
        by (intros ->; cases_elem_of Ht; discriminate).
      by rewrite (bool_decide_true _ Ht), (bool_decide_false _ Hn).
  - destruct Hwf as [[-> _]|[Ht _]]; set_solver.
Qed.

Lemma gate_redefinition_rejected_witness :
  let g := Gate "A" "NOT" ["B"] in
  is_identifier (gate_name g) = true
  ∧ Forall (λ a, is_identifier a = true) (gate_inputs g)
  ∧ well_formed_gate g
  ∧ gate_name g ∈ ({["A"; "B"]} : gset string)
  ∧ parse_gates (render_gate g :: ["STIMULUS:"]) {["A"; "B"]} []
    = Raise (ValueError
               ("Gate " +:+ gate_name g +:+ " defined more than once")).
Proof.
  assert (Forall (λ a, is_identifier a = true) ["B"]) as H2
    by (apply Forall_cons_2; [reflexivity|apply Forall_nil_2]).
  assert (well_formed_gate (Gate "A" "NOT" ["B"])) as H3 by (by left).
  assert ("A" ∈ ({["A"; "B"]} : gset string)) as H4 by compute_done.
  split_and!; [reflexivity|exact H2|exact H3|exact H4|].
  exact (gate_redefinition_rejected (Gate "A" "NOT" ["B"]) ["STIMULUS:"]
           {["A"; "B"]} [] eq_refl H2 H3 H4).
Defined.

(** X22. A line in the documented format whose number of arguments is not
    the arity of its kind (one for NOT, two for the others) fails the parse
    with a type error, before the name is looked at. *)
Theorem gate_arity_rejected (g : gate) (rest : list string)
    (defined : gset string) (gates : list gate) :
  is_identifier (gate_name g) = true →
  Forall (λ a, is_identifier a = true) (gate_inputs g) →
  gate_type g ∈ ["AND"; "OR"; "XOR"; "NOT"] →
  gate_inputs g ≠ [] →
  ¬ well_formed_gate g →
  ∃ msg, parse_gates (render_gate g :: rest) defined gates
         = Raise (TypeError msg).
Proof.
  intros Hname Hargs Htyp Hne Hbad.
  rewrite parse_gates_render by done.
  destruct (decide (gate_type g = "NOT")) as [Hn|Hn].
  - rewrite (bool_decide_true _ Hn).
    destruct (length (gate_inputs g) =? 1) eqn:Hl; simpl; [|eauto].
    apply Nat.eqb_eq in Hl. destruct Hbad. by left.
  - rewrite (bool_decide_false _ Hn). simpl.
    assert (gate_type g ∈ ["AND"; "OR"; "XOR"]) as Hb.
    { cases_elem_of Htyp; rewrite Htyp in *; set_solver. }
    rewrite (bool_decide_true _ Hb).
    destruct (length (gate_inputs g) =? 2) eqn:Hl; simpl; [|eauto].
    apply Nat.eqb_eq in Hl. destruct Hbad. by right.
Qed.

Lemma gate_arity_rejected_witness :
  let g := Gate "Y" "AND" ["A"; "B"; "C"] in
  is_identifier (gate_name g) = true
  ∧ Forall (λ a, is_identifier a = true) (gate_inputs g)
  ∧ gate_type g ∈ ["AND"; "OR"; "XOR"; "NOT"]
  ∧ gate_inputs g ≠ []
  ∧ ¬ well_formed_gate g
  ∧ ∃ msg, parse_gates (render_gate g :: []) ∅ [] = Raise (TypeError msg).
Proof.
  assert (Forall (λ a, is_identifier a = true) ["A"; "B"; "C"]) as H2
    by (repeat (apply Forall_cons_2; [reflexivity|]); apply Forall_nil_2).
  assert ("AND" ∈ ["AND"; "OR"; "XOR"; "NOT"]) as H3 by set_solver.
  assert (["A"; "B"; "C"] ≠ []) as H4 by done.
  assert (¬ well_formed_gate (Gate "Y" "AND" ["A"; "B"; "C"])) as H5.
  { intros [[Ht _]|[_ Hl]]; discriminate. }
  split_and!; [reflexivity|exact H2|exact H3|exact H4|exact H5|].
  exact (gate_arity_rejected (Gate "Y" "AND" ["A"; "B"; "C"]) [] ∅ []
           eq_refl H2 H3 H4 H5).
Defined.

(** X23. An event of a well-formed netlist succeeds, and in the signals it
    leaves every gate has the value its kind gives on the values of its
    arguments, whatever the signals of the events before were. *)
Theorem event_solves_gates (inputs outputs : list string) (gates : list gate)
    (order : list (string * string))
    (signals waves : gmap string string) (ev : stimulus) :
  gates_ok inputs gates →
  outputs_ok inputs outputs gates →
  topo_sort gates inputs = Ok order →
  length ev.2 = length inputs →
  (∀ x, x ∈ inputs ++ outputs → is_Some (waves !! x)) →
  ∃ signals' waves',
    simulate_event inputs outputs gates order (signals, waves) ev
      = Ok (signals', waves')
    ∧ ∀ g, g ∈ gates → gate_holds signals' g.
Proof.
  intros Hok Hout Horder Hlen Hw.
  apply topo_sort_sound in Horder as [_ Htopo].
  destruct (simulate_event_text inputs outputs gates order signals waves ev)
    as (signals' & waves' & Hev & _); [done..|].
  exists signals', waves'. split; [done|].
  destruct ev as [t values]. simpl in Hlen.
  destruct (eval_order_total inputs gates
              (bind_inputs signals inputs values) order)
    as (sg & Hrun & _ & Hholds); [done..| |].
  { intros a Ha.
    destruct (bind_inputs_lookup signals inputs values a) as (v & _ & ->);
      eauto. }
  cbn [simulate_event] in Hev. rewrite Hrun in Hev.
  cbn [mbind result_bind] in Hev.
  destruct (for_each (record sg) inputs waves) as [w1| |]; [|done..].
  cbn [mbind result_bind] in Hev.
  destruct (for_each (record sg) outputs w1) as [w2| |]; [|done..].
  injection Hev as <- <-.
  intros g Hg. apply Hholds; [done|].
  rewrite (topological_names _ _ Htopo). by apply list_elem_of_fmap_2.
Qed.

Lemma event_solves_gates_witness :
  let gates := [Gate "Y" "XOR" ["A"; "N"]; Gate "N" "NOT" ["B"]] in
  let waves : gmap string string := empty_waves (["A"; "B"] ++ ["Y"]) in
  gates_ok ["A"; "B"] gates
  ∧ outputs_ok ["A"; "B"] ["Y"] gates
  ∧ topo_sort gates ["A"; "B"] = Ok [("N", "NOT"); ("Y", "XOR")]
  ∧ length (7%Z, ["1"; "0"]).2 = length ["A"; "B"]
  ∧ (∀ x, x ∈ ["A"; "B"] ++ ["Y"] → is_Some (waves !! x))
  ∧ ∃ signals' waves',
      simulate_event ["A"; "B"] ["Y"] gates [("N", "NOT"); ("Y", "XOR")]
        (∅, waves) (7%Z, ["1"; "0"]) = Ok (signals', waves')
      ∧ ∀ g, g ∈ gates → gate_holds signals' g.
Proof.
  intros gates waves.
  assert (gates_ok ["A"; "B"] gates) as H1.
  { split.
    - compute_done.
    - apply Forall_cons_2; [right; split; [set_solver|done]|].
      apply Forall_cons_2; [by left|apply Forall_nil_2].
    - intros g a Hg Ha. cases_elem_of Hg; rewrite Hg in Ha; simpl in Ha;
        cases_elem_of Ha; rewrite Ha; set_solver. }
  assert (outputs_ok ["A"; "B"] ["Y"] gates) as H2.
  { intros o Ho. cases_elem_of Ho. rewrite Ho. right. set_solver. }
  assert (topo_sort gates ["A"; "B"] = Ok [("N", "NOT"); ("Y", "XOR")]) as H3
    by (vm_compute; reflexivity).
  assert (length (7%Z, ["1"; "0"]).2 = length ["A"; "B"]) as H4
    by reflexivity.
  assert (∀ x, x ∈ ["A"; "B"] ++ ["Y"] → is_Some (waves !! x)) as H5.
  { intros x Hx. unfold waves. rewrite empty_waves_lookup.
    by rewrite bool_decide_true. }
  split_and!; [exact H1|exact H2|exact H3|exact H4|exact H5|].
  exact (event_solves_gates ["A"; "B"] ["Y"] gates
           [("N", "NOT"); ("Y", "XOR")] ∅ waves (7%Z, ["1"; "0"])
           H1 H2 H3 H4 H5).
Defined.

(** The first argument that has no signal is the key of the error. *)
Lemma map_result_missing (signals : gmap string string) xs :
  Exists (λ a, signals !! a = None) xs →
  ∃ a, a ∈ xs ∧ signals !! a = None
       ∧ map_result (getitem signals) xs = Raise (KeyError a).
Proof.
  induction xs as [|x xs IH]; intros Hex; [by apply Exists_nil in Hex|].
  destruct (signals !! x) as [v|] eqn:Hx.
  - apply Exists_cons in Hex as [Hex|Hex]; [congruence|].
    destruct (IH Hex) as (a & Ha & Hnone & Hrun). exists a.
    split_and!; [by right|done|].
    unfold getitem in *. simpl. rewrite Hx. simpl. by rewrite Hrun.
  - exists x. split_and!; [by left|done|].
    unfold getitem. simpl. by rewrite Hx.
Qed.

(** With signals for the primary inputs and the gates of [pre] only,
    evaluating the rest of a topological order in which some gate has an
    argument that is neither stops with a lookup error on such an
    argument. *)
Lemma eval_undefined (inputs : list string) gates pre suf
    (signals : gmap string string) :
  NoDup (gate_name <$> gates) →
  Forall well_formed_gate gates →
  topological gates (pre ++ suf) →
  (∀ x, is_Some (signals !! x) ↔ x ∈ inputs ∨ x ∈ (pre.*1)) →
  (∃ g a, g ∈ gates ∧ gate_name g ∈ (suf.*1) ∧ a ∈ gate_inputs g
          ∧ (a ∉ inputs) ∧ (a ∉ gate_name <$> gates)) →
  ∃ g a, g ∈ gates ∧ a ∈ gate_inputs g
         ∧ (a ∉ inputs) ∧ (a ∉ gate_name <$> gates)
         ∧ for_each (eval_step gates) suf signals = Raise (KeyError a).
Proof.
  intros Hnames Hkinds. revert pre signals.
  induction suf as [|[h t] suf IH]; intros pre signals Htopo Hdom Hbad.
  { destruct Hbad as (g & a & _ & Hg & _). by apply elem_of_nil in Hg. }
  pose proof (topological_names _ _ Htopo) as Hp.
  assert (∀ x, x ∈ pre.*1 → x ∈ gate_name <$> gates) as Hsub.
  { intros x Hx. rewrite <- Hp, fmap_app. apply elem_of_app. by left. }
  assert ((pre ++ (h, t) :: suf).*1 !! length pre.*1 = Some h) as Hpos.
  { rewrite fmap_app, fmap_cons. by apply list_lookup_middle. }
  destruct (topological_entry _ _ h t Htopo) as (g & Hg & -> & ->).
  { apply elem_of_app. right. by left. }
  destruct (decide (Exists (λ a, signals !! a = None) (gate_inputs g)))
    as [Hex|Hall].
  - destruct (map_result_missing _ _ Hex) as (a & Ha & Hnone & Hrun).
    assert (a ∉ inputs) as Hin.
    { intros Hin. assert (is_Some (signals !! a)) as [? ?]; [|congruence].
      apply Hdom. by left. }
    exists g, a. split_and!; [done..| |].
    + intros Hn. destruct Htopo as [_ Hsorted].
      destruct (Hsorted _ _ a Hpos) as (j & Hlt & Hj); [by exists g|].
      rewrite fmap_app in Hj. rewrite lookup_app_l in Hj by done.
      assert (is_Some (signals !! a)) as [? ?]; [|congruence].
      apply Hdom. right. by eapply list_elem_of_lookup_2.
    + simpl. rewrite find_gate_distinct by done. simpl. by rewrite Hrun.
  - apply not_Exists_Forall in Hall; [|intros a; apply _].
    destruct (map_result_getitem signals (gate_inputs g))
      as (vals & Hvals & Hlen).
    { intros a Ha. eapply Forall_forall in Hall; [|done]. simpl in Hall.
      by destruct (signals !! a); [eauto|]. }
    destruct (eval_gate_well_formed g vals) as (v & Hv & _); [|done|].
    { by eapply Forall_forall in Hkinds. }
    destruct (IH (pre ++ [(gate_name g, gate_type g)])
                (<[gate_name g := v]> signals))
      as (g' & a & Hg' & Ha & Hin & Hn & Hrun).
    + by rewrite <- app_assoc.
    + intros x. rewrite fmap_app. simpl. rewrite elem_of_app.
      rewrite list_elem_of_singleton.
      destruct (decide (gate_name g = x)) as [<-|Hne].
      * rewrite lookup_insert_eq. split; [auto|eauto].
      * rewrite lookup_insert_ne by done. rewrite Hdom.
        split; [tauto|]. intros [?|[?|?]]; [tauto..|congruence].
    + destruct Hbad as (g0 & a & Hg0 & Hn0 & Ha & Hin & Hn).
      exists g0, a. split_and!; [done| |done..].
      simpl in Hn0. apply elem_of_cons in Hn0 as [Heq|Hn0]; [|done].
      assert (g0 = g) as -> by by eapply gate_by_name.
      eapply Forall_forall in Hall; [|done]. simpl in Hall.
      destruct Hall. destruct (signals !! a) eqn:Hs; [|done].
      assert (is_Some (signals !! a)) as Hsome by eauto.
      apply Hdom in Hsome as [?|?%Hsub]; done.
    + exists g', a. split_and!; [done..|].
      simpl. rewrite find_gate_distinct by done. simpl.
      rewrite Hvals. simpl. rewrite Hv. simpl. done.
Qed.

(** X24. When some gate of an acyclic, well-formed gate list has an argument
    that is neither a primary input nor a gate, the resolver does not
    object, and a simulation with at least one event fails at the first
    event with a lookup error whose key is such an argument. *)
Theorem undefined_argument_key_error (inputs outputs : list string)
    (gates : list gate) (ev : stimulus) (stimuli : list stimulus) :
  NoDup (gate_name <$> gates) →
  Forall well_formed_gate gates →
  acyclic gates →
  length ev.2 = length inputs →
  (∃ g a, g ∈ gates ∧ a ∈ gate_inputs g
          ∧ (a ∉ inputs) ∧ (a ∉ gate_name <$> gates)) →
  ∃ g a, g ∈ gates ∧ a ∈ gate_inputs g
         ∧ (a ∉ inputs) ∧ (a ∉ gate_name <$> gates)
         ∧ simulate (inputs, outputs, gates, ev :: stimuli)
           = Raise (KeyError a).
Proof.
  intros Hnames Hkinds Hacyc Hlen Hbad.
  destruct (topo_sort_complete gates inputs Hnames Hacyc) as [order Horder].
  pose proof (topo_sort_sound _ _ _ Horder) as [_ Htopo].
  destruct ev as [t values]. simpl in Hlen.
  destruct (eval_undefined inputs gates [] order
              (bind_inputs ∅ inputs values))
    as (g & a & Hg & Ha & Hin & Hn & Hrun); [done..| | |].
  - intros x. split.
    + intros Hx. left. destruct (decide (x ∈ inputs)) as [|Hni]; [done|].
      rewrite bind_inputs_other in Hx by done.
      rewrite lookup_empty in Hx. by destruct Hx.
    + intros [Hx|Hx]; [|by apply elem_of_nil in Hx].
      destruct (bind_inputs_lookup ∅ inputs values x) as (v & _ & ->); eauto.
  - destruct Hbad as (g & a & Hg & Ha & Hin & Hn). exists g, a.
    split_and!; [done| |done..].
    rewrite (topological_names _ _ Htopo). by apply list_elem_of_fmap_2.
  - exists g, a. split_and!; [done..|].
    unfold simulate. rewrite Horder. cbn [mbind result_bind simulate_with].
    cbn [for_each simulate_event]. rewrite Hrun. done.
Qed.

Lemma undefined_argument_key_error_witness :
  let gates := [Gate "C" "AND" ["A"; "X"]] in
  NoDup (gate_name <$> gates)
  ∧ Forall well_formed_gate gates
  ∧ acyclic gates
  ∧ length (0%Z, ["1"]).2 = length ["A"]
  ∧ (∃ g a, g ∈ gates ∧ a ∈ gate_inputs g
            ∧ (a ∉ ["A"]) ∧ (a ∉ gate_name <$> gates))
  ∧ ∃ g a, g ∈ gates ∧ a ∈ gate_inputs g
           ∧ (a ∉ ["A"]) ∧ (a ∉ gate_name <$> gates)
           ∧ simulate (["A"], ["C"], gates, (0%Z, ["1"]) :: [])
             = Raise (KeyError a).
Proof.
  intros gates.
  assert (NoDup (gate_name <$> gates)) as H1 by compute_done.
  assert (Forall well_formed_gate gates) as H2.
  { apply Forall_cons_2; [|apply Forall_nil_2].
    right. split; [set_solver|done]. }
  assert (acyclic gates) as H3.
  { exact lone_gate_acyclic. }
  assert (length (0%Z, ["1"]).2 = length ["A"]) as H4 by reflexivity.
  assert (∃ g a, g ∈ gates ∧ a ∈ gate_inputs g
                 ∧ (a ∉ ["A"]) ∧ (a ∉ gate_name <$> gates)) as H5.
  { exists (Gate "C" "AND" ["A"; "X"]), "X".
    split_and!; [set_solver|set_solver|compute_done|compute_done]. }
  split_and!; [exact H1|exact H2|exact H3|exact H4|exact H5|].
  exact (undefined_argument_key_error ["A"] ["C"] gates (0%Z, ["1"]) []
           H1 H2 H3 H4 H5).
Defined.

(** X25. When the parse and the simulation succeed, nothing else in [main]
    can fail before the file is written: the text written is the document
    with one entry per primary input and output, in this order and each
    with its trace, followed by one line feed, all of it printable ASCII
    and line feeds. *)
Theorem main_writes_document (text : string)
    (inputs outputs : list string) (gates : list gate)
    (stimuli : list stimulus) (waves : gmap string string) :
  parse_netlist text = Ok (inputs, outputs, gates, stimuli) →
  simulate (inputs, outputs, gates, stimuli) = Ok waves →
  ∃ entries,
    main_document text = Ok (json_document entries +:+ newline)
    ∧ entries.*1 = inputs ++ outputs
    ∧ Forall (λ e, waves !! e.1 = Some e.2) entries
    ∧ str_all json_safe (json_document entries +:+ newline) = true.
Proof.
  intros Hparse Hsim. pose proof (simulate_dom _ _ _ _ _ Hsim) as Hdom.
  destruct (signal_list_entries (inputs ++ outputs) waves)
    as (entries & Hrun & Hnames & Hall).
  { intros x Hx. apply elem_of_dom. rewrite Hdom.
    by apply elem_of_list_to_set. }
  exists entries. split_and!; [|done..|].
  - unfold main_document. rewrite Hparse. cbn [mbind result_bind].
    rewrite Hsim. cbn [mbind result_bind fst snd].
    unfold to_wavedrom_json, signal_list. by rewrite Hrun.
  - by rewrite str_all_app, json_document_safe.
Qed.

Lemma main_writes_document_witness :
  parse_netlist and_document
    = Ok (["A"; "B"], ["C"], [Gate "C" "AND" ["A"; "B"]],
          [(0%Z, ["0"; "0"]); (1%Z, ["1"; "0"]); (2%Z, ["1"; "1"])])
  ∧ simulate (["A"; "B"], ["C"], [Gate "C" "AND" ["A"; "B"]],
              [(0%Z, ["0"; "0"]); (1%Z, ["1"; "0"]); (2%Z, ["1"; "1"])])
    = Ok (<["A" := "011"]> (<["B" := "001"]> (<["C" := "001"]> ∅)))
  ∧ ∃ entries,
      main_document and_document = Ok (json_document entries +:+ newline)
      ∧ entries.*1 = ["A"; "B"] ++ ["C"]
      ∧ Forall (λ e, (<["A" := "011"]> (<["B" := "001"]>
                       (<["C" := "001"]> ∅)) : gmap string string) !! e.1
                     = Some e.2) entries
      ∧ str_all json_safe (json_document entries +:+ newline) = true.
Proof.
  assert (parse_netlist and_document
    = Ok (["A"; "B"], ["C"], [Gate "C" "AND" ["A"; "B"]],
          [(0%Z, ["0"; "0"]); (1%Z, ["1"; "0"]); (2%Z, ["1"; "1"])])) as H1
    by (vm_compute; reflexivity).
  assert (simulate (["A"; "B"], ["C"], [Gate "C" "AND" ["A"; "B"]],
              [(0%Z, ["0"; "0"]); (1%Z, ["1"; "0"]); (2%Z, ["1"; "1"])])
    = Ok (<["A" := "011"]> (<["B" := "001"]> (<["C" := "001"]> ∅)))) as H2
    by (vm_compute; reflexivity).
  split_and!; [exact H1|exact H2|].
  exact (main_writes_document _ _ _ _ _ _ H1 H2).
Defined.
